(** * genjobs: the job transformation engine of prow/genjobs

    A shallow embedding of [prow/genjobs/cmd/genjobs/main.go] and the
    properties of its filtering, remapping, preset merging, field
    updating and path routing functions.

    Conventions.
    - A Go [string] is a byte string: Rocq's [string]; [len] is
      [String.length] and counts bytes.
    - A Go [map[string]string] is a [gmap string string]; where the code
      tells a nil map from an empty one the field is an [option].
    - A [sets.String] is a [gset string].
    - A run-time panic (an invalid regular expression handed to
      [regexp.MustCompile], a slice bound out of range, a nil pointer
      dereference) is the result [None]. *)

From Stdlib Require Import ZArith Ascii String.
From stdpp Require Import gmap strings list fin_maps sorting.

Local Open Scope string_scope.
Local Open Scope list_scope.

(** ** Go's [strings] package, the functions main.go calls *)

Module strings.

Definition HasPrefix (s prefix : string) : bool := String.prefix prefix s.

Definition TrimPrefix (s prefix : string) : string :=
  if HasPrefix s prefix
  then String.substring (String.length prefix)
         (String.length s - String.length prefix) s
  else s.

(** [fieldsAux f cur s]: [cur] is the field being read, reversed. *)
Fixpoint fieldsAux (f : ascii → bool) (cur : list ascii) (s : list ascii)
  : list string :=
  match s with
  | [] => match cur with
          | [] => []
          | _ => [string_of_list_ascii (rev cur)]
          end
  | c :: s' =>
      if f c then
        match cur with
        | [] => fieldsAux f [] s'
        | _ => string_of_list_ascii (rev cur) :: fieldsAux f [] s'
        end
      else fieldsAux f (c :: cur) s'
  end.

(** [FieldsFunc s f] splits [s] at each run of bytes satisfying [f] and
    returns the fields between them; no field is empty. *)
Definition FieldsFunc (s : string) (f : ascii → bool) : list string :=
  fieldsAux f [] (list_ascii_of_string s).

(** [splitAux sep cur s]: all the fields, empty ones too. *)
Fixpoint splitAux (sep : ascii) (cur : list ascii) (s : list ascii)
  : list string :=
  match s with
  | [] => [string_of_list_ascii (rev cur)]
  | c :: s' =>
      if Ascii.eqb c sep
      then string_of_list_ascii (rev cur) :: splitAux sep [] s'
      else splitAux sep (c :: cur) s'
  end.

(** [Split s sep] for a separator of one byte. *)
Definition SplitByte (s : string) (sep : ascii) : list string :=
  splitAux sep [] (list_ascii_of_string s).

Fixpoint Join (elems : list string) (sep : string) : string :=
  match elems with
  | [] => ""
  | [e] => e
  | e :: rest => e +:+ sep +:+ Join rest sep
  end.

End strings.

(** ** Go's [path/filepath] package on a Unix system *)

Module filepath.

Definition slash : ascii := "/"%char.

(** The path elements kept by [Clean], last one first: empty elements
    and [.] disappear, [..] removes the element before it, is dropped
    at the root and is kept at the start of a relative path. *)
Fixpoint cleanElems (rooted : bool) (out : list string) (elems : list string)
  : list string :=
  match elems with
  | [] => out
  | e :: rest =>
      if String.eqb e "" || String.eqb e "." then cleanElems rooted out rest
      else if String.eqb e ".." then
        match out with
        | [] => if rooted then cleanElems rooted [] rest
                else cleanElems rooted [".."] rest
        | top :: out' =>
            if String.eqb top ".."
            then cleanElems rooted (".." :: out) rest
            else cleanElems rooted out' rest
        end
      else cleanElems rooted (e :: out) rest
  end.

Definition Clean (path : string) : string :=
  if String.eqb path "" then "."
  else
    let rooted := strings.HasPrefix path "/" in
    let body := strings.Join (rev (cleanElems rooted [] (strings.SplitByte path slash))) "/" in
    if rooted then "/" +:+ body
    else if String.eqb body "" then "." else body.

(** [Join] starts at the first non-empty element. *)
Fixpoint Join (elem : list string) : string :=
  match elem with
  | [] => ""
  | e :: rest =>
      if String.eqb e "" then Join rest
      else Clean (strings.Join elem "/")
  end.

Fixpoint dropTrailingSlashes (r : list ascii) : list ascii :=
  match r with
  | c :: r' => if Ascii.eqb c slash then dropTrailingSlashes r' else r
  | [] => []
  end.

Fixpoint lastElem (cur : list ascii) (r : list ascii) : list ascii :=
  match r with
  | [] => cur
  | c :: r' => if Ascii.eqb c slash then cur else lastElem (c :: cur) r'
  end.

(** [Base path]: the last element of [path]. *)
Definition Base (path : string) : string :=
  if String.eqb path "" then "."
  else
    let r := dropTrailingSlashes (rev (list_ascii_of_string path)) in
    match lastElem [] r with
    | [] => "/"
    | b => string_of_list_ascii b
    end.

End filepath.

(** ** Go's [regexp] package

    main.go only compiles a pattern and asks whether a string contains a
    match.  The functions of main.go are written against this interface;
    [regexp] below implements it for a fragment of Go's syntax. *)

Class RegexpPkg := {
  Regexp : Type;
  (** [regexp.MustCompile]; [None] when the pattern does not parse and
      the call panics. *)
  MustCompile : string → option Regexp;
  (** The method [MatchString] of a compiled expression. *)
  MatchString : Regexp → string → bool;
}.

Module regexp.

(** The operators of Go's [regexp/syntax] that the fragment covers. *)
Inductive syntax : Type :=
| OpEmptyMatch
| OpLiteral (c : ascii)
| OpCharClass (f : ascii → bool)
| OpBeginText
| OpEndText
| OpWordBoundary
| OpNoWordBoundary
| OpConcat (a b : syntax)
| OpAlternate (a b : syntax)
| OpStar (a : syntax)
| OpPlus (a : syntax)
| OpQuest (a : syntax).

(** *** Parsing *)

Definition inRange (lo hi c : ascii) : bool :=
  (nat_of_ascii lo <=? nat_of_ascii c)%nat && (nat_of_ascii c <=? nat_of_ascii hi)%nat.

Definition isDigit (c : ascii) : bool := inRange "0" "9" c.
Definition isAlpha (c : ascii) : bool := inRange "a" "z" c || inRange "A" "Z" c.
(** [\w]: an ASCII word byte. *)
Definition isWord (c : ascii) : bool := isAlpha c || isDigit c || Ascii.eqb c "_".
Definition isSpace (c : ascii) : bool :=
  Ascii.eqb c " " || inRange (ascii_of_nat 9) (ascii_of_nat 10) c
  || inRange (ascii_of_nat 12) (ascii_of_nat 13) c.
Definition notNewline (c : ascii) : bool := negb (Ascii.eqb c (ascii_of_nat 10)).
Definition isPunct (c : ascii) : bool :=
  (nat_of_ascii c <? 128)%nat && negb (isAlpha c || isDigit c).

(** Bytes with a meaning of their own in a pattern. *)
Definition isMeta (c : ascii) : bool :=
  existsb (Ascii.eqb c)
    ["\"; "."; "+"; "*"; "?"; "("; ")"; "|"; "["; "]"; "{"; "}"; "^"; "$"]%char.

Definition isRepeat (c : ascii) : bool :=
  existsb (Ascii.eqb c) ["*"; "+"; "?"; "{"]%char.

(** An escape sequence.  The fragment has the classes [\d \w \s] and
    their complements, the two word-boundary assertions and escaped
    punctuation. *)
Definition parseEscape (c : ascii) : option syntax :=
  if Ascii.eqb c "b" then Some OpWordBoundary
  else if Ascii.eqb c "B" then Some OpNoWordBoundary
  else if Ascii.eqb c "d" then Some (OpCharClass isDigit)
  else if Ascii.eqb c "D" then Some (OpCharClass (λ x, negb (isDigit x)))
  else if Ascii.eqb c "w" then Some (OpCharClass isWord)
  else if Ascii.eqb c "W" then Some (OpCharClass (λ x, negb (isWord x)))
  else if Ascii.eqb c "s" then Some (OpCharClass isSpace)
  else if Ascii.eqb c "S" then Some (OpCharClass (λ x, negb (isSpace x)))
  else if isPunct c then Some (OpLiteral c)
  else None.

(** At most one repetition operator after an atom: Go rejects a second
    one ([**]) or reads it as a non-greedy mark ([*?]), which is
    outside the fragment. *)
Definition parseRepeat (a : syntax) (s : list ascii) : option (syntax * list ascii) :=
  match s with
  | c :: rest =>
      if isRepeat c then
        match rest with
        | c' :: _ => if isRepeat c' then None else
            if Ascii.eqb c "*" then Some (OpStar a, rest)
            else if Ascii.eqb c "+" then Some (OpPlus a, rest)
            else if Ascii.eqb c "?" then Some (OpQuest a, rest)
            else None
        | [] =>
            if Ascii.eqb c "*" then Some (OpStar a, rest)
            else if Ascii.eqb c "+" then Some (OpPlus a, rest)
            else if Ascii.eqb c "?" then Some (OpQuest a, rest)
            else None
        end
      else Some (a, s)
  | [] => Some (a, s)
  end.

(** Recursive descent, [fuel] bounding the depth of the calls. *)
Fixpoint parseAlternate (fuel : nat) (s : list ascii) {struct fuel}
  : option (syntax * list ascii) :=
  match fuel with
  | O => None
  | S n =>
      '(a, rest) ← parseConcat n s;
      match rest with
      | c :: rest' =>
          if Ascii.eqb c "|"
          then '(b, rest'') ← parseAlternate n rest'; Some (OpAlternate a b, rest'')
          else Some (a, rest)
      | [] => Some (a, rest)
      end
  end
with parseConcat (fuel : nat) (s : list ascii) {struct fuel}
  : option (syntax * list ascii) :=
  match fuel with
  | O => None
  | S n =>
      match s with
      | [] => Some (OpEmptyMatch, s)
      | c :: _ =>
          if Ascii.eqb c "|" || Ascii.eqb c ")" then Some (OpEmptyMatch, s)
          else
            '(a, rest) ← parseAtom n s;
            '(a', rest') ← parseRepeat a rest;
            '(b, rest'') ← parseConcat n rest';
            Some (OpConcat a' b, rest'')
      end
  end
with parseAtom (fuel : nat) (s : list ascii) {struct fuel}
  : option (syntax * list ascii) :=
  match fuel with
  | O => None
  | S n =>
      match s with
      | [] => None
      | c :: rest =>
          if Ascii.eqb c "(" then
            '(a, rest') ← parseAlternate n rest;
            match rest' with
            | c' :: rest'' => if Ascii.eqb c' ")" then Some (a, rest'') else None
            | [] => None
            end
          else if Ascii.eqb c "." then Some (OpCharClass notNewline, rest)
          else if Ascii.eqb c "^" then Some (OpBeginText, rest)
          else if Ascii.eqb c "$" then Some (OpEndText, rest)
          else if Ascii.eqb c "\" then
            match rest with
            | e :: rest' => a ← parseEscape e; Some (a, rest')
            | [] => None
            end
          else if isMeta c then None
          else Some (OpLiteral c, rest)
      end
  end.

(** [Parse]: the whole pattern has to be consumed.  [None] is a syntax
    error, or a pattern outside the fragment: a bracket expression, a
    counted or non-greedy repetition, a flag group, an escape other than
    those of [parseEscape]. *)
Definition Parse (pattern : string) : option syntax :=
  let s := list_ascii_of_string pattern in
  match parseAlternate (3 * length s + 3) s with
  | Some (a, []) => Some a
  | _ => None
  end.

(** *** Matching

    A position in the text is the byte before it, if any, and the text
    after it.  [run a p] lists the positions where a match of [a]
    that starts at [p] can end, the one Go prefers first. *)

Definition position : Type := option ascii * list ascii.

Definition wordBefore (p : position) : bool :=
  match p.1 with Some c => isWord c | None => false end.
Definition wordAfter (p : position) : bool :=
  match p.2 with c :: _ => isWord c | [] => false end.
Definition atWordBoundary (p : position) : bool :=
  negb (Bool.eqb (wordBefore p) (wordAfter p)).

(** A greedy loop; an iteration that consumes nothing is not repeated. *)
Fixpoint loop (step : position → list position) (fuel : nat) (p : position)
  : list position :=
  match fuel with
  | O => [p]
  | S n =>
      flat_map (λ q, if (length q.2 <? length p.2)%nat then loop step n q else [])
               (step p) ++ [p]
  end.

Fixpoint run (a : syntax) (p : position) : list position :=
  match a with
  | OpEmptyMatch => [p]
  | OpLiteral c =>
      match p.2 with
      | c' :: rest => if Ascii.eqb c c' then [(Some c', rest)] else []
      | [] => []
      end
  | OpCharClass f =>
      match p.2 with
      | c' :: rest => if f c' then [(Some c', rest)] else []
      | [] => []
      end
  | OpBeginText => match p.1 with None => [p] | Some _ => [] end
  | OpEndText => match p.2 with [] => [p] | _ :: _ => [] end
  | OpWordBoundary => if atWordBoundary p then [p] else []
  | OpNoWordBoundary => if atWordBoundary p then [] else [p]
  | OpConcat a b => flat_map (run b) (run a p)
  | OpAlternate a b => run a p ++ run b p
  | OpStar a => loop (run a) (length p.2) p
  | OpPlus a => flat_map (λ q, loop (run a) (length q.2) q) (run a p)
  | OpQuest a => run a p ++ [p]
  end.

(** The position reached from [prev] by reading [pre]. *)
Definition positionAfter (prev : option ascii) (pre post : list ascii) : position :=
  (match last pre with Some c => Some c | None => prev end, post).

(** A match somewhere in the text: the search tries each start. *)
Fixpoint search (a : syntax) (p : position) (n : nat) : bool :=
  match run a p with
  | _ :: _ => true
  | [] =>
      match n, p.2 with
      | S n', c :: rest => search a (Some c, rest) n'
      | _, _ => false
      end
  end.

Definition matchString (a : syntax) (s : string) : bool :=
  let t := list_ascii_of_string s in search a (None, t) (length t).

(** A match of the whole text, from its first byte to its last. *)
Definition fullMatchString (a : syntax) (s : string) : bool :=
  existsb (λ q : position, match q.2 with [] => true | _ => false end)
          (run a (None, list_ascii_of_string s)).

(** The text after the preferred match that starts at the first byte. *)
Definition matchPrefix (a : syntax) (s : string) : option string :=
  match run a (None, list_ascii_of_string s) with
  | q :: _ => Some (string_of_list_ascii q.2)
  | [] => None
  end.

End regexp.

(** The fragment as an implementation of the interface. *)
#[global] Instance goRegexp : RegexpPkg := {|
  Regexp := regexp.syntax;
  MustCompile := regexp.Parse;
  MatchString := regexp.matchString;
|}.

(** ** The helper package [istio.io/test-infra/prow/genjobs/pkg/util]

    main.go calls these helpers; the functions of main.go are written
    against this interface, and [specUtil] further down implements it. *)

Class UtilPkg := {
  HasExtension : string → string → bool;
  SplitOrgRepo : string → string * string;
  GetTopLevelOrg : string → string;
  RemoveHost : string → string;
  RenameFile : string → string → string → string;
  SortedKeys : gmap string string → list string;
}.

(** ** The Kubernetes and Prow types main.go works on

    Each Go struct is a record in a module of its name, with the fields
    main.go reads or writes and some it leaves alone. *)

Module EnvVar.
Record t : Type := { Name : string; Value : string; ValueFrom : option string }.
Definition setValue (e : t) (v : string) : t :=
  {| Name := Name e; Value := v; ValueFrom := ValueFrom e |}.
End EnvVar.

Module Volume.
Record t : Type := { Name : string; VolumeSource : string }.
End Volume.

Module VolumeMount.
Record t : Type := { Name : string; ReadOnly : bool; MountPath : string }.
End VolumeMount.

Module Container.
Record t : Type := {
  Name : string;
  Image : string;
  Env : list EnvVar.t;
  VolumeMounts : list VolumeMount.t;
}.
Definition setEnv (c : t) (env : list EnvVar.t) : t :=
  {| Name := Name c; Image := Image c; Env := env; VolumeMounts := VolumeMounts c |}.
Definition setVolumeMounts (c : t) (vm : list VolumeMount.t) : t :=
  {| Name := Name c; Image := Image c; Env := Env c; VolumeMounts := vm |}.
End Container.

Module PodSpec.
Record t : Type := {
  Volumes : list Volume.t;
  Containers : list Container.t;
  (** [None] is the nil map. *)
  NodeSelector : option (gmap string string);
  ServiceAccountName : string;
}.
Definition setVolumes (s : t) (v : list Volume.t) : t :=
  {| Volumes := v; Containers := Containers s; NodeSelector := NodeSelector s;
     ServiceAccountName := ServiceAccountName s |}.
Definition setContainers (s : t) (c : list Container.t) : t :=
  {| Volumes := Volumes s; Containers := c; NodeSelector := NodeSelector s;
     ServiceAccountName := ServiceAccountName s |}.
Definition setNodeSelector (s : t) (m : option (gmap string string)) : t :=
  {| Volumes := Volumes s; Containers := Containers s; NodeSelector := m;
     ServiceAccountName := ServiceAccountName s |}.
End PodSpec.

Module Refs.
Record t : Type := {
  Org : string;
  Repo : string;
  BaseRef : string;
  BaseSHA : string;
  PathAlias : string;
  WorkDir : bool;
  CloneURI : string;
}.
Definition setOrg (r : t) (org : string) : t :=
  {| Org := org; Repo := Repo r; BaseRef := BaseRef r; BaseSHA := BaseSHA r;
     PathAlias := PathAlias r; WorkDir := WorkDir r; CloneURI := CloneURI r |}.
Definition setCloneURI (r : t) (uri : string) : t :=
  {| Org := Org r; Repo := Repo r; BaseRef := BaseRef r; BaseSHA := BaseSHA r;
     PathAlias := PathAlias r; WorkDir := WorkDir r; CloneURI := uri |}.
End Refs.

Module GCSConfiguration.
Record t : Type := { Bucket : string; PathPrefix : string; PathStrategy : string }.
Definition setBucket (g : t) (b : string) : t :=
  {| Bucket := b; PathPrefix := PathPrefix g; PathStrategy := PathStrategy g |}.
End GCSConfiguration.

Module DecorationConfig.
Record t : Type := {
  GCSConfiguration : option GCSConfiguration.t;
  GCSCredentialsSecret : string;
  (** [None] is the nil slice. *)
  SSHKeySecrets : option (list string);
}.
Definition zero : t :=
  {| GCSConfiguration := None; GCSCredentialsSecret := ""; SSHKeySecrets := None |}.
Definition setGCSConfiguration (d : t) (g : option GCSConfiguration.t) : t :=
  {| GCSConfiguration := g; GCSCredentialsSecret := GCSCredentialsSecret d;
     SSHKeySecrets := SSHKeySecrets d |}.
Definition setSSHKeySecrets (d : t) (s : option (list string)) : t :=
  {| GCSConfiguration := GCSConfiguration d;
     GCSCredentialsSecret := GCSCredentialsSecret d; SSHKeySecrets := s |}.
End DecorationConfig.

Module SlackReporterConfig.
Record t : Type := { Channel : string; ReportTemplate : string }.
End SlackReporterConfig.

Module ReporterConfig.
Record t : Type := { Slack : option SlackReporterConfig.t }.
End ReporterConfig.

Module UtilityConfig.
Record t : Type := {
  Decorate : bool;
  PathAlias : string;
  CloneURI : string;
  ExtraRefs : list Refs.t;
  DecorationConfig : option DecorationConfig.t;
}.
Definition setCloneURI (u : t) (uri : string) : t :=
  {| Decorate := Decorate u; PathAlias := PathAlias u; CloneURI := uri;
     ExtraRefs := ExtraRefs u; DecorationConfig := DecorationConfig u |}.
Definition setExtraRefs (u : t) (refs : list Refs.t) : t :=
  {| Decorate := Decorate u; PathAlias := PathAlias u; CloneURI := CloneURI u;
     ExtraRefs := refs; DecorationConfig := DecorationConfig u |}.
Definition setDecorationConfig (u : t) (d : option DecorationConfig.t) : t :=
  {| Decorate := Decorate u; PathAlias := PathAlias u; CloneURI := CloneURI u;
     ExtraRefs := ExtraRefs u; DecorationConfig := d |}.
End UtilityConfig.

(** [config.JobBase]; Go embeds [UtilityConfig] in it, so [job.CloneURI]
    and [job.ExtraRefs] are fields of [JobBase.UtilityConfig]. *)
Module JobBase.
Record t : Type := {
  Name : string;
  (** [None] is the nil map. *)
  Labels : option (gmap string string);
  Agent : string;
  Cluster : string;
  (** [None] is the nil pointer. *)
  Spec : option PodSpec.t;
  Annotations : option (gmap string string);
  ReporterConfig : option ReporterConfig.t;
  UtilityConfig : UtilityConfig.t;
}.
Definition setName (j : t) (n : string) : t :=
  {| Name := n; Labels := Labels j; Agent := Agent j; Cluster := Cluster j;
     Spec := Spec j; Annotations := Annotations j;
     ReporterConfig := ReporterConfig j; UtilityConfig := UtilityConfig j |}.
Definition setLabels (j : t) (l : option (gmap string string)) : t :=
  {| Name := Name j; Labels := l; Agent := Agent j; Cluster := Cluster j;
     Spec := Spec j; Annotations := Annotations j;
     ReporterConfig := ReporterConfig j; UtilityConfig := UtilityConfig j |}.
Definition setCluster (j : t) (c : string) : t :=
  {| Name := Name j; Labels := Labels j; Agent := Agent j; Cluster := c;
     Spec := Spec j; Annotations := Annotations j;
     ReporterConfig := ReporterConfig j; UtilityConfig := UtilityConfig j |}.
Definition setSpec (j : t) (s : option PodSpec.t) : t :=
  {| Name := Name j; Labels := Labels j; Agent := Agent j; Cluster := Cluster j;
     Spec := s; Annotations := Annotations j;
     ReporterConfig := ReporterConfig j; UtilityConfig := UtilityConfig j |}.
Definition setAnnotations (j : t) (a : option (gmap string string)) : t :=
  {| Name := Name j; Labels := Labels j; Agent := Agent j; Cluster := Cluster j;
     Spec := Spec j; Annotations := a;
     ReporterConfig := ReporterConfig j; UtilityConfig := UtilityConfig j |}.
Definition setReporterConfig (j : t) (r : option ReporterConfig.t) : t :=
  {| Name := Name j; Labels := Labels j; Agent := Agent j; Cluster := Cluster j;
     Spec := Spec j; Annotations := Annotations j;
     ReporterConfig := r; UtilityConfig := UtilityConfig j |}.
Definition setUtilityConfig (j : t) (u : UtilityConfig.t) : t :=
  {| Name := Name j; Labels := Labels j; Agent := Agent j; Cluster := Cluster j;
     Spec := Spec j; Annotations := Annotations j;
     ReporterConfig := ReporterConfig j; UtilityConfig := u |}.
End JobBase.

Module Periodic.
Record t : Type := { JobBase : JobBase.t; Interval : string; Cron : string }.
Definition setJobBase (p : t) (j : JobBase.t) : t :=
  {| JobBase := j; Interval := Interval p; Cron := Cron p |}.
End Periodic.

Module Preset.
Record t : Type := {
  Labels : gmap string string;
  Env : list EnvVar.t;
  Volumes : list Volume.t;
  VolumeMounts : list VolumeMount.t;
}.
End Preset.

(** ** main.go *)

Definition filenameSeparator : string := ".".
Definition jobnameSeparator : string := "_".
Definition gitHost : string := "github.com".
Definition maxLabelLen : Z := 63.
Definition defaultModifier : string := "private".
Definition defaultCluster : string := "default".
Definition yamlExt : string := ".(yml|yaml)$".

(** The command-line flags. *)
Record options : Type := {
  bucket : string;
  cluster : string;
  channel : string;
  sshKeySecret : string;
  modifier : string;
  input : string;
  output : string;
  branches : list string;
  presets : list string;
  selector : gmap string string;
  labels : gmap string string;
  env : gmap string string;
  orgMap : gmap string string;
  jobWhitelist : gset string;
  jobBlacklist : gset string;
  repoWhitelist : gset string;
  repoBlacklist : gset string;
  jobType : gset string;
  clean : bool;
  dryRun : bool;
  extraRefs : bool;
  resolve : bool;
  sshClone : bool;
  overrideSelector : bool;
}.

(** The default values of the flags, as [parseFlags] declares them. *)
Definition defaultOptions : options :=
  {| bucket := ""; cluster := ""; channel := ""; sshKeySecret := "";
     modifier := defaultModifier; input := "."; output := ".";
     branches := []; presets := []; selector := ∅; labels := ∅; env := ∅;
     orgMap := ∅; jobWhitelist := ∅; jobBlacklist := ∅; repoWhitelist := ∅;
     repoBlacklist := ∅;
     jobType := {[ "presubmit"; "postsubmit"; "periodic" ]};
     clean := false; dryRun := false; extraRefs := false; resolve := false;
     sshClone := false; overrideSelector := false |}.

(** The options with one flag given on the command line. *)
Definition withModifier (o : options) (v : string) : options :=
  {| bucket := bucket o; cluster := cluster o; channel := channel o;
     sshKeySecret := sshKeySecret o; modifier := v; input := input o;
     output := output o; branches := branches o; presets := presets o;
     selector := selector o; labels := labels o; env := env o; orgMap := orgMap o;
     jobWhitelist := jobWhitelist o; jobBlacklist := jobBlacklist o;
     repoWhitelist := repoWhitelist o; repoBlacklist := repoBlacklist o;
     jobType := jobType o; clean := clean o; dryRun := dryRun o;
     extraRefs := extraRefs o; resolve := resolve o; sshClone := sshClone o;
     overrideSelector := overrideSelector o |}.

Definition withOutput (o : options) (v : string) : options :=
  {| bucket := bucket o; cluster := cluster o; channel := channel o;
     sshKeySecret := sshKeySecret o; modifier := modifier o; input := input o;
     output := v; branches := branches o; presets := presets o; selector := selector o;
     labels := labels o; env := env o; orgMap := orgMap o;
     jobWhitelist := jobWhitelist o; jobBlacklist := jobBlacklist o;
     repoWhitelist := repoWhitelist o; repoBlacklist := repoBlacklist o;
     jobType := jobType o; clean := clean o; dryRun := dryRun o;
     extraRefs := extraRefs o; resolve := resolve o; sshClone := sshClone o;
     overrideSelector := overrideSelector o |}.

Definition withBranches (o : options) (v : list string) : options :=
  {| bucket := bucket o; cluster := cluster o; channel := channel o;
     sshKeySecret := sshKeySecret o; modifier := modifier o; input := input o;
     output := output o; branches := v; presets := presets o; selector := selector o;
     labels := labels o; env := env o; orgMap := orgMap o;
     jobWhitelist := jobWhitelist o; jobBlacklist := jobBlacklist o;
     repoWhitelist := repoWhitelist o; repoBlacklist := repoBlacklist o;
     jobType := jobType o; clean := clean o; dryRun := dryRun o;
     extraRefs := extraRefs o; resolve := resolve o; sshClone := sshClone o;
     overrideSelector := overrideSelector o |}.

Definition withSelector (o : options) (v : gmap string string) : options :=
  {| bucket := bucket o; cluster := cluster o; channel := channel o;
     sshKeySecret := sshKeySecret o; modifier := modifier o; input := input o;
     output := output o; branches := branches o; presets := presets o; selector := v;
     labels := labels o; env := env o; orgMap := orgMap o;
     jobWhitelist := jobWhitelist o; jobBlacklist := jobBlacklist o;
     repoWhitelist := repoWhitelist o; repoBlacklist := repoBlacklist o;
     jobType := jobType o; clean := clean o; dryRun := dryRun o;
     extraRefs := extraRefs o; resolve := resolve o; sshClone := sshClone o;
     overrideSelector := overrideSelector o |}.

Definition withOrgMap (o : options) (v : gmap string string) : options :=
  {| bucket := bucket o; cluster := cluster o; channel := channel o;
     sshKeySecret := sshKeySecret o; modifier := modifier o; input := input o;
     output := output o; branches := branches o; presets := presets o;
     selector := selector o; labels := labels o; env := env o; orgMap := v;
     jobWhitelist := jobWhitelist o; jobBlacklist := jobBlacklist o;
     repoWhitelist := repoWhitelist o; repoBlacklist := repoBlacklist o;
     jobType := jobType o; clean := clean o; dryRun := dryRun o;
     extraRefs := extraRefs o; resolve := resolve o; sshClone := sshClone o;
     overrideSelector := overrideSelector o |}.

Definition withRepoBlacklist (o : options) (v : gset string) : options :=
  {| bucket := bucket o; cluster := cluster o; channel := channel o;
     sshKeySecret := sshKeySecret o; modifier := modifier o; input := input o;
     output := output o; branches := branches o; presets := presets o;
     selector := selector o; labels := labels o; env := env o; orgMap := orgMap o;
     jobWhitelist := jobWhitelist o; jobBlacklist := jobBlacklist o;
     repoWhitelist := repoWhitelist o; repoBlacklist := v; jobType := jobType o;
     clean := clean o; dryRun := dryRun o; extraRefs := extraRefs o;
     resolve := resolve o; sshClone := sshClone o;
     overrideSelector := overrideSelector o |}.

Definition withExtraRefs (o : options) (v : bool) : options :=
  {| bucket := bucket o; cluster := cluster o; channel := channel o;
     sshKeySecret := sshKeySecret o; modifier := modifier o; input := input o;
     output := output o; branches := branches o; presets := presets o;
     selector := selector o; labels := labels o; env := env o; orgMap := orgMap o;
     jobWhitelist := jobWhitelist o; jobBlacklist := jobBlacklist o;
     repoWhitelist := repoWhitelist o; repoBlacklist := repoBlacklist o;
     jobType := jobType o; clean := clean o; dryRun := dryRun o; extraRefs := v;
     resolve := resolve o; sshClone := sshClone o;
     overrideSelector := overrideSelector o |}.

Definition withSshClone (o : options) (v : bool) : options :=
  {| bucket := bucket o; cluster := cluster o; channel := channel o;
     sshKeySecret := sshKeySecret o; modifier := modifier o; input := input o;
     output := output o; branches := branches o; presets := presets o;
     selector := selector o; labels := labels o; env := env o; orgMap := orgMap o;
     jobWhitelist := jobWhitelist o; jobBlacklist := jobBlacklist o;
     repoWhitelist := repoWhitelist o; repoBlacklist := repoBlacklist o;
     jobType := jobType o; clean := clean o; dryRun := dryRun o;
     extraRefs := extraRefs o; resolve := resolve o; sshClone := v;
     overrideSelector := overrideSelector o |}.

Definition withOverrideSelector (o : options) (v : bool) : options :=
  {| bucket := bucket o; cluster := cluster o; channel := channel o;
     sshKeySecret := sshKeySecret o; modifier := modifier o; input := input o;
     output := output o; branches := branches o; presets := presets o;
     selector := selector o; labels := labels o; env := env o; orgMap := orgMap o;
     jobWhitelist := jobWhitelist o; jobBlacklist := jobBlacklist o;
     repoWhitelist := repoWhitelist o; repoBlacklist := repoBlacklist o;
     jobType := jobType o; clean := clean o; dryRun := dryRun o;
     extraRefs := extraRefs o; resolve := resolve o; sshClone := sshClone o;
     overrideSelector := v |}.

(** [o.orgMap[org]]: the zero value, the empty string, for a missing key. *)
Definition orgMapAt (o : options) (org : string) : string :=
  default "" (orgMap o !! org).

(** [validateOrgRepo]: the org and repo of a job pass validation. *)
Definition validateOrgRepo (o : options) (org repo : string) : bool :=
  let hasOrg := bool_decide (is_Some (orgMap o !! org)) in
  if negb hasOrg
     || bool_decide (repo ∈ repoBlacklist o)
     || ((0 <? size (repoWhitelist o))%nat && negb (bool_decide (repo ∈ repoWhitelist o)))
  then false
  else true.

(** [m == nil] *)
Definition isNil {A : Type} (m : option A) : bool :=
  match m with
  | None => true
  | Some _ => false
  end.

(** A [for ... range] loop whose body may panic: the state is threaded
    through the elements in order and a panic ends the loop. *)
Fixpoint foldlM {A B : Type} (f : B → A → option B) (b : B) (l : list A) : option B :=
  match l with
  | [] => Some b
  | x :: rest => b' ← f b x; foldlM f b' rest
  end.

Section main.
Context `{RegexpPkg} `{UtilPkg}.

(** The inner loop of [isMatchBranch] for one branch: [Some true] stands
    for the [return true], [Some false] for the loop running to its end. *)
Fixpoint matchPatterns (branch : string) (patterns : list string) : option bool :=
  match patterns with
  | [] => Some false
  | pattern :: rest =>
      re ← MustCompile pattern;
      if MatchString re branch then Some true else matchPatterns branch rest
  end.

Fixpoint matchBranches (bs : list string) (patterns : list string) : option bool :=
  match bs with
  | [] => Some false
  | branch :: rest =>
      found ← matchPatterns branch patterns;
      if found : bool then Some true else matchBranches rest patterns
  end.

(** [isMatchBranch]: the branch of a job passes validation. *)
Definition isMatchBranch (o : options) (patterns : list string) : option bool :=
  if (length (branches o) =? 0)%nat then Some true
  else matchBranches (branches o) patterns.

(** [validateJob]: the job passes validation.  Go's [||] evaluates its
    right operand only when the left one is false. *)
Definition validateJob (o : options) (name : string) (patterns : list string)
    (jType : string) : option bool :=
  if bool_decide (name ∈ jobBlacklist o) then Some false
  else if (0 <? size (jobWhitelist o))%nat && negb (bool_decide (name ∈ jobWhitelist o))
  then Some false
  else
    m ← isMatchBranch o patterns;
    if negb m then Some false
    else if negb (bool_decide (jType ∈ jobType o)) then Some false
    else Some true.

(** [allRefs]: the predicate holds of every ref of the array. *)
Fixpoint allRefsFrom (idx : nat) (array : list Refs.t)
    (predicate : Refs.t → nat → bool) : bool :=
  match array with
  | [] => true
  | item :: rest =>
      if negb (predicate item idx) then false
      else allRefsFrom (S idx) rest predicate
  end.

Definition allRefs (array : list Refs.t) (predicate : Refs.t → nat → bool) : bool :=
  allRefsFrom 0 array predicate.

(** [convertOrgRepoStr]: translates the org and repo of a job. *)
Definition convertOrgRepoStr (o : options) (s : string) : string :=
  let '(org, repo) := SplitOrgRepo s in
  let valid := validateOrgRepo o org repo in
  if negb valid then ""
  else strings.Join [orgMapAt o org; repo] "/".

(** The loop shared by the merges of main.go over a list keyed by name:
<<
    for j := range l { if l[j].Name == n { l[j] = upd(l[j]); continue outer } }
    l = append(l, new)
>>
    The first entry named [n] is updated; without one, [new] is appended. *)
Fixpoint upsert {A : Type} (name : A → string) (n : string) (upd : A → A)
    (new : A) (l : list A) : list A :=
  match l with
  | [] => [new]
  | x :: rest =>
      if String.eqb (name x) n then upd x :: rest
      else x :: upsert name n upd new rest
  end.

(** The label gate of [mergePreset]: every label of the preset is a
    label of the job, with the same value. *)
Definition presetMatches (jobLabels : gmap string string) (preset : Preset.t) : bool :=
  forallb (λ lv : string * string, bool_decide (jobLabels !! lv.1 = Some lv.2))
          (map_to_list (Preset.Labels preset)).

(** One preset variable merged into one container: the value of the
    variable of that name is overwritten, or the variable is appended. *)
Definition mergeEnv (e : EnvVar.t) (c : Container.t) : Container.t :=
  Container.setEnv c
    (upsert EnvVar.Name (EnvVar.Name e)
            (λ old, EnvVar.setValue old (EnvVar.Value e)) e (Container.Env c)).

Definition mergeVolume (vol : Volume.t) (vols : list Volume.t) : list Volume.t :=
  upsert Volume.Name (Volume.Name vol) (λ _, vol) vol vols.

Definition mergeVolumeMount (volm : VolumeMount.t) (c : Container.t) : Container.t :=
  Container.setVolumeMounts c
    (upsert VolumeMount.Name (VolumeMount.Name volm) (λ _, volm) volm
            (Container.VolumeMounts c)).

(** The three loops of [mergePreset] on the pod spec of the job. *)
Definition mergePresetSpec (preset : Preset.t) (spec : PodSpec.t) : PodSpec.t :=
  let containers :=
    fold_left (λ cs e, map (mergeEnv e) cs) (Preset.Env preset)
              (PodSpec.Containers spec) in
  let volumes :=
    fold_left (λ vols vol, mergeVolume vol vols) (Preset.Volumes preset)
              (PodSpec.Volumes spec) in
  let containers :=
    fold_left (λ cs volm, map (mergeVolumeMount volm) cs)
              (Preset.VolumeMounts preset) containers in
  PodSpec.setVolumes (PodSpec.setContainers spec containers) volumes.

(** [mergePreset]: merges a preset into a job spec based on the labels.
    With a nil [job.Spec] the first loop body that runs dereferences it. *)
Definition mergePreset (jobLabels : gmap string string) (job : JobBase.t)
    (preset : Preset.t) : option JobBase.t :=
  if negb (presetMatches jobLabels preset) then Some job
  else
    match JobBase.Spec job with
    | Some spec => Some (JobBase.setSpec job (Some (mergePresetSpec preset spec)))
    | None =>
        match Preset.Env preset, Preset.Volumes preset, Preset.VolumeMounts preset with
        | [], [], [] => Some job
        | _, _, _ => None
        end
    end.

(** [resolvePresets]: merges every preset, in the order of the list. *)
Definition resolvePresets (o : options) (jobLabels : gmap string string)
    (job : JobBase.t) (ps : list Preset.t) : option JobBase.t :=
  if negb (resolve o) then Some job
  else
    match JobBase.Spec job with
    | Some _ => foldlM (λ j preset, mergePreset jobLabels j preset) job ps
    | None => Some job
    end.

(** [updateJobName]: [job.Name[:maxNameLen]] panics on a negative bound. *)
Definition updateJobName (o : options) (job : JobBase.t) : option JobBase.t :=
  let suffix :=
    if negb (String.eqb (modifier o) "") then jobnameSeparator +:+ modifier o else "" in
  let maxNameLen := (maxLabelLen - Z.of_nat (String.length suffix))%Z in
  name ←
    (if (maxNameLen <? Z.of_nat (String.length (JobBase.Name job)))%Z
     then if (maxNameLen <? 0)%Z then None
          else Some (String.substring 0 (Z.to_nat maxNameLen) (JobBase.Name job))
     else Some (JobBase.Name job));
  Some (JobBase.setName job (name +:+ suffix)).

Definition updateGCSConfiguration (o : options) (job : DecorationConfig.t)
    : DecorationConfig.t :=
  if String.eqb (bucket o) "" then job
  else
    match DecorationConfig.GCSConfiguration job with
    | None =>
        DecorationConfig.setGCSConfiguration job
          (Some {| GCSConfiguration.Bucket := bucket o;
                   GCSConfiguration.PathPrefix := "";
                   GCSConfiguration.PathStrategy := "" |})
    | Some g =>
        DecorationConfig.setGCSConfiguration job
          (Some (GCSConfiguration.setBucket g (bucket o)))
    end.

Definition updateSSHKeySecrets (o : options) (job : DecorationConfig.t)
    : DecorationConfig.t :=
  if String.eqb (sshKeySecret o) "" then job
  else
    match DecorationConfig.SSHKeySecrets job with
    | None => DecorationConfig.setSSHKeySecrets job (Some [sshKeySecret o])
    | Some l => DecorationConfig.setSSHKeySecrets job (Some (l ++ [sshKeySecret o]))
    end.

Definition updateUtilityConfig (o : options) (job : UtilityConfig.t)
    : UtilityConfig.t :=
  if String.eqb (bucket o) "" && String.eqb (sshKeySecret o) "" then job
  else
    let d := default DecorationConfig.zero (UtilityConfig.DecorationConfig job) in
    UtilityConfig.setDecorationConfig job
      (Some (updateSSHKeySecrets o (updateGCSConfiguration o d))).

Definition updateReporterConfig (o : options) (job : JobBase.t) : JobBase.t :=
  if String.eqb (channel o) "" then job
  else
    JobBase.setReporterConfig job
      (Some {| ReporterConfig.Slack :=
                 Some {| SlackReporterConfig.Channel := channel o;
                         SlackReporterConfig.ReportTemplate := "" |} |}).

(** [for k, v := range src { dst[k] = v }] *)
Definition overlay (src dst : gmap string string) : gmap string string :=
  map_fold (λ k v m, <[k:=v]> m) dst src.

Definition updateLabels (o : options) (job : JobBase.t) : JobBase.t :=
  if (size (labels o) =? 0)%nat then job
  else JobBase.setLabels job (Some (overlay (labels o) (default ∅ (JobBase.Labels job)))).

(** [updateNodeSelector]: reads [job.Spec.NodeSelector], so a nil
    [job.Spec] panics once the configured selector is not empty. *)
Definition updateNodeSelector (o : options) (job : JobBase.t) : option JobBase.t :=
  if (size (selector o) =? 0)%nat then Some job
  else
    spec ← JobBase.Spec job;
    let nodeSelector :=
      if overrideSelector o || isNil (PodSpec.NodeSelector spec) then ∅
      else default ∅ (PodSpec.NodeSelector spec) in
    Some (JobBase.setSpec job
            (Some (PodSpec.setNodeSelector spec (Some (overlay (selector o) nodeSelector))))).

(** One configured variable applied to one container. *)
Definition updateEnv (o : options) (envK : string) (c : Container.t) : Container.t :=
  let v := default "" (env o !! envK) in
  Container.setEnv c
    (upsert EnvVar.Name envK (λ old, EnvVar.setValue old v)
            {| EnvVar.Name := envK; EnvVar.Value := v; EnvVar.ValueFrom := None |}
            (Container.Env c)).

Definition updateEnvs (o : options) (job : JobBase.t) : option JobBase.t :=
  if (size (env o) =? 0)%nat then Some job
  else
    let envKs := SortedKeys (env o) in
    match JobBase.Spec job with
    | Some spec =>
        Some (JobBase.setSpec job
                (Some (PodSpec.setContainers spec
                         (fold_left (λ cs envK, map (updateEnv o envK) cs) envKs
                                    (PodSpec.Containers spec)))))
    | None => match envKs with [] => Some job | _ :: _ => None end
    end.

(** [updateJobBase]: the fields of a job made to work with private
    repositories. *)
Definition updateJobBase (o : options) (job : JobBase.t) (orgrepo : string)
    : option JobBase.t :=
  let job := JobBase.setAnnotations job None in
  let job :=
    if sshClone o && negb (String.eqb orgrepo "")
    then JobBase.setUtilityConfig job
           (UtilityConfig.setCloneURI (JobBase.UtilityConfig job)
              ("git@" +:+ gitHost +:+ ":" +:+ orgrepo +:+ ".git"))
    else job in
  let job :=
    if negb (String.eqb (cluster o) "") && negb (String.eqb (cluster o) defaultCluster)
    then JobBase.setCluster job (cluster o)
    else job in
  job ← updateJobName o job;
  let job := updateReporterConfig o job in
  let job := updateLabels o job in
  job ← updateNodeSelector o job;
  updateEnvs o job.

(** The body of the loop of [updateExtraRefs] at index [i]; the slice is
    written in place, [ref] is the copy of [refs[i]] the range made. *)
Definition updateExtraRef (o : options) (refs : list Refs.t) (i : nat) : list Refs.t :=
  match refs !! i with
  | None => refs
  | Some ref =>
      let org := Refs.Org ref in
      let repo := Refs.Repo ref in
      if extraRefs o || validateOrgRepo o org repo then
        let org := orgMapAt o org in
        let refs := alter (λ r, Refs.setOrg r org) i refs in
        if sshClone o
        then alter (λ r, Refs.setCloneURI r
                           ("git@" +:+ gitHost +:+ ":" +:+ org +:+ "/" +:+ repo +:+ ".git"))
                   i refs
        else refs
      else refs
  end.

Definition updateExtraRefs (o : options) (refs : list Refs.t) : list Refs.t :=
  fold_left (updateExtraRef o) (seq 0 (length refs)) refs.

(** [segments[i]]; every index main.go uses is in range. *)
Definition segmentAt (segments : list string) (i : nat) : string :=
  nth i segments "".

(** [getOutPath]: the output path for the file at [p] under the input
    directory [in_]; the empty string when there is none. *)
Definition getOutPath (o : options) (p in_ : string) : string :=
  let segments :=
    strings.FieldsFunc (strings.TrimPrefix p in_) (λ c, Ascii.eqb c "/") in
  let n := length segments in
  if HasExtension (output o) yamlExt then output o
  else if (3 <=? n)%nat then
    let org := segmentAt segments (n - 3) in
    let repo := segmentAt segments (n - 2) in
    let file := segmentAt segments (n - 1) in
    match orgMap o !! org with
    | Some newOrg =>
        filepath.Join [output o; GetTopLevelOrg newOrg; repo;
                       RenameFile ("^" +:+ RemoveHost org +:+ "\b") file (RemoveHost newOrg)]
    | None => ""
    end
  else if (n =? 2)%nat then
    let org := segmentAt segments (n - 2) in
    let file := segmentAt segments (n - 1) in
    match orgMap o !! org with
    | Some newOrg =>
        filepath.Join [output o; GetTopLevelOrg newOrg;
                       RenameFile ("^" +:+ RemoveHost org +:+ "\b") file (RemoveHost newOrg)]
    | None => ""
    end
  else if (n =? 1)%nat then
    let file := segmentAt segments (n - 1) in
    if negb (strings.HasPrefix file (modifier o))
    then filepath.Join [output o; modifier o +:+ filenameSeparator +:+ file]
    else ""
  else
    let file := filepath.Base in_ in
    if negb (strings.HasPrefix file (modifier o))
    then filepath.Join [output o; modifier o +:+ filenameSeparator +:+ file]
    else "".

(** The body of the loop of [Main] over the periodic jobs of a file:
    [periodic] is the list built so far, [ps] the presets of the
    command line followed by those of the file. *)
Definition periodicBody (o : options) (ps : list Preset.t)
    (periodic : list Periodic.t) (job : Periodic.t) : option (list Periodic.t) :=
  let base := Periodic.JobBase job in
  let refs := UtilityConfig.ExtraRefs (JobBase.UtilityConfig base) in
  valid ← validateJob o (JobBase.Name base) [] "periodic";
  if negb valid then Some periodic
  else if (length refs =? 0)%nat then Some periodic
  else if allRefs refs (λ val idx, negb (validateOrgRepo o (Refs.Org val) (Refs.Repo val)))
  then Some periodic
  else
    let base :=
      JobBase.setUtilityConfig base
        (UtilityConfig.setExtraRefs (JobBase.UtilityConfig base)
           (updateExtraRefs o refs)) in
    base ← updateJobBase o base "";
    let base :=
      JobBase.setUtilityConfig base (updateUtilityConfig o (JobBase.UtilityConfig base)) in
    base ← resolvePresets o (default ∅ (JobBase.Labels base)) base ps;
    Some (periodic ++ [Periodic.setJobBase job base]).

(** The periodic jobs [Main] writes for a file. *)
Definition convertPeriodics (o : options) (ps : list Preset.t)
    (jobs : list Periodic.t) : option (list Periodic.t) :=
  foldlM (periodicBody o ps) [] jobs.

End main.

(** ** The helper package, from the specification *)

Module util.

(** Modelled from the spec: [util.HasExtension] is not in the sources;
    the specification has the walk keep the files whose name matches the
    YAML-extension pattern, so the path is searched for the pattern. *)
Definition HasExtension (path ext : string) : bool :=
  match regexp.Parse ext with
  | Some re => regexp.matchString re path
  | None => false
  end.

Fixpoint splitLast (cur : list ascii) (r : list ascii) : list ascii * list ascii :=
  match r with
  | [] => ([], cur)
  | c :: r' => if Ascii.eqb c "/" then (rev r', cur) else splitLast (c :: cur) r'
  end.

(** Modelled from the spec: [util.SplitOrgRepo] is not in the sources;
    the specification combines the two identifiers as [org/repo] and
    lets an organization be slash-qualified, so the repository is what
    follows the last slash. *)
Definition SplitOrgRepo (s : string) : string * string :=
  let '(org, repo) := splitLast [] (rev (list_ascii_of_string s)) in
  (string_of_list_ascii org, string_of_list_ascii repo).

(** Modelled from the spec: [util.GetTopLevelOrg] is not in the sources;
    it extracts the first path component of a (possibly slash-qualified)
    organization identifier. *)
Definition GetTopLevelOrg (s : string) : string :=
  hd "" (strings.SplitByte s "/").

(** Modelled from the spec: [util.RemoveHost] is not in the sources; the
    specification speaks of the host-stripped organization name, read
    here as the identifier without its first path component when it is
    slash-qualified, and the identifier itself otherwise. *)
Definition RemoveHost (s : string) : string :=
  match strings.SplitByte s "/" with
  | _ :: (_ :: _) as rest => strings.Join rest "/"
  | _ => s
  end.

(** Modelled from the spec: [util.RenameFile] is not in the sources; it
    replaces a leading occurrence of the pattern in the file name by the
    replacement, anchored at the start of the file name. *)
Definition RenameFile (pat path repl : string) : string :=
  match regexp.Parse pat with
  | Some re =>
      match regexp.matchPrefix re path with
      | Some rest => repl +:+ rest
      | None => path
      end
  | None => path
  end.

(** Modelled from the spec: [util.SortedKeys] is not in the sources; the
    configured variables are applied in sorted key order. *)
Definition SortedKeys (m : gmap string string) : list string :=
  merge_sort (λ a b, Is_true (String.leb a b)) (map_to_list m).*1.

End util.

#[global] Instance specUtil : UtilPkg := {|
  HasExtension := util.HasExtension;
  SplitOrgRepo := util.SplitOrgRepo;
  GetTopLevelOrg := util.GetTopLevelOrg;
  RemoveHost := util.RemoveHost;
  RenameFile := util.RenameFile;
  SortedKeys := util.SortedKeys;
|}.

(** ** The vocabulary of the properties *)

(** The pattern is a regular expression: compiling it does not panic. *)
Definition compiles `{RegexpPkg} (pattern : string) : Prop :=
  is_Some (MustCompile pattern).

(** A branch is matched by a pattern of the list. *)
Definition matchedBy `{RegexpPkg} (branch : string) (patterns : list string) : Prop :=
  ∃ pattern re,
    pattern ∈ patterns ∧ MustCompile pattern = Some re ∧ MatchString re branch = true.

(** A ref that [validateOrgRepo] accepts: its org has an entry in the
    org mapping, its repo is not in the deny set and is in the allow set
    when there is one. *)
Definition accepted (o : options) (ref : Refs.t) : Prop :=
  is_Some (orgMap o !! Refs.Org ref) ∧ (Refs.Repo ref ∉ repoBlacklist o)
  ∧ (repoWhitelist o = ∅ ∨ Refs.Repo ref ∈ repoWhitelist o).

(** The extra refs of a periodic job. *)
Definition extraRefsOf (job : Periodic.t) : list Refs.t :=
  UtilityConfig.ExtraRefs (JobBase.UtilityConfig (Periodic.JobBase job)).

(** Some extra ref of the job passes [validateOrgRepo]. *)
Definition hasAcceptedRef (o : options) (job : Periodic.t) : bool :=
  existsb (λ ref, validateOrgRepo o (Refs.Org ref) (Refs.Repo ref)) (extraRefsOf job).

(** What the loop of [updateExtraRefs] makes of one ref. *)
Definition remapRef (o : options) (ref : Refs.t) : Refs.t :=
  if extraRefs o || validateOrgRepo o (Refs.Org ref) (Refs.Repo ref) then
    let org := orgMapAt o (Refs.Org ref) in
    let ref' := Refs.setOrg ref org in
    if sshClone o
    then Refs.setCloneURI ref'
           ("git@" +:+ gitHost +:+ ":" +:+ org +:+ "/" +:+ Refs.Repo ref +:+ ".git")
    else ref'
  else ref.

(** The suffix [updateJobName] appends: the separator and the modifier,
    when there is a modifier. *)
Definition nameSuffix (o : options) : string :=
  if negb (String.eqb (modifier o) "") then jobnameSeparator +:+ modifier o else "".

(** The merge of one entry [p] into a list keyed by name, as the loops
    of [mergePreset] do it: [upd p old] replaces the first entry [old]
    of the name of [p], and [p] is appended when there is none. *)
Definition put {A : Type} (name : A → string) (upd : A → A → A) (p : A) (l : list A)
    : list A :=
  upsert name (name p) (upd p) p l.

(** The merge of the entries of [ps], in order. *)
Definition putAll {A : Type} (name : A → string) (upd : A → A → A) (ps l : list A)
    : list A :=
  fold_left (λ acc p, put name upd p acc) ps l.

(** The entries of a list with the name [n]. *)
Definition named {A : Type} (name : A → string) (n : string) (l : list A) : list A :=
  filter (λ x, name x = n) l.

(** How a preset variable updates a variable of its name: the value is
    overwritten, the rest of the variable stays. *)
Definition overwriteValue (p old : EnvVar.t) : EnvVar.t :=
  EnvVar.setValue old (EnvVar.Value p).

(** How a preset volume or volume mount replaces one of its name. *)
Definition replaceBy {A : Type} (p old : A) : A := p.

(** What [mergePreset] makes of one container. *)
Definition mergedContainer (preset : Preset.t) (c : Container.t) : Container.t :=
  {| Container.Name := Container.Name c;
     Container.Image := Container.Image c;
     Container.Env :=
       putAll EnvVar.Name overwriteValue (Preset.Env preset) (Container.Env c);
     Container.VolumeMounts :=
       putAll VolumeMount.Name replaceBy (Preset.VolumeMounts preset)
              (Container.VolumeMounts c) |}.

(** The segments of the path of a file below the input directory. *)
Definition segmentsBelow (p in_ : string) : list string :=
  strings.FieldsFunc (strings.TrimPrefix p in_) (λ c, Ascii.eqb c "/").

(** The pattern [getOutPath] renames a file name with: the host-stripped
    org at the start of the name, up to a word boundary. *)
Definition orgPrefixPattern `{UtilPkg} (org : string) : string :=
  "^" +:+ RemoveHost org +:+ "\b".

(** ** Example data *)

Definition exampleRef (org repo : string) : Refs.t :=
  {| Refs.Org := org; Refs.Repo := repo; Refs.BaseRef := "master"; Refs.BaseSHA := "";
     Refs.PathAlias := ""; Refs.WorkDir := false; Refs.CloneURI := "" |}.

Definition exampleRefs : list Refs.t :=
  [exampleRef "org-a" "repo-x"; exampleRef "org-c" "repo-y"].

Definition exampleContainer (envs : list EnvVar.t) : Container.t :=
  {| Container.Name := "test"; Container.Image := "gcr.io/istio-testing/build-tools";
     Container.Env := envs; Container.VolumeMounts := [] |}.

Definition exampleSpec (cs : list Container.t) (sel : option (gmap string string))
    : PodSpec.t :=
  {| PodSpec.Volumes := []; PodSpec.Containers := cs; PodSpec.NodeSelector := sel;
     PodSpec.ServiceAccountName := "" |}.

Definition exampleJob (name : string) (spec : option PodSpec.t) (refs : list Refs.t)
    : JobBase.t :=
  {| JobBase.Name := name; JobBase.Labels := None; JobBase.Agent := "kubernetes";
     JobBase.Cluster := ""; JobBase.Spec := spec; JobBase.Annotations := None;
     JobBase.ReporterConfig := None;
     JobBase.UtilityConfig :=
       {| UtilityConfig.Decorate := true; UtilityConfig.PathAlias := "";
          UtilityConfig.CloneURI := ""; UtilityConfig.ExtraRefs := refs;
          UtilityConfig.DecorationConfig := None |} |}.

Definition examplePeriodic (name : string) (refs : list Refs.t) : Periodic.t :=
  {| Periodic.JobBase := exampleJob name (Some (exampleSpec [exampleContainer []] None)) refs;
     Periodic.Interval := "1h"; Periodic.Cron := "" |}.

(** A job with one container and the node selector [sel]. *)
Definition exampleSelectorJob (sel : option (gmap string string)) : JobBase.t :=
  exampleJob "unit-tests" (Some (exampleSpec [exampleContainer []] sel)) [].

(** A modifier of 63 bytes. *)
Definition longModifier : string :=
  "private-mirror-of-the-public-organization-for-release-branches1".

(** A job name of 70 bytes. *)
Definition longName : string :=
  "integration-tests-of-the-service-mesh-control-plane-on-release-branch1".

Definition exampleEnv (name value : string) : EnvVar.t :=
  {| EnvVar.Name := name; EnvVar.Value := value; EnvVar.ValueFrom := None |}.

(** A preset for the jobs labelled [preset-foo: true]; it sets [FOO]. *)
Definition examplePreset : Preset.t :=
  {| Preset.Labels := {[ "preset-foo" := "true" ]};
     Preset.Env := [exampleEnv "FOO" "bar"];
     Preset.Volumes := [{| Volume.Name := "creds"; Volume.VolumeSource := "secret" |}];
     Preset.VolumeMounts :=
       [{| VolumeMount.Name := "creds"; VolumeMount.ReadOnly := true;
           VolumeMount.MountPath := "/etc/creds" |}] |}.

(** A job whose only container has the variables [envs]. *)
Definition exampleEnvJob (envs : list EnvVar.t) : JobBase.t :=
  exampleJob "unit-tests" (Some (exampleSpec [exampleContainer envs] None)) [].

(** The job [exampleEnvJob] after the merge of [examplePreset]. *)
Definition exampleMergedJob (envs : list EnvVar.t) : JobBase.t :=
  exampleJob "unit-tests"
    (Some {| PodSpec.Volumes := Preset.Volumes examplePreset;
             PodSpec.Containers :=
               [{| Container.Name := "test";
                   Container.Image := "gcr.io/istio-testing/build-tools";
                   Container.Env := envs;
                   Container.VolumeMounts := Preset.VolumeMounts examplePreset |}];
             PodSpec.NodeSelector := None;
             PodSpec.ServiceAccountName := "" |}) [].

(** Job definitions are read with the mapping [org-a → org-b]. *)
Definition exampleOptions : options :=
  withOrgMap defaultOptions {[ "org-a" := "org-b" ]}.

(** ** The rest of main.go

    The functions of main.go that the sections above leave out: the
    validation of the flags, the loops of [Main] over the presubmit and
    postsubmit jobs of a file, and the merge of [writeOutFile]. *)

(** [util.ExitError] *)
Module ExitError.
Record t : Type := { Message : string; Code : Z }.
End ExitError.

(** [filepath.IsAbs] and [filepath.Abs] on a Unix system; [wd] is the
    result of [os.Getwd], [None] when it fails. *)
Module abspath.

Definition IsAbs (path : string) : bool := strings.HasPrefix path "/".

Definition Abs (wd : option string) (path : string) : option string :=
  if IsAbs path then Some (filepath.Clean path)
  else
    match wd with
    | Some dir => Some (filepath.Join [dir; path])
    | None => None
    end.

End abspath.

(** [config.Presubmit]; [Branches] and [SkipBranches] are the fields of
    the embedded [Brancher]. *)
Module Presubmit.
Record t : Type := {
  JobBase : JobBase.t;
  AlwaysRun : bool;
  Optional : bool;
  SkipBranches : list string;
  Branches : list string;
}.
Definition setJobBase (p : t) (j : JobBase.t) : t :=
  {| JobBase := j; AlwaysRun := AlwaysRun p; Optional := Optional p;
     SkipBranches := SkipBranches p; Branches := Branches p |}.
End Presubmit.

(** [config.Postsubmit] *)
Module Postsubmit.
Record t : Type := {
  JobBase : JobBase.t;
  SkipBranches : list string;
  Branches : list string;
}.
Definition setJobBase (p : t) (j : JobBase.t) : t :=
  {| JobBase := j; SkipBranches := SkipBranches p; Branches := Branches p |}.
End Postsubmit.

(** [config.JobConfig]; [None] is a nil map or a nil slice. *)
Module JobConfig.
Record t : Type := {
  Presets : list Preset.t;
  PresubmitsStatic : option (gmap string (list Presubmit.t));
  Postsubmits : option (gmap string (list Postsubmit.t));
  Periodics : option (list Periodic.t);
}.
End JobConfig.

Section rest.
Context `{RegexpPkg} `{UtilPkg}.

(** [filepath.Abs] as [validateFlags] uses it: the path, empty on an
    error, and whether there is an error. *)
Definition absOf (wd : option string) (path : string) : string * bool :=
  match abspath.Abs wd path with
  | Some a => (a, false)
  | None => ("", true)
  end.

(** The loop of [validateFlags] over the preset paths: the paths made
    absolute, or the error of the first one that is not a YAML file. *)
Fixpoint validatePresets (wd : option string) (paths : list string)
    : ExitError.t + list string :=
  match paths with
  | [] => inr []
  | p :: rest =>
      let '(a, err) := absOf wd p in
      if negb (HasExtension a yamlExt) || err
      then inl {| ExitError.Message := "-p, --preset option invalid: " +:+ a +:+ ".";
                  ExitError.Code := 1 |}
      else
        match validatePresets wd rest with
        | inl e => inl e
        | inr l => inr (a :: l)
        end
  end.

(** [validateFlags]: the error, or the options with the paths made
    absolute. *)
Definition validateFlags (wd : option string) (o : options) : ExitError.t + options :=
  if (size (orgMap o) =? 0)%nat
  then inl {| ExitError.Message := "-m, --mapping option is required.";
              ExitError.Code := 1 |}
  else
    let '(input', err) := absOf wd (input o) in
    if err
    then inl {| ExitError.Message := "-i, --input option invalid: " +:+ input' +:+ ".";
                ExitError.Code := 1 |}
    else
      let '(output', err) := absOf wd (output o) in
      if err
      then inl {| ExitError.Message := "-o, --output option invalid: " +:+ output' +:+ ".";
                  ExitError.Code := 1 |}
      else
        match validatePresets wd (presets o) with
        | inl e => inl e
        | inr presets' =>
            inr {| bucket := bucket o; cluster := cluster o; channel := channel o;
                   sshKeySecret := sshKeySecret o; modifier := modifier o;
                   input := input'; output := output'; branches := branches o;
                   presets := presets'; selector := selector o; labels := labels o;
                   env := env o; orgMap := orgMap o; jobWhitelist := jobWhitelist o;
                   jobBlacklist := jobBlacklist o; repoWhitelist := repoWhitelist o;
                   repoBlacklist := repoBlacklist o; jobType := jobType o;
                   clean := clean o; dryRun := dryRun o; extraRefs := extraRefs o;
                   resolve := resolve o; sshClone := sshClone o;
                   overrideSelector := overrideSelector o |}
        end.

(** The four updates [Main] makes to a job that passed the filters, in
    each of its three loops: the extra refs, the job base, the utility
    config, the presets. *)
Definition convertJobBase (o : options) (ps : list Preset.t) (base : JobBase.t)
    (orgrepo : string) : option JobBase.t :=
  let refs := UtilityConfig.ExtraRefs (JobBase.UtilityConfig base) in
  let base :=
    JobBase.setUtilityConfig base
      (UtilityConfig.setExtraRefs (JobBase.UtilityConfig base)
         (updateExtraRefs o refs)) in
  base ← updateJobBase o base orgrepo;
  let base :=
    JobBase.setUtilityConfig base (updateUtilityConfig o (JobBase.UtilityConfig base)) in
  resolvePresets o (default ∅ (JobBase.Labels base)) base ps.

(** The loops of [Main] over the presubmits and over the postsubmits of
    a file have the same text; they differ in the type of the jobs and
    in the job type handed to [validateJob]. *)
Section jobLoop.
Context {J : Type} (baseOf : J → JobBase.t) (setBase : J → JobBase.t → J)
  (branchesOf : J → list string) (jType : string).

(** The body of the inner loop, over the jobs of one repo; [converted]
    is the map built so far. *)
Definition jobBody (o : options) (ps : list Preset.t) (orgrepo : string)
    (converted : gmap string (list J)) (job : J) : option (gmap string (list J)) :=
  valid ← validateJob o (JobBase.Name (baseOf job)) (branchesOf job) jType;
  if negb valid then Some converted
  else
    base ← convertJobBase o ps (baseOf job) orgrepo;
    Some (<[orgrepo := default [] (converted !! orgrepo) ++ [setBase job base]]> converted).

(** The body of the outer loop, for one key of the map of the file. *)
Definition repoBody (o : options) (ps : list Preset.t)
    (converted : gmap string (list J)) (entry : string * list J)
    : option (gmap string (list J)) :=
  let orgrepo := convertOrgRepoStr o entry.1 in
  if String.eqb orgrepo "" then Some converted
  else foldlM (jobBody o ps orgrepo) converted entry.2.

(** The loop over the map of the file; [entries] lists the map in the
    order the range visits it, which Go does not specify. *)
Definition convertRepos (o : options) (ps : list Preset.t)
    (entries : list (string * list J)) : option (gmap string (list J)) :=
  foldlM (repoBody o ps) ∅ entries.

End jobLoop.

Definition convertPresubmits (o : options) (ps : list Preset.t)
    (entries : list (string * list Presubmit.t))
    : option (gmap string (list Presubmit.t)) :=
  convertRepos Presubmit.JobBase Presubmit.setJobBase Presubmit.Branches "presubmit"
    o ps entries.


End rest.



(** ** The vocabulary of the further properties *)

(** The variable [updateEnvs] makes of a configured key. *)
Definition envEntry (o : options) (envK : string) : EnvVar.t :=
  {| EnvVar.Name := envK; EnvVar.Value := default "" (env o !! envK);
     EnvVar.ValueFrom := None |}.

(** The presets of a list whose gate the labels pass. *)
Definition matchingPresets (jobLabels : gmap string string) (ps : list Preset.t)
    : list Preset.t :=
  filter (λ preset, presetMatches jobLabels preset = true) ps.

(** The entries of the presets of a list, one list after the other. *)
Definition joinPresets (ps : list Preset.t) : Preset.t :=
  {| Preset.Labels := ∅;
     Preset.Env := ps ≫= Preset.Env;
     Preset.Volumes := ps ≫= Preset.Volumes;
     Preset.VolumeMounts := ps ≫= Preset.VolumeMounts |}.

(** The secrets of a utility config; a nil slice has none. *)
Definition secretsOf (u : UtilityConfig.t) : list string :=
  default [] (UtilityConfig.DecorationConfig u ≫= DecorationConfig.SSHKeySecrets).

(** The storage configuration of a utility config. *)
Definition gcsOf (u : UtilityConfig.t) : option GCSConfiguration.t :=
  UtilityConfig.DecorationConfig u ≫= DecorationConfig.GCSConfiguration.

(** The labels of a job; a nil map has none. *)
Definition labelsOf (job : JobBase.t) : gmap string string :=
  default ∅ (JobBase.Labels job).

(** The jobs a map of converted jobs has for a key. *)
Definition jobsAt {A : Type} (m : gmap string (list A)) (k : string) : list A :=
  default [] (m !! k).

(** [updateJobBase] panics on this job: the suffix of the name is too
    long, or the job has no pod spec and a selector or a variable is
    configured. *)
Definition jobBasePanics `{UtilPkg} (o : options) (job : JobBase.t) : Prop :=
  (63 < String.length (nameSuffix o))%nat
  ∨ (JobBase.Spec job = None
     ∧ (selector o ≠ ∅ ∨ (env o ≠ ∅ ∧ SortedKeys (env o) ≠ []))).

(** The job [job'] is what the loop of [Main] makes of the job [job]
    of a repo with the converted key [orgrepo]: the job passes
    [validateJob] and its job base is converted. *)
Definition convertedFrom `{RegexpPkg} `{UtilPkg} {J : Type} (baseOf : J → JobBase.t)
    (setBase : J → JobBase.t → J) (branchesOf : J → list string) (jType : string)
    (o : options) (ps : list Preset.t) (orgrepo : string) (job job' : J) : Prop :=
  validateJob o (JobBase.Name (baseOf job)) (branchesOf job) jType = Some true
  ∧ ∃ base, convertJobBase o ps (baseOf job) orgrepo = Some base ∧ job' = setBase job base.

(** The loop of [Main] panics on the job [job] of a repo with the
    converted key [orgrepo]: in [validateJob], or in the conversion of a
    job that passes it. *)
Definition conversionPanics `{RegexpPkg} `{UtilPkg} {J : Type} (baseOf : J → JobBase.t)
    (branchesOf : J → list string) (jType : string)
    (o : options) (ps : list Preset.t) (orgrepo : string) (job : J) : Prop :=
  validateJob o (JobBase.Name (baseOf job)) (branchesOf job) jType = None
  ∨ (validateJob o (JobBase.Name (baseOf job)) (branchesOf job) jType = Some true
     ∧ convertJobBase o ps (baseOf job) orgrepo = None).

(** A periodic job passes the filters of the loop of [Main]. *)
Definition periodicEligible `{RegexpPkg} (o : options) (job : Periodic.t) : bool :=
  bool_decide (validateJob o (JobBase.Name (Periodic.JobBase job)) [] "periodic" = Some true)
  && hasAcceptedRef o job.

(** The options with one more flag given on the command line. *)
Definition withEnv (o : options) (v : gmap string string) : options :=
  {| bucket := bucket o; cluster := cluster o; channel := channel o;
     sshKeySecret := sshKeySecret o; modifier := modifier o; input := input o;
     output := output o; branches := branches o; presets := presets o;
     selector := selector o; labels := labels o; env := v; orgMap := orgMap o;
     jobWhitelist := jobWhitelist o; jobBlacklist := jobBlacklist o;
     repoWhitelist := repoWhitelist o; repoBlacklist := repoBlacklist o;
     jobType := jobType o; clean := clean o; dryRun := dryRun o;
     extraRefs := extraRefs o; resolve := resolve o; sshClone := sshClone o;
     overrideSelector := overrideSelector o |}.

Definition withLabels (o : options) (v : gmap string string) : options :=
  {| bucket := bucket o; cluster := cluster o; channel := channel o;
     sshKeySecret := sshKeySecret o; modifier := modifier o; input := input o;
     output := output o; branches := branches o; presets := presets o;
     selector := selector o; labels := v; env := env o; orgMap := orgMap o;
     jobWhitelist := jobWhitelist o; jobBlacklist := jobBlacklist o;
     repoWhitelist := repoWhitelist o; repoBlacklist := repoBlacklist o;
     jobType := jobType o; clean := clean o; dryRun := dryRun o;
     extraRefs := extraRefs o; resolve := resolve o; sshClone := sshClone o;
     overrideSelector := overrideSelector o |}.

Definition withResolve (o : options) (v : bool) : options :=
  {| bucket := bucket o; cluster := cluster o; channel := channel o;
     sshKeySecret := sshKeySecret o; modifier := modifier o; input := input o;
     output := output o; branches := branches o; presets := presets o;
     selector := selector o; labels := labels o; env := env o; orgMap := orgMap o;
     jobWhitelist := jobWhitelist o; jobBlacklist := jobBlacklist o;
     repoWhitelist := repoWhitelist o; repoBlacklist := repoBlacklist o;
     jobType := jobType o; clean := clean o; dryRun := dryRun o;
     extraRefs := extraRefs o; resolve := v; sshClone := sshClone o;
     overrideSelector := overrideSelector o |}.

Definition withCluster (o : options) (v : string) : options :=
  {| bucket := bucket o; cluster := v; channel := channel o;
     sshKeySecret := sshKeySecret o; modifier := modifier o; input := input o;
     output := output o; branches := branches o; presets := presets o;
     selector := selector o; labels := labels o; env := env o; orgMap := orgMap o;
     jobWhitelist := jobWhitelist o; jobBlacklist := jobBlacklist o;
     repoWhitelist := repoWhitelist o; repoBlacklist := repoBlacklist o;
     jobType := jobType o; clean := clean o; dryRun := dryRun o;
     extraRefs := extraRefs o; resolve := resolve o; sshClone := sshClone o;
     overrideSelector := overrideSelector o |}.

Definition withJobBlacklist (o : options) (v : gset string) : options :=
  {| bucket := bucket o; cluster := cluster o; channel := channel o;
     sshKeySecret := sshKeySecret o; modifier := modifier o; input := input o;
     output := output o; branches := branches o; presets := presets o;
     selector := selector o; labels := labels o; env := env o; orgMap := orgMap o;
     jobWhitelist := jobWhitelist o; jobBlacklist := v;
     repoWhitelist := repoWhitelist o; repoBlacklist := repoBlacklist o;
     jobType := jobType o; clean := clean o; dryRun := dryRun o;
     extraRefs := extraRefs o; resolve := resolve o; sshClone := sshClone o;
     overrideSelector := overrideSelector o |}.

Definition examplePresubmit (name : string) (bs : list string) : Presubmit.t :=
  {| Presubmit.JobBase :=
       exampleJob name (Some (exampleSpec [exampleContainer []] None)) [];
     Presubmit.AlwaysRun := true; Presubmit.Optional := false;
     Presubmit.SkipBranches := []; Presubmit.Branches := bs |}.

(** A second preset with the gate of [examplePreset]; it sets [FOO]
    to another value. *)
Definition examplePreset2 : Preset.t :=
  {| Preset.Labels := {[ "preset-foo" := "true" ]};
     Preset.Env := [exampleEnv "FOO" "baz"];
     Preset.Volumes := []; Preset.VolumeMounts := [] |}.

(** A presubmit for the branch [main], with the label of the presets. *)
Definition exampleLabeledPresubmit (name : string) (spec : PodSpec.t) : Presubmit.t :=
  {| Presubmit.JobBase :=
       JobBase.setLabels (exampleJob name (Some spec) [])
         (Some {[ "preset-foo" := "true" ]});
     Presubmit.AlwaysRun := true; Presubmit.Optional := false;
     Presubmit.SkipBranches := []; Presubmit.Branches := ["main"] |}.

(** The options of the end-to-end example: the mapping [org-a → org-b],
    the branch [main], presets resolved. *)
Definition exampleEndToEnd : options :=
  withResolve (withBranches exampleOptions ["main"]) true.

(** The pod spec of [exampleMergedJob]. *)
Definition exampleMergedSpec (envs : list EnvVar.t) : PodSpec.t :=
  {| PodSpec.Volumes := Preset.Volumes examplePreset;
     PodSpec.Containers :=
       [{| Container.Name := "test";
           Container.Image := "gcr.io/istio-testing/build-tools";
           Container.Env := envs;
           Container.VolumeMounts := Preset.VolumeMounts examplePreset |}];
     PodSpec.NodeSelector := None;
     PodSpec.ServiceAccountName := "" |}.

(** * Properties *)

(** ** The filters *)

Section filters.
Context `{RegexpPkg} `{UtilPkg}.

Lemma matchPatterns_spec (branch : string) (patterns : list string) :
  Forall compiles patterns →
  ∃ b, matchPatterns branch patterns = Some b ∧ (b = true ↔ matchedBy branch patterns).
Proof.
  induction 1 as [|pattern rest [re Hre] _ IH]; simpl.
  - exists false. split; [done|]. split; [done|].
    intros (p & r & Hin & _). by apply elem_of_nil in Hin.
  - rewrite Hre. simpl. destruct (MatchString re branch) eqn:Hm.
    + exists true. split; [done|]. split; [|done]. intros _.
      exists pattern, re. split; [left|done].
    + destruct IH as (b & Hb & Hiff). exists b. split; [done|].
      rewrite Hiff. split.
      * intros (p & r & Hin & Hc & Hr). exists p, r. split; [by right|done].
      * intros (p & r & Hin & Hc & Hr).
        apply elem_of_cons in Hin as [->|Hin]; [congruence|].
        by exists p, r.
Qed.

Lemma matchBranches_spec (bs patterns : list string) :
  Forall compiles patterns →
  ∃ b, matchBranches bs patterns = Some b
       ∧ (b = true ↔ ∃ branch, branch ∈ bs ∧ matchedBy branch patterns).
Proof.
  intros Hc. induction bs as [|branch rest IH]; simpl.
  - exists false. split; [done|]. split; [done|].
    intros (b & Hin & _). by apply elem_of_nil in Hin.
  - destruct (matchPatterns_spec branch patterns Hc) as (found & -> & Hfound). simpl.
    destruct found.
    + exists true. split; [done|]. split; [|done]. intros _.
      exists branch. split; [left|]. by apply Hfound.
    + destruct IH as (b & Hb & Hiff). exists b. split; [done|].
      rewrite Hiff. split.
      * intros (br & Hin & Hm). exists br. split; [by right|done].
      * intros (br & Hin & Hm).
        apply elem_of_cons in Hin as [->|Hin]; [|by exists br].
        apply Hfound in Hm. discriminate.
Qed.

(** Without a pattern nothing is compiled and no branch matches. *)
Lemma matchBranches_no_pattern (bs : list string) : matchBranches bs [] = Some false.
Proof. induction bs as [|b rest IH]; simpl; done. Qed.

Lemma isMatchBranch_no_pattern (o : options) :
  isMatchBranch o [] = Some (bool_decide (branches o = [])).
Proof.
  unfold isMatchBranch. destruct (branches o) as [|b rest]; [done|].
  simpl. by rewrite matchBranches_no_pattern.
Qed.

Lemma validateOrgRepo_true (o : options) (org repo : string) :
  validateOrgRepo o org repo = true ↔
  (is_Some (orgMap o !! org) ∧ (repo ∉ repoBlacklist o)
   ∧ (repoWhitelist o = ∅ ∨ repo ∈ repoWhitelist o)).
Proof.
  unfold validateOrgRepo.
  assert ((0 <? size (repoWhitelist o))%nat = negb (bool_decide (repoWhitelist o = ∅))) as ->.
  { case_bool_decide as Hw.
    - rewrite Hw. by rewrite size_empty.
    - simpl. apply Nat.ltb_lt.
      assert (size (repoWhitelist o) ≠ 0); [|lia].
      intros Hs. apply size_empty_iff in Hs. apply Hw. by apply leibniz_equiv. }
  repeat case_bool_decide; simpl; split; try done; try tauto.
Qed.

Lemma allRefsFrom_forallb (array : list Refs.t) (f : Refs.t → bool) (idx : nat) :
  allRefsFrom idx array (λ val _, f val) = forallb f array.
Proof.
  revert idx. induction array as [|item rest IH]; intros idx; simpl; [done|].
  destruct (f item); simpl; [apply IH|done].
Qed.

Lemma allRefs_rejected (o : options) (refs : list Refs.t) :
  allRefs refs (λ val idx, negb (validateOrgRepo o (Refs.Org val) (Refs.Repo val))) = true
  ↔ (Forall (λ ref, ¬ accepted o ref) refs).
Proof.
  unfold allRefs. rewrite (allRefsFrom_forallb _ (λ val, negb (validateOrgRepo o _ _))).
  rewrite forallb_forall, Forall_forall. unfold accepted.
  split; intros Hall ref Hin.
  - apply list_elem_of_In, Hall in Hin. rewrite <- validateOrgRepo_true.
    by destruct (validateOrgRepo o _ _).
  - apply list_elem_of_In, Hall in Hin. rewrite <- validateOrgRepo_true in Hin.
    by destruct (validateOrgRepo o _ _).
Qed.

Lemma validateJob_no_pattern (o : options) (name jType : string) :
  ∃ b, validateJob o name [] jType = Some b ∧ (branches o ≠ [] → b = false).
Proof.
  unfold validateJob. rewrite isMatchBranch_no_pattern.
  case_bool_decide; [by exists false|].
  destruct (_ && _); [by exists false|]. simpl.
  case_bool_decide as Hb; simpl.
  - destruct (negb _); eexists; (split; [reflexivity|]); intros Hne; by destruct Hne.
  - by exists false.
Qed.

Lemma allRefs_false (o : options) (refs : list Refs.t) :
  allRefs refs (λ val idx, negb (validateOrgRepo o (Refs.Org val) (Refs.Repo val))) = false
  ↔ Exists (accepted o) refs.
Proof.
  unfold allRefs. rewrite (allRefsFrom_forallb _ (λ val, negb (validateOrgRepo o _ _))).
  induction refs as [|ref rest IH]; simpl.
  - split; [done|]. intros Hex. inversion Hex.
  - rewrite Exists_cons. unfold accepted at 1. rewrite <- validateOrgRepo_true, <- IH.
    destruct (validateOrgRepo o _ _); simpl; split; auto.
    intros [|]; done.
Qed.

Lemma hasAcceptedRef_false (o : options) (job : Periodic.t) :
  hasAcceptedRef o job = false ↔ Forall (λ ref, ¬ accepted o ref) (extraRefsOf job).
Proof.
  unfold hasAcceptedRef. induction (extraRefsOf job) as [|ref rest IH]; simpl.
  - split; [constructor|done].
  - rewrite Forall_cons. unfold accepted at 1. rewrite <- validateOrgRepo_true, <- IH.
    destruct (validateOrgRepo o _ _); simpl.
    + split; [done|]. intros [Hn _]. by destruct Hn.
    + split; [done|]. by intros [_ Hr].
Qed.

(** A periodic job with no extra ref, or with none accepted, leaves the
    list as it is. *)
Lemma periodicBody_skip (o : options) (ps : list Preset.t)
    (periodic : list Periodic.t) (job : Periodic.t) :
  extraRefsOf job = [] ∨ Forall (λ ref, ¬ accepted o ref) (extraRefsOf job) →
  periodicBody o ps periodic job = Some periodic.
Proof.
  intros Hrefs. unfold periodicBody. fold (extraRefsOf job).
  destruct (validateJob_no_pattern o (JobBase.Name (Periodic.JobBase job)) "periodic")
    as (valid & -> & _). simpl.
  destruct valid; simpl; [|done].
  destruct Hrefs as [->|Hall]; [done|].
  destruct (length (extraRefsOf job) =? 0)%nat; [done|].
  apply allRefs_rejected in Hall. by rewrite Hall.
Qed.

(** A job is appended only past the three tests on its refs. *)
Lemma periodicBody_appended (o : options) (ps : list Preset.t)
    (periodic out : list Periodic.t) (job : Periodic.t) :
  periodicBody o ps periodic job = Some out →
  out ≠ periodic →
  validateJob o (JobBase.Name (Periodic.JobBase job)) [] "periodic" = Some true
  ∧ extraRefsOf job ≠ [] ∧ Exists (accepted o) (extraRefsOf job)
  ∧ ∃ job', out = periodic ++ [job'].
Proof.
  unfold periodicBody. fold (extraRefsOf job).
  destruct (validateJob_no_pattern o (JobBase.Name (Periodic.JobBase job)) "periodic")
    as (valid & -> & _). simpl.
  destruct valid; simpl; [|congruence].
  destruct (extraRefsOf job) as [|ref rest] eqn:Hrefs; simpl; [congruence|].
  destruct (allRefs _ _) eqn:Hall; [congruence|].
  apply allRefs_false in Hall.
  intros Hout _. split; [done|]. split; [done|]. split; [done|].
  destruct (updateJobBase _ _ _) as [base|]; simpl in Hout; [|done].
  destruct (resolvePresets _ _ _ _) as [base'|]; simpl in Hout; [|done].
  eexists. by inversion Hout.
Qed.

Lemma foldlM_periodicBody_filter (o : options) (ps : list Preset.t)
    (jobs : list Periodic.t) (periodic : list Periodic.t) :
  foldlM (periodicBody o ps) periodic jobs
  = foldlM (periodicBody o ps) periodic
           (filter (λ job, hasAcceptedRef o job = true) jobs).
Proof.
  revert periodic. induction jobs as [|job rest IH]; intros periodic; [done|].
  rewrite filter_cons. destruct (decide (hasAcceptedRef o job = true)) as [Hacc|Hacc].
  - simpl. destruct (periodicBody o ps periodic job); simpl; [apply IH|done].
  - simpl. rewrite periodicBody_skip; [apply IH|].
    right. apply hasAcceptedRef_false. by destruct (hasAcceptedRef o job).
Qed.

End filters.

(** ** The regular expressions of the fragment *)

Lemma search_unanchored (a : regexp.syntax) (t : list ascii) (prev : option ascii) :
  regexp.search a (prev, t) (length t) = true ↔
  ∃ pre post, t = pre ++ post ∧ regexp.run a (regexp.positionAfter prev pre post) ≠ [].
Proof.
  revert prev. induction t as [|c t IH]; intros prev; simpl.
  - split.
    + intros Hrun. exists [], []. split; [done|]. unfold regexp.positionAfter. simpl.
      by destruct (regexp.run a (prev, [])).
    + intros (pre & post & Heq & Hrun).
      symmetry in Heq. apply app_eq_nil in Heq as [-> ->].
      unfold regexp.positionAfter in Hrun. simpl in Hrun.
      by destruct (regexp.run a (prev, [])).
  - destruct (regexp.run a (prev, c :: t)) as [|q qs] eqn:Hhere.
    + rewrite IH. split.
      * intros (pre & post & -> & Hrun). exists (c :: pre), post. split; [done|].
        unfold regexp.positionAfter in *. rewrite last_cons.
        by destruct (last pre).
      * intros (pre & post & Heq & Hrun). destruct pre as [|c' pre].
        { simpl in Heq. subst post. unfold regexp.positionAfter in Hrun.
          simpl in Hrun. by rewrite Hhere in Hrun. }
        simpl in Heq. injection Heq as <- ->. exists pre, post. split; [done|].
        unfold regexp.positionAfter in *. rewrite last_cons in Hrun.
        by destruct (last pre).
    + split; [|done]. intros _. exists [], (c :: t). split; [done|].
      unfold regexp.positionAfter. simpl. by rewrite Hhere.
Qed.

(** [MatchString] of the fragment reports a match of the expression
    somewhere in the string: between some [pre] and the rest. *)
Lemma matchString_unanchored (a : regexp.syntax) (s : string) :
  regexp.matchString a s = true ↔
  ∃ pre post, list_ascii_of_string s = pre ++ post
              ∧ regexp.run a (regexp.positionAfter None pre post) ≠ [].
Proof. apply search_unanchored. Qed.

(** A match of the whole string is a match somewhere in it. *)
Lemma fullMatchString_matchString (a : regexp.syntax) (s : string) :
  regexp.fullMatchString a s = true → regexp.matchString a s = true.
Proof.
  unfold regexp.fullMatchString. intros Hfull. apply matchString_unanchored.
  exists [], (list_ascii_of_string s). split; [done|].
  unfold regexp.positionAfter. simpl.
  by destruct (regexp.run a (None, list_ascii_of_string s)).
Qed.

(** ** The claims on the filters *)

(** C1, amended. For every configured branch list and every list of
    branch patterns that compile: [isMatchBranch] returns true when the
    configured list is empty, and otherwise it returns true if and only
    if some configured branch is matched by some pattern, [MatchString]
    being the match relation (a match somewhere in the branch, see
    [matchString_unanchored]). *)
Theorem isMatchBranch_cross_product `{RegexpPkg} (o : options) (patterns : list string) :
  Forall compiles patterns →
  ∃ b, isMatchBranch o patterns = Some b
       ∧ (branches o = [] → b = true)
       ∧ (branches o ≠ [] →
          (b = true ↔ ∃ branch, branch ∈ branches o ∧ matchedBy branch patterns)).
Proof.
  intros Hc. unfold isMatchBranch. destruct (branches o) as [|branch rest] eqn:Hb.
  - exists true. by repeat split.
  - simpl (length _ =? 0)%nat. cbv iota.
    destruct (matchBranches_spec (branch :: rest) patterns Hc) as (b & Hmb & Hiff).
    exists b. split; [done|]. split; [done|]. by intros _.
Qed.

Lemma isMatchBranch_cross_product_witness :
  Forall compiles ["^release-1\.1$"; "master"]
  ∧ ∃ b, isMatchBranch (withBranches defaultOptions ["master"; "release-1.10"])
                       ["^release-1\.1$"; "master"] = Some b
         ∧ (branches (withBranches defaultOptions ["master"; "release-1.10"]) = [] →
            b = true)
         ∧ (branches (withBranches defaultOptions ["master"; "release-1.10"]) ≠ [] →
            (b = true ↔ ∃ branch,
                branch ∈ branches (withBranches defaultOptions ["master"; "release-1.10"])
                ∧ matchedBy branch ["^release-1\.1$"; "master"])).
Proof.
  assert (Forall compiles ["^release-1\.1$"; "master"]) as Hc.
  { repeat constructor; vm_compute; eauto. }
  split; [exact Hc|].
  exact (isMatchBranch_cross_product
           (withBranches defaultOptions ["master"; "release-1.10"]) _ Hc).
Defined.

(** C1 as stated fails: the configured branch [release-1.10] passes the
    filter of a job for [release-1.1], a pattern that does not match the
    whole branch; and a pattern that does not compile makes the filter
    panic instead of returning. *)
Lemma isMatchBranch_not_full_match :
  isMatchBranch (withBranches defaultOptions ["release-1.10"]) ["release-1.1"] = Some true
  ∧ (∀ re, MustCompile "release-1.1" = Some re →
           regexp.fullMatchString re "release-1.10" = false)
  ∧ isMatchBranch (withBranches defaultOptions ["master"]) ["("; "master"] = None.
Proof.
  split; [by vm_compute|]. split; [|by vm_compute].
  intros re Hre. vm_compute in Hre. injection Hre as <-. by vm_compute.
Qed.

(** C9. With a non-empty configured branch list every periodic job is
    excluded: [validateJob] is called with no pattern, no branch matches
    an empty pattern list, and the loop of [Main] appends nothing. *)
Theorem periodics_excluded_by_branches `{RegexpPkg} `{UtilPkg} (o : options)
    (ps : list Preset.t) (jobs : list Periodic.t) :
  branches o ≠ [] →
  isMatchBranch o [] = Some false
  ∧ (∀ name jType, validateJob o name [] jType = Some false)
  ∧ (∀ periodic job, periodicBody o ps periodic job = Some periodic)
  ∧ convertPeriodics o ps jobs = Some [].
Proof.
  intros Hne.
  assert (∀ name jType, validateJob o name [] jType = Some false) as Hv.
  { intros name jType.
    destruct (validateJob_no_pattern o name jType) as (b & -> & Hb). by rewrite Hb. }
  assert (∀ periodic job, periodicBody o ps periodic job = Some periodic) as Hbody.
  { intros periodic job. unfold periodicBody. by rewrite Hv. }
  split; [|split; [done|split; [done|]]].
  - rewrite isMatchBranch_no_pattern. by case_bool_decide.
  - unfold convertPeriodics. generalize (@nil Periodic.t).
    induction jobs as [|job rest IH]; intros acc; simpl; [done|].
    rewrite Hbody. simpl. apply IH.
Qed.

Lemma periodics_excluded_by_branches_witness :
  branches (withBranches exampleOptions ["master"]) ≠ []
  ∧ convertPeriodics (withBranches exampleOptions ["master"]) []
      [examplePeriodic "nightly" [exampleRef "org-a" "repo-x"]] = Some [].
Proof.
  assert (branches (withBranches exampleOptions ["master"]) ≠ []) as Hne by done.
  split; [exact Hne|].
  apply (periodics_excluded_by_branches (withBranches exampleOptions ["master"]) [] _ Hne).
Defined.

(** C10. A periodic job is appended only if it has an extra ref and one
    of its extra refs is accepted (org in the mapping, repo not denied,
    repo allowed when there is an allow set); a job with no extra ref,
    or with none accepted, is skipped whatever the other filters say. *)
Theorem periodic_needs_accepted_ref `{RegexpPkg} `{UtilPkg} (o : options)
    (ps : list Preset.t) (periodic : list Periodic.t) (job : Periodic.t) :
  (∀ out, periodicBody o ps periodic job = Some out → out ≠ periodic →
     extraRefsOf job ≠ [] ∧ Exists (accepted o) (extraRefsOf job))
  ∧ (extraRefsOf job = [] ∨ Forall (λ ref, ¬ accepted o ref) (extraRefsOf job) →
     periodicBody o ps periodic job = Some periodic)
  ∧ (∀ jobs, convertPeriodics o ps jobs
             = convertPeriodics o ps (filter (λ j, hasAcceptedRef o j = true) jobs)).
Proof.
  split; [|split].
  - intros out Hout Hne.
    destruct (periodicBody_appended o ps periodic out job Hout Hne) as (_ & ? & ? & _).
    done.
  - apply periodicBody_skip.
  - intros jobs. apply foldlM_periodicBody_filter.
Qed.

Lemma periodic_needs_accepted_ref_witness :
  (extraRefsOf (examplePeriodic "nightly" [exampleRef "org-c" "repo-x"]) = []
   ∨ Forall (λ ref, ¬ accepted exampleOptions ref)
            (extraRefsOf (examplePeriodic "nightly" [exampleRef "org-c" "repo-x"])))
  ∧ periodicBody exampleOptions [] []
      (examplePeriodic "nightly" [exampleRef "org-c" "repo-x"]) = Some [].
Proof.
  assert (Forall (λ ref, ¬ accepted exampleOptions ref)
            (extraRefsOf (examplePeriodic "nightly" [exampleRef "org-c" "repo-x"])))
    as Hall.
  { repeat constructor. intros [[v Hv] _]. by vm_compute in Hv. }
  split; [by right|].
  exact (proj1 (proj2 (periodic_needs_accepted_ref exampleOptions [] []
                         (examplePeriodic "nightly" [exampleRef "org-c" "repo-x"])))
               (or_intror Hall)).
Defined.

(** A periodic job with an accepted extra ref is appended. *)
Example periodic_with_accepted_ref :
  ∃ job', periodicBody exampleOptions [] []
            (examplePeriodic "nightly" [exampleRef "org-a" "repo-x"]) = Some [job']
          ∧ JobBase.Name (Periodic.JobBase job') = "nightly_private"
          ∧ Refs.Org <$> extraRefsOf job' = ["org-b"].
Proof. eexists. split; [by vm_compute|]. by vm_compute. Qed.

(** A periodic job whose only extra ref is of a denied repo is skipped. *)
Example periodic_with_denied_repo :
  periodicBody (withRepoBlacklist exampleOptions {[ "repo-x" ]}) [] []
    (examplePeriodic "nightly" [exampleRef "org-a" "repo-x"]) = Some [].
Proof. by vm_compute. Qed.

(** ** The extra refs *)

Section extraRefs.
Context (o : options).

Lemma updateExtraRef_middle (pre post : list Refs.t) (ref : Refs.t) :
  updateExtraRef o (pre ++ ref :: post) (length pre) = pre ++ remapRef o ref :: post.
Proof.
  unfold updateExtraRef, remapRef. rewrite list_lookup_middle by done.
  destruct (extraRefs o || validateOrgRepo o (Refs.Org ref) (Refs.Repo ref)); [|done].
  destruct (sshClone o).
  - rewrite !alter_app_r_alt by lia. by rewrite Nat.sub_diag.
  - rewrite alter_app_r_alt by lia. by rewrite Nat.sub_diag.
Qed.

Lemma updateExtraRefs_from (pre refs : list Refs.t) :
  fold_left (updateExtraRef o) (seq (length pre) (length refs)) (pre ++ refs)
  = pre ++ map (remapRef o) refs.
Proof.
  revert pre. induction refs as [|ref rest IH]; intros pre; simpl; [done|].
  rewrite updateExtraRef_middle.
  replace (pre ++ remapRef o ref :: rest) with ((pre ++ [remapRef o ref]) ++ rest)
    by (by rewrite <- app_assoc).
  replace (S (length pre)) with (length (pre ++ [remapRef o ref]))
    by (rewrite length_app; simpl; lia).
  rewrite IH. by rewrite <- app_assoc.
Qed.

(** The loop over the indices is a map over the refs. *)
Lemma updateExtraRefs_map (refs : list Refs.t) :
  updateExtraRefs o refs = map (remapRef o) refs.
Proof. apply (updateExtraRefs_from [] refs). Qed.

End extraRefs.

(** C5. [updateExtraRefs] keeps every ref at its place.  A ref that
    qualifies (the force flag is set or its org and repo pass
    [validateOrgRepo]) gets the org the mapping gives for its org and,
    in SSH-clone mode, the clone URI [git@github.com:<org>/<repo>.git]
    of the mapped org; its other fields, outside SSH-clone mode its
    clone URI too, are kept.  A ref that does not qualify is untouched. *)
Theorem updateExtraRefs_spec (o : options) (refs : list Refs.t) :
  length (updateExtraRefs o refs) = length refs
  ∧ ∀ i ref, refs !! i = Some ref →
      ∃ ref', updateExtraRefs o refs !! i = Some ref'
        ∧ (extraRefs o = true ∨ validateOrgRepo o (Refs.Org ref) (Refs.Repo ref) = true →
           Refs.Org ref' = orgMapAt o (Refs.Org ref)
           ∧ Refs.CloneURI ref'
             = (if sshClone o
                then "git@" +:+ gitHost +:+ ":" +:+ orgMapAt o (Refs.Org ref) +:+ "/"
                     +:+ Refs.Repo ref +:+ ".git"
                else Refs.CloneURI ref)
           ∧ Refs.Repo ref' = Refs.Repo ref ∧ Refs.BaseRef ref' = Refs.BaseRef ref
           ∧ Refs.BaseSHA ref' = Refs.BaseSHA ref
           ∧ Refs.PathAlias ref' = Refs.PathAlias ref
           ∧ Refs.WorkDir ref' = Refs.WorkDir ref)
        ∧ (extraRefs o = false ∧ validateOrgRepo o (Refs.Org ref) (Refs.Repo ref) = false →
           ref' = ref).
Proof.
  rewrite updateExtraRefs_map. split; [apply length_map|].
  intros i ref Hi. exists (remapRef o ref). split.
  { by rewrite list_lookup_fmap, Hi. }
  unfold remapRef. split.
  - intros Hq. apply orb_true_iff in Hq. rewrite Hq.
    destruct (sshClone o); by repeat split.
  - intros [-> ->]. done.
Qed.

Lemma updateExtraRefs_spec_witness :
  exampleRefs !! 0 = Some (exampleRef "org-a" "repo-x")
  ∧ ∃ ref', updateExtraRefs (withSshClone exampleOptions true) exampleRefs !! 0 = Some ref'
      ∧ Refs.Org ref' = "org-b"
      ∧ Refs.CloneURI ref' = "git@github.com:org-b/repo-x.git"
      ∧ Refs.Repo ref' = "repo-x".
Proof.
  split; [done|].
  destruct (proj2 (updateExtraRefs_spec (withSshClone exampleOptions true) exampleRefs)
                  0 _ eq_refl) as (ref' & Href & Hq & _).
  exists ref'. split; [exact Href|].
  destruct Hq as (Horg & Huri & Hrepo & _); [by right|].
  split; [exact Horg|]. split; [exact Huri|exact Hrepo].
Defined.

(** The two refs of the example: the first is remapped, the second,
    of an unmapped org, stays as it is. *)
Example updateExtraRefs_example :
  updateExtraRefs (withSshClone exampleOptions true) exampleRefs
  = [Refs.setCloneURI (exampleRef "org-b" "repo-x") "git@github.com:org-b/repo-x.git";
     exampleRef "org-c" "repo-y"].
Proof. by vm_compute. Qed.

(** With the force flag an unmapped org is replaced by the zero value
    of the map lookup, the empty string. *)
Example updateExtraRefs_forced_unmapped :
  updateExtraRefs (withExtraRefs exampleOptions true) [exampleRef "org-c" "repo-y"]
  = [exampleRef "" "repo-y"].
Proof. by vm_compute. Qed.

(** ** The field updaters *)

Lemma overlay_union (src dst : gmap string string) : overlay src dst = src ∪ dst.
Proof.
  unfold overlay.
  apply (map_fold_weak_ind (λ r m, r = m ∪ dst)).
  - by rewrite (left_id_L ∅ (∪)).
  - intros k v m r Hk ->. by rewrite insert_union_l.
Qed.

Lemma length_append (s1 s2 : string) :
  String.length (s1 +:+ s2) = String.length s1 + String.length s2.
Proof. induction s1 as [|c s1 IH]; simpl; [done|]. by rewrite IH. Qed.

Lemma append_empty_r (s : string) : s +:+ "" = s.
Proof.
  induction s as [|c s IH]; [done|].
  change (String c (s +:+ "") = String c s). by rewrite IH.
Qed.

(** [s[:n]] for [n] within the string is a prefix of [n] bytes. *)
Lemma substring_prefix (n : nat) (s : string) :
  (n ≤ String.length s)%nat →
  String.length (String.substring 0 n s) = n
  ∧ ∃ dropped, s = String.substring 0 n s +:+ dropped.
Proof.
  revert s. induction n as [|n IH]; intros s Hn.
  - destruct s; simpl; split; eauto.
  - destruct s as [|c s]; simpl in *; [lia|].
    destruct (IH s) as (Hlen & dropped & Hs); [lia|].
    split; [by rewrite Hlen|]. exists dropped.
    change (String c s = String c (String.substring 0 n s +:+ dropped)). by f_equal.
Qed.

Lemma nameSuffix_private (o : options) :
  modifier o = "private" → nameSuffix o = "_private".
Proof. unfold nameSuffix. by intros ->. Qed.

(** C3, amended. For every job name and every modifier whose suffix
    (separator and modifier) has at most 63 bytes, [updateJobName] keeps
    a prefix of the name, drops the rest and appends the suffix, and the
    new name has at most 63 bytes; a name of 70 bytes with the modifier
    [private] keeps 55 bytes and the new name has exactly 63. *)
Theorem updateJobName_bounded (o : options) (job : JobBase.t) :
  (String.length (nameSuffix o) ≤ 63)%nat →
  ∃ kept dropped,
    JobBase.Name job = kept +:+ dropped
    ∧ String.length kept
      = String.length (JobBase.Name job) `min` (63 - String.length (nameSuffix o))
    ∧ updateJobName o job = Some (JobBase.setName job (kept +:+ nameSuffix o))
    ∧ (String.length (kept +:+ nameSuffix o) ≤ 63)%nat
    ∧ (modifier o = "private" → String.length (JobBase.Name job) = 70 →
       String.length kept = 55 ∧ String.length (kept +:+ "_private") = 63).
Proof.
  intros Hsuffix. unfold updateJobName. fold (nameSuffix o). unfold maxLabelLen.
  assert (∀ kept, String.length kept
            = String.length (JobBase.Name job) `min` (63 - String.length (nameSuffix o)) →
          (String.length (kept +:+ nameSuffix o) ≤ 63)%nat
          ∧ (modifier o = "private" → String.length (JobBase.Name job) = 70 →
             String.length kept = 55 ∧ String.length (kept +:+ "_private") = 63))
    as Hlen.
  { intros kept Hkept. rewrite length_append. split; [lia|].
    intros Hm H70. rewrite length_append. rewrite (nameSuffix_private o Hm) in Hkept.
    simpl in *. lia. }
  destruct (Z.ltb_spec (63 - Z.of_nat (String.length (nameSuffix o)))
                       (Z.of_nat (String.length (JobBase.Name job)))) as [Hlt|Hge].
  - destruct (Z.ltb_spec (63 - Z.of_nat (String.length (nameSuffix o))) 0); [lia|].
    replace (Z.to_nat (63 - Z.of_nat (String.length (nameSuffix o))))
      with (63 - String.length (nameSuffix o)) by lia.
    destruct (substring_prefix (63 - String.length (nameSuffix o)) (JobBase.Name job))
      as (Hk & dropped & Hname); [lia|].
    eexists _, dropped. split; [exact Hname|].
    assert (String.length (String.substring 0 (63 - String.length (nameSuffix o))
                             (JobBase.Name job))
            = String.length (JobBase.Name job) `min` (63 - String.length (nameSuffix o)))
      as Hkept by lia.
    split; [exact Hkept|]. split; [done|]. by apply Hlen.
  - exists (JobBase.Name job), "".
    split; [by rewrite append_empty_r|].
    assert (String.length (JobBase.Name job)
            = String.length (JobBase.Name job) `min` (63 - String.length (nameSuffix o)))
      as Hkept by lia.
    split; [exact Hkept|]. split; [done|]. by apply Hlen.
Qed.

Lemma updateJobName_bounded_witness :
  (String.length (nameSuffix defaultOptions) ≤ 63)%nat
  ∧ ∃ kept dropped,
      longName = kept +:+ dropped
      ∧ updateJobName defaultOptions (exampleJob longName None [])
        = Some (JobBase.setName (exampleJob longName None []) (kept +:+ "_private"))
      ∧ String.length kept = 55
      ∧ String.length (kept +:+ "_private") = 63.
Proof.
  assert (String.length (nameSuffix defaultOptions) ≤ 63)%nat as Hs by (vm_compute; lia).
  split; [exact Hs|].
  destruct (updateJobName_bounded defaultOptions (exampleJob longName None []) Hs)
    as (kept & dropped & Hname & _ & Hupd & _ & Hprivate).
  destruct (Hprivate eq_refl eq_refl) as [H55 H63].
  exists kept, dropped. split; [exact Hname|]. split; [exact Hupd|].
  split; [exact H55|exact H63].
Defined.

(** The name of 70 bytes, truncated to 55 and suffixed. *)
Example updateJobName_long_name :
  JobBase.Name <$> updateJobName defaultOptions (exampleJob longName None [])
  = Some "integration-tests-of-the-service-mesh-control-plane-on-_private".
Proof. by vm_compute. Qed.

(** C3 as stated fails for a modifier of 63 bytes: the suffix has 64,
    the bound of the slice is negative and [updateJobName] panics
    instead of producing a name. *)
Lemma updateJobName_long_modifier :
  String.length longModifier = 63
  ∧ ¬ ∃ job', updateJobName (withModifier defaultOptions longModifier)
                (exampleJob "unit-tests" None []) = Some job'
              ∧ (String.length (JobBase.Name job') ≤ 63)%nat.
Proof.
  split; [done|]. intros (job' & Hjob & _). by vm_compute in Hjob.
Qed.

(** C7, amended. For a job with a pod spec: when the configured
    selector is empty the job is left as it is; otherwise, if override
    mode is on or the job had no selector, the selector of the job
    becomes the configured entries alone, and else the configured
    entries are laid over the existing ones, a configured key replacing
    the existing value and the other keys staying. *)
Theorem updateNodeSelector_overlay (o : options) (job : JobBase.t) (spec : PodSpec.t) :
  JobBase.Spec job = Some spec →
  (selector o = ∅ → updateNodeSelector o job = Some job)
  ∧ (selector o ≠ ∅ →
     ∃ sel,
       updateNodeSelector o job
       = Some (JobBase.setSpec job (Some (PodSpec.setNodeSelector spec (Some sel))))
       ∧ (overrideSelector o = true ∨ PodSpec.NodeSelector spec = None →
          sel = selector o)
       ∧ (∀ existing,
            overrideSelector o = false → PodSpec.NodeSelector spec = Some existing →
            ∀ k, sel !! k = match selector o !! k with
                            | Some v => Some v
                            | None => existing !! k
                            end)).
Proof.
  intros Hspec. unfold updateNodeSelector. split.
  - intros ->. done.
  - intros Hne. apply map_size_non_empty_iff in Hne.
    destruct (Nat.eqb_spec (size (selector o)) 0) as [|_]; [done|].
    rewrite Hspec. simpl. eexists. split; [reflexivity|].
    rewrite overlay_union. split.
    + intros [->| ->]; simpl; [|rewrite orb_true_r]; by rewrite (right_id_L ∅ (∪)).
    + intros existing -> -> k. simpl. rewrite lookup_union.
      destruct (selector o !! k), (existing !! k); done.
Qed.

Lemma updateNodeSelector_overlay_witness :
  JobBase.Spec (exampleSelectorJob (Some {[ "disk" := "ssd" ]}))
  = Some (exampleSpec [exampleContainer []] (Some {[ "disk" := "ssd" ]}))
  ∧ ∃ sel,
      updateNodeSelector (withSelector defaultOptions {[ "zone" := "us" ]})
        (exampleSelectorJob (Some {[ "disk" := "ssd" ]}))
      = Some (exampleSelectorJob (Some sel))
      ∧ ∀ k, sel !! k = match ({[ "zone" := "us" ]} : gmap string string) !! k with
                        | Some v => Some v
                        | None => ({[ "disk" := "ssd" ]} : gmap string string) !! k
                        end.
Proof.
  split; [done|].
  destruct (proj2 (updateNodeSelector_overlay
                     (withSelector defaultOptions {[ "zone" := "us" ]})
                     (exampleSelectorJob (Some {[ "disk" := "ssd" ]})) _ eq_refl))
    as (sel & Hsel & _ & Hover); [done|].
  exists sel. split; [exact Hsel|]. by apply Hover.
Defined.

(** The two overlays of the specification. *)
Example updateNodeSelector_additive :
  updateNodeSelector (withSelector defaultOptions {[ "zone" := "us" ]})
    (exampleSelectorJob (Some {[ "disk" := "ssd" ]}))
  = Some (exampleSelectorJob (Some {[ "disk" := "ssd"; "zone" := "us" ]})).
Proof. by vm_compute. Qed.

Example updateNodeSelector_override :
  updateNodeSelector
    (withOverrideSelector (withSelector defaultOptions {[ "zone" := "us" ]}) true)
    (exampleSelectorJob (Some {[ "disk" := "ssd" ]}))
  = Some (exampleSelectorJob (Some {[ "zone" := "us" ]})).
Proof. by vm_compute. Qed.

(** C7 as stated fails when nothing is configured: in override mode the
    existing selector is kept, not replaced by the empty mapping; and a
    job without a pod spec makes the updater panic. *)
Lemma updateNodeSelector_nothing_configured :
  updateNodeSelector (withOverrideSelector defaultOptions true)
    (exampleSelectorJob (Some {[ "disk" := "ssd" ]}))
  = Some (exampleSelectorJob (Some {[ "disk" := "ssd" ]}))
  ∧ exampleSelectorJob (Some {[ "disk" := "ssd" ]}) ≠ exampleSelectorJob (Some ∅)
  ∧ updateNodeSelector (withSelector defaultOptions {[ "zone" := "us" ]})
      (exampleJob "unit-tests" None []) = None.
Proof.
  split; [by vm_compute|]. split; [|by vm_compute].
  intros Heq. by vm_compute in Heq.
Qed.

(** ** Lists keyed by name *)

Section keyed.
Context {A : Type} (name : A → string) (upd : A → A → A).
Hypothesis upd_name : ∀ p x, name x = name p → name (upd p x) = name x.
Hypothesis upd_upd : ∀ p q x, upd p (upd q x) = upd p x.
Hypothesis upd_self : ∀ p, upd p p = p.

Lemma put_nil (p : A) : put name upd p [] = [p].
Proof. done. Qed.

Lemma put_cons_eq (p x : A) (l : list A) :
  name x = name p → put name upd p (x :: l) = upd p x :: l.
Proof. intros Hn. unfold put. simpl. by rewrite Hn, String.eqb_refl. Qed.

Lemma put_cons_ne (p x : A) (l : list A) :
  name x ≠ name p → put name upd p (x :: l) = x :: put name upd p l.
Proof.
  intros Hn. unfold put. simpl. by destruct (String.eqb_spec (name x) (name p)).
Qed.

(** The names of the list stay where they are; a new name goes last. *)
Lemma names_put (p : A) (l : list A) :
  name <$> put name upd p l
  = if decide (name p ∈ name <$> l) then name <$> l else (name <$> l) ++ [name p].
Proof.
  induction l as [|x l IH].
  - rewrite put_nil. by rewrite decide_False by apply not_elem_of_nil.
  - destruct (decide (name x = name p)) as [Heq|Hne].
    + rewrite put_cons_eq by done. rewrite !fmap_cons, upd_name by done.
      rewrite decide_True; [done|]. rewrite Heq. left.
    + rewrite put_cons_ne by done. rewrite !fmap_cons, IH.
      destruct (decide (name p ∈ name <$> l)) as [Hin|Hin].
      * rewrite decide_True; [done|]. by right.
      * rewrite decide_False; [done|]. intros Hin'.
        apply elem_of_cons in Hin' as [?|?]; congruence.
Qed.

Lemma in_names_put (n : string) (p : A) (l : list A) :
  n ∈ name <$> l → n ∈ name <$> put name upd p l.
Proof.
  intros Hin. rewrite names_put. case_decide; [done|].
  apply elem_of_app. by left.
Qed.

Lemma in_names_put_self (p : A) (l : list A) : name p ∈ name <$> put name upd p l.
Proof.
  rewrite names_put. case_decide; [done|]. apply elem_of_app. right. left.
Qed.

Lemma in_names_putAll (n : string) (ps l : list A) :
  n ∈ name <$> l → n ∈ name <$> putAll name upd ps l.
Proof.
  revert l. induction ps as [|p ps IH]; intros l Hin; [done|].
  simpl. apply IH. by apply in_names_put.
Qed.

Lemma put_put_same (p q : A) (l : list A) :
  name p = name q → name q ∈ name <$> l → put name upd p (put name upd q l) = put name upd p l.
Proof.
  intros Hpq. induction l as [|x l IH]; intros Hin.
  - by apply elem_of_nil in Hin.
  - destruct (decide (name x = name q)) as [Heq|Hne].
    + rewrite (put_cons_eq q) by done.
      rewrite !(put_cons_eq p) by (rewrite ?upd_name by done; congruence).
      by rewrite upd_upd.
    + rewrite (put_cons_ne q) by done.
      rewrite !(put_cons_ne p) by congruence. f_equal. apply IH.
      rewrite fmap_cons in Hin. apply elem_of_cons in Hin as [?|?]; [congruence|done].
Qed.

Lemma put_put_comm (p q : A) (l : list A) :
  name p ≠ name q → name p ∈ name <$> l → put name upd p (put name upd q l) = put name upd q (put name upd p l).
Proof.
  intros Hpq. induction l as [|x l IH]; intros Hin.
  - by apply elem_of_nil in Hin.
  - destruct (decide (name x = name p)) as [Hxp|Hxp].
    + rewrite (put_cons_ne q) by congruence. rewrite !(put_cons_eq p) by done.
      rewrite (put_cons_ne q); [done|]. rewrite upd_name by done. congruence.
    + rewrite (put_cons_ne p x) by done.
      assert (name p ∈ name <$> l) as Hin'.
      { rewrite fmap_cons in Hin. apply elem_of_cons in Hin as [?|?]; [congruence|done]. }
      destruct (decide (name x = name q)) as [Hxq|Hxq].
      * rewrite !(put_cons_eq q) by done.
        rewrite put_cons_ne; [done|]. by rewrite upd_name.
      * rewrite !(put_cons_ne q) by done. rewrite put_cons_ne by done.
        f_equal. by apply IH.
Qed.

Lemma put_idem (p : A) (l : list A) : put name upd p (put name upd p l) = put name upd p l.
Proof.
  induction l as [|x l IH].
  - rewrite put_nil, put_cons_eq by done. by rewrite upd_self.
  - destruct (decide (name x = name p)) as [Hxp|Hxp].
    + rewrite !put_cons_eq by (rewrite ?upd_name by done; done). by rewrite upd_upd.
    + rewrite !put_cons_ne by done. by rewrite IH.
Qed.

(** A merge of [p] is undone by the later merge of an entry of its name. *)
Lemma putAll_absorbs (p : A) (ps l : list A) :
  name p ∈ name <$> l → name p ∈ name <$> ps → putAll name upd ps (put name upd p l) = putAll name upd ps l.
Proof.
  revert l. induction ps as [|q ps IH]; intros l Hl Hps.
  - by apply elem_of_nil in Hps.
  - simpl. destruct (decide (name q = name p)) as [Hqp|Hqp].
    + by rewrite put_put_same.
    + rewrite <- put_put_comm by done. apply IH.
      * by apply in_names_put.
      * rewrite fmap_cons in Hps. apply elem_of_cons in Hps as [?|?]; [congruence|done].
Qed.

Lemma put_putAll_comm (p : A) (ps l : list A) :
  name p ∈ name <$> l → name p ∉ name <$> ps → put name upd p (putAll name upd ps l) = putAll name upd ps (put name upd p l).
Proof.
  revert l. induction ps as [|q ps IH]; intros l Hl Hps; [done|].
  simpl. rewrite fmap_cons in Hps. apply not_elem_of_cons in Hps as [Hpq Hps].
  rewrite IH by (by try apply in_names_put). by rewrite put_put_comm.
Qed.

(** Merging the same entries a second time changes nothing. *)
Lemma putAll_idem (ps l : list A) : putAll name upd ps (putAll name upd ps l) = putAll name upd ps l.
Proof.
  revert l. induction ps as [|p ps IH]; intros l; [done|].
  simpl. destruct (decide (name p ∈ name <$> ps)) as [Hin|Hin].
  - rewrite putAll_absorbs; [apply IH| |done].
    apply in_names_putAll, in_names_put_self.
  - rewrite put_putAll_comm by (by try apply in_names_put_self).
    rewrite put_idem. apply IH.
Qed.

Lemma named_put_other (n : string) (p : A) (l : list A) :
  n ≠ name p → named name n (put name upd p l) = named name n l.
Proof.
  intros Hn. unfold named. induction l as [|x l IH].
  - rewrite put_nil. rewrite filter_cons. by rewrite decide_False.
  - destruct (decide (name x = name p)) as [Hxp|Hxp].
    + rewrite put_cons_eq by done. rewrite !filter_cons, upd_name by done.
      by rewrite !decide_False by congruence.
    + rewrite put_cons_ne by done. rewrite !filter_cons, IH. done.
Qed.

Lemma named_put_same (p : A) (l : list A) :
  named name (name p) (put name upd p l)
  = match named name (name p) l with
    | [] => [p]
    | x :: rest => upd p x :: rest
    end.
Proof.
  unfold named. induction l as [|x l IH].
  - rewrite put_nil. rewrite filter_cons. by rewrite decide_True.
  - destruct (decide (name x = name p)) as [Hxp|Hxp].
    + rewrite put_cons_eq by done. rewrite !filter_cons, upd_name by done.
      by rewrite !decide_True by done.
    + rewrite put_cons_ne by done. rewrite !filter_cons.
      by rewrite !decide_False by done.
Qed.

(** The merge adds an entry of a name only when there was none. *)
Lemma length_named_putAll (n : string) (ps l : list A) :
  length (named name n (putAll name upd ps l))
  = if decide (n ∈ name <$> ps) then 1 `max` length (named name n l) else length (named name n l).
Proof.
  revert l. induction ps as [|p ps IH]; intros l.
  - done.
  - change (putAll name upd (p :: ps) l) with (putAll name upd ps (put name upd p l)).
    rewrite IH. destruct (decide (n = name p)) as [->|Hn].
    + rewrite named_put_same.
      rewrite (decide_True (P := name p ∈ name <$> p :: ps)) by left.
      case_decide; destruct (named name (name p) l); simpl; lia.
    + rewrite named_put_other by done.
      destruct (decide (n ∈ name <$> ps)) as [Hin|Hin].
      * rewrite decide_True; [done|]. by right.
      * rewrite decide_False; [done|]. intros Hin'.
        rewrite fmap_cons in Hin'. apply elem_of_cons in Hin' as [?|?]; done.
Qed.

Section value.
Context {V : Type} (val : A → V).
Hypothesis upd_val : ∀ p x, val (upd p x) = val p.

(** After the merge the first entry of a merged name has the value of
    the last merged entry of that name. *)
Lemma head_named_putAll (n : string) (ps l : list A) :
  n ∈ name <$> ps →
  ∃ x p, head (named name n (putAll name upd ps l)) = Some x ∧ last (named name n ps) = Some p
         ∧ val x = val p.
Proof.
  revert l. induction ps as [|p ps IH] using rev_ind; intros l Hin.
  - by apply elem_of_nil in Hin.
  - unfold putAll. rewrite fold_left_app. simpl. fold (putAll name upd ps l).
    unfold named at 2. rewrite filter_app, filter_cons, filter_nil.
    destruct (decide (name p = n)) as [<-|Hn].
    + rewrite last_snoc, named_put_same.
      destruct (named name (name p) (putAll name upd ps l)) as [|x rest]; simpl; eauto.
    + rewrite (right_id_L [] (++)), named_put_other by done.
      apply IH. rewrite fmap_app in Hin. apply elem_of_app in Hin as [?|Hin]; [done|].
      apply list_elem_of_singleton in Hin. congruence.
Qed.

End value.
End keyed.

(** ** The presets *)

Lemma presetMatches_subseteq (jobLabels : gmap string string) (preset : Preset.t) :
  presetMatches jobLabels preset = true ↔ Preset.Labels preset ⊆ jobLabels.
Proof.
  unfold presetMatches. rewrite forallb_forall, map_subseteq_spec. split.
  - intros Hall l v Hl. apply elem_of_map_to_list, list_elem_of_In, Hall in Hl.
    by apply bool_decide_eq_true in Hl.
  - intros Hsub [l v] Hin. apply list_elem_of_In, elem_of_map_to_list in Hin.
    apply bool_decide_eq_true. simpl. by apply Hsub.
Qed.

Lemma overwriteValue_self (p : EnvVar.t) : overwriteValue p p = p.
Proof. by destruct p. Qed.

Lemma fold_mergeEnv (ps : list EnvVar.t) (cs : list Container.t) :
  fold_left (λ cs e, map (mergeEnv e) cs) ps cs
  = map (λ c, Container.setEnv c (putAll EnvVar.Name overwriteValue ps (Container.Env c))) cs.
Proof.
  revert cs. induction ps as [|p ps IH]; intros cs; simpl.
  - induction cs as [|[] cs IHcs]; simpl; [done|]. by rewrite <- IHcs.
  - rewrite IH, map_map. done.
Qed.

Lemma fold_mergeVolumeMount (ps : list VolumeMount.t) (cs : list Container.t) :
  fold_left (λ cs volm, map (mergeVolumeMount volm) cs) ps cs
  = map (λ c, Container.setVolumeMounts c
                (putAll VolumeMount.Name replaceBy ps (Container.VolumeMounts c))) cs.
Proof.
  revert cs. induction ps as [|p ps IH]; intros cs; simpl.
  - induction cs as [|[] cs IHcs]; simpl; [done|]. by rewrite <- IHcs.
  - rewrite IH, map_map. done.
Qed.

Lemma fold_mergeVolume (ps vols : list Volume.t) :
  fold_left (λ vols vol, mergeVolume vol vols) ps vols
  = putAll Volume.Name replaceBy ps vols.
Proof. done. Qed.

(** The three loops of [mergePreset], field by field. *)
Lemma mergePresetSpec_fields (preset : Preset.t) (spec : PodSpec.t) :
  mergePresetSpec preset spec
  = {| PodSpec.Volumes :=
         putAll Volume.Name replaceBy (Preset.Volumes preset) (PodSpec.Volumes spec);
       PodSpec.Containers := map (mergedContainer preset) (PodSpec.Containers spec);
       PodSpec.NodeSelector := PodSpec.NodeSelector spec;
       PodSpec.ServiceAccountName := PodSpec.ServiceAccountName spec |}.
Proof.
  unfold mergePresetSpec. rewrite fold_mergeEnv, fold_mergeVolumeMount, fold_mergeVolume.
  by rewrite map_map.
Qed.

Lemma mergedContainer_idem (preset : Preset.t) (c : Container.t) :
  mergedContainer preset (mergedContainer preset c) = mergedContainer preset c.
Proof.
  unfold mergedContainer. simpl. f_equal.
  - apply putAll_idem; [done|done|apply overwriteValue_self].
  - apply putAll_idem; [|done|done]. intros p x Hx. by unfold replaceBy.
Qed.

Lemma mergePresetSpec_idem (preset : Preset.t) (spec : PodSpec.t) :
  mergePresetSpec preset (mergePresetSpec preset spec) = mergePresetSpec preset spec.
Proof.
  rewrite !mergePresetSpec_fields. simpl. f_equal.
  - apply putAll_idem; [|done|done]. intros p x Hx. by unfold replaceBy.
  - rewrite map_map. apply map_ext. apply mergedContainer_idem.
Qed.

(** A preset whose gate the labels pass is merged into the pod spec. *)
Lemma mergePreset_matching (jobLabels : gmap string string) (job : JobBase.t)
    (spec : PodSpec.t) (preset : Preset.t) :
  JobBase.Spec job = Some spec →
  Preset.Labels preset ⊆ jobLabels →
  mergePreset jobLabels job preset
  = Some (JobBase.setSpec job (Some (mergePresetSpec preset spec))).
Proof.
  intros Hspec Hgate. unfold mergePreset.
  apply presetMatches_subseteq in Hgate. by rewrite Hgate, Hspec.
Qed.

(** A preset whose gate the labels fail leaves the job alone. *)
Lemma mergePreset_not_matching (jobLabels : gmap string string) (job : JobBase.t)
    (preset : Preset.t) :
  ¬ Preset.Labels preset ⊆ jobLabels → mergePreset jobLabels job preset = Some job.
Proof.
  intros Hgate. unfold mergePreset.
  destruct (presetMatches jobLabels preset) eqn:Hm; [|done].
  by apply presetMatches_subseteq in Hm.
Qed.

(** C8. [mergePreset] changes the job only if every label of the gate
    of the preset is a label of the job with the same value; when a
    gated label is missing or has another value the job, its pod spec
    included, is returned as it was; labels of the job that the gate
    does not mention do not matter. *)
Theorem mergePreset_label_gate (jobLabels : gmap string string) (job : JobBase.t)
    (preset : Preset.t) :
  (∀ job', mergePreset jobLabels job preset = Some job' → job' ≠ job →
     ∀ l v, Preset.Labels preset !! l = Some v → jobLabels !! l = Some v)
  ∧ (∀ l v, Preset.Labels preset !! l = Some v → jobLabels !! l ≠ Some v →
       mergePreset jobLabels job preset = Some job)
  ∧ (∀ more, jobLabels ⊆ more → presetMatches jobLabels preset = true →
       presetMatches more preset = true
       ∧ mergePreset more job preset = mergePreset jobLabels job preset).
Proof.
  split; [|split].
  - intros job' Hjob' Hne. apply map_subseteq_spec.
    destruct (presetMatches jobLabels preset) eqn:Hm.
    + by apply presetMatches_subseteq.
    + unfold mergePreset in Hjob'. rewrite Hm in Hjob'. simpl in Hjob'. congruence.
  - intros l v Hl Hne. apply mergePreset_not_matching.
    rewrite map_subseteq_spec. intros Hsub. by apply Hne, Hsub.
  - intros more Hmore Hm.
    assert (presetMatches more preset = true) as Hm'.
    { apply presetMatches_subseteq. apply presetMatches_subseteq in Hm.
      by transitivity jobLabels. }
    split; [done|]. unfold mergePreset. by rewrite Hm, Hm'.
Qed.

Lemma mergePreset_label_gate_witness :
  Preset.Labels examplePreset !! "preset-foo" = Some "true"
  ∧ ({[ "preset-foo" := "false"; "team" := "infra" ]} : gmap string string) !! "preset-foo"
    ≠ Some "true"
  ∧ mergePreset {[ "preset-foo" := "false"; "team" := "infra" ]} (exampleEnvJob [])
      examplePreset = Some (exampleEnvJob []).
Proof.
  assert (({[ "preset-foo" := "false"; "team" := "infra" ]} : gmap string string)
            !! "preset-foo" ≠ Some "true") as Hne by (by vm_compute).
  split; [done|]. split; [exact Hne|].
  exact (proj1 (proj2 (mergePreset_label_gate _ (exampleEnvJob []) examplePreset))
               "preset-foo" "true" eq_refl Hne).
Defined.

(** A job with a label more than the gate asks for gets the preset. *)
Example mergePreset_more_labels :
  mergePreset {[ "preset-foo" := "true"; "team" := "infra" ]} (exampleEnvJob [])
    examplePreset
  = Some (exampleMergedJob [exampleEnv "FOO" "bar"]).
Proof. by vm_compute. Qed.

(** C4, amended. For a job with a pod spec and a preset whose gate the
    labels pass, merging the preset a second time changes nothing.  In
    every container, for every variable name of the preset, the merge
    adds an entry of that name only when there was none (so there is
    exactly one when the container had at most one), and the first
    entry of that name holds the value of the last preset variable of
    that name. *)
Theorem mergePreset_idempotent (jobLabels : gmap string string) (job : JobBase.t)
    (spec : PodSpec.t) (preset : Preset.t) :
  JobBase.Spec job = Some spec →
  Preset.Labels preset ⊆ jobLabels →
  ∃ job1 spec1,
    mergePreset jobLabels job preset = Some job1
    ∧ mergePreset jobLabels job1 preset = Some job1
    ∧ JobBase.Spec job1 = Some spec1
    ∧ length (PodSpec.Containers spec1) = length (PodSpec.Containers spec)
    ∧ ∀ i c c1 e,
        PodSpec.Containers spec !! i = Some c →
        PodSpec.Containers spec1 !! i = Some c1 →
        e ∈ Preset.Env preset →
        length (named EnvVar.Name (EnvVar.Name e) (Container.Env c1))
        = 1 `max` length (named EnvVar.Name (EnvVar.Name e) (Container.Env c))
        ∧ ∃ x p,
            head (named EnvVar.Name (EnvVar.Name e) (Container.Env c1)) = Some x
            ∧ last (named EnvVar.Name (EnvVar.Name e) (Preset.Env preset)) = Some p
            ∧ EnvVar.Value x = EnvVar.Value p.
Proof.
  intros Hspec Hgate.
  exists (JobBase.setSpec job (Some (mergePresetSpec preset spec))),
         (mergePresetSpec preset spec).
  split; [by apply mergePreset_matching|].
  split.
  { rewrite (mergePreset_matching _ _ (mergePresetSpec preset spec)) by done.
    by rewrite mergePresetSpec_idem. }
  split; [done|].
  rewrite mergePresetSpec_fields. simpl. split; [apply length_map|].
  intros i c c1 e Hc Hc1 He.
  change (map (mergedContainer preset) (PodSpec.Containers spec))
    with (mergedContainer preset <$> PodSpec.Containers spec) in Hc1.
  rewrite list_lookup_fmap, Hc in Hc1. injection Hc1 as <-. simpl.
  assert (EnvVar.Name e ∈ EnvVar.Name <$> Preset.Env preset) as Hin
    by (by apply list_elem_of_fmap_2).
  split.
  - rewrite length_named_putAll by done. by rewrite decide_True.
  - by apply (head_named_putAll EnvVar.Name overwriteValue).
Qed.

Lemma mergePreset_idempotent_witness :
  JobBase.Spec (exampleEnvJob [exampleEnv "FOO" "old"])
  = Some (exampleSpec [exampleContainer [exampleEnv "FOO" "old"]] None)
  ∧ Preset.Labels examplePreset ⊆ {[ "preset-foo" := "true"; "team" := "infra" ]}
  ∧ ∃ job1,
      mergePreset {[ "preset-foo" := "true"; "team" := "infra" ]}
        (exampleEnvJob [exampleEnv "FOO" "old"]) examplePreset = Some job1
      ∧ mergePreset {[ "preset-foo" := "true"; "team" := "infra" ]} job1 examplePreset
        = Some job1.
Proof.
  assert (Preset.Labels examplePreset ⊆ {[ "preset-foo" := "true"; "team" := "infra" ]})
    as Hgate.
  { apply presetMatches_subseteq. by vm_compute. }
  split; [done|]. split; [exact Hgate|].
  destruct (mergePreset_idempotent _ (exampleEnvJob [exampleEnv "FOO" "old"]) _
              examplePreset eq_refl Hgate) as (job1 & spec1 & H1 & H2 & _).
  exists job1. split; [exact H1|exact H2].
Defined.

(** The preset of the example merged once and twice: one [FOO], with the
    value of the preset. *)
Example mergePreset_twice :
  mergePreset {[ "preset-foo" := "true" ]} (exampleEnvJob [exampleEnv "FOO" "old"])
    examplePreset
  = Some (exampleMergedJob [exampleEnv "FOO" "bar"])
  ∧ mergePreset {[ "preset-foo" := "true" ]} (exampleMergedJob [exampleEnv "FOO" "bar"])
      examplePreset
    = Some (exampleMergedJob [exampleEnv "FOO" "bar"]).
Proof. split; by vm_compute. Qed.

(** C4 as stated fails for a container that lists a name twice: only
    the first entry is overwritten, so after one merge and after two the
    container has two entries named [FOO] and the second does not hold
    the value of the preset. *)
Lemma mergePreset_keeps_duplicate :
  mergePreset {[ "preset-foo" := "true" ]}
    (exampleEnvJob [exampleEnv "FOO" "old"; exampleEnv "FOO" "old"]) examplePreset
  = Some (exampleMergedJob [exampleEnv "FOO" "bar"; exampleEnv "FOO" "old"])
  ∧ mergePreset {[ "preset-foo" := "true" ]}
      (exampleMergedJob [exampleEnv "FOO" "bar"; exampleEnv "FOO" "old"]) examplePreset
    = Some (exampleMergedJob [exampleEnv "FOO" "bar"; exampleEnv "FOO" "old"])
  ∧ length (named EnvVar.Name "FOO" [exampleEnv "FOO" "bar"; exampleEnv "FOO" "old"]) = 2.
Proof. repeat split; by vm_compute. Qed.

(** ** The path router *)

Section paths.
Context `{UtilPkg}.

Lemma segmentAt_app (pre l : list string) (k : nat) :
  segmentAt (pre ++ l) (length pre + k) = segmentAt l k.
Proof. unfold segmentAt. apply app_nth2_plus. Qed.

(** A destination that is a YAML file is the output path of every file. *)
Lemma getOutPath_yaml_output (o : options) (p in_ : string) :
  HasExtension (output o) yamlExt = true → getOutPath o p in_ = output o.
Proof. intros Hext. unfold getOutPath. by rewrite Hext. Qed.

Lemma getOutPath_three (o : options) (p in_ : string) (pre : list string)
    (org repo file : string) :
  segmentsBelow p in_ = pre ++ [org; repo; file] →
  HasExtension (output o) yamlExt = false →
  getOutPath o p in_
  = match orgMap o !! org with
    | Some newOrg =>
        filepath.Join [output o; GetTopLevelOrg newOrg; repo;
                       RenameFile (orgPrefixPattern org) file (RemoveHost newOrg)]
    | None => ""
    end.
Proof.
  unfold segmentsBelow, getOutPath, orgPrefixPattern. intros -> ->.
  rewrite length_app. simpl length.
  replace (3 <=? length pre + 3)%nat with true by (symmetry; apply Nat.leb_le; lia).
  replace (length pre + 3 - 3) with (length pre + 0) by lia.
  replace (length pre + 3 - 2) with (length pre + 1) by lia.
  replace (length pre + 3 - 1) with (length pre + 2) by lia.
  by rewrite !segmentAt_app.
Qed.

Lemma getOutPath_two (o : options) (p in_ : string) (org file : string) :
  segmentsBelow p in_ = [org; file] →
  HasExtension (output o) yamlExt = false →
  getOutPath o p in_
  = match orgMap o !! org with
    | Some newOrg =>
        filepath.Join [output o; GetTopLevelOrg newOrg;
                       RenameFile (orgPrefixPattern org) file (RemoveHost newOrg)]
    | None => ""
    end.
Proof.
  unfold segmentsBelow, getOutPath, orgPrefixPattern. by intros -> ->.
Qed.

End paths.

(** C2, amended. For a file whose path below the input directory has
    three segments or more, the last three being org, repo and file:
    when the destination is itself a YAML file it is the output path;
    otherwise, if the org has an entry in the mapping, the output path
    joins the destination, the top-level part of the mapped org, the
    repo and the file name with its org prefix renamed, and there is no
    output path if the org has no entry. *)
Theorem getOutPath_org_repo_file `{UtilPkg} (o : options) (p in_ : string)
    (pre : list string) (org repo file : string) :
  segmentsBelow p in_ = pre ++ [org; repo; file] →
  getOutPath o p in_
  = if HasExtension (output o) yamlExt then output o
    else match orgMap o !! org with
         | Some newOrg =>
             filepath.Join [output o; GetTopLevelOrg newOrg; repo;
                            RenameFile (orgPrefixPattern org) file (RemoveHost newOrg)]
         | None => ""
         end.
Proof.
  intros Hseg. destruct (HasExtension (output o) yamlExt) eqn:Hext.
  - by apply getOutPath_yaml_output.
  - by apply (getOutPath_three o p in_ pre).
Qed.

(** The example of the specification, by the theorem. *)
Lemma getOutPath_org_repo_file_witness :
  segmentsBelow "/jobs/istio/org-a/repo-x/job.yaml" "/jobs"
  = ["istio"] ++ ["org-a"; "repo-x"; "job.yaml"]
  ∧ getOutPath (withOutput exampleOptions "out/") "/jobs/istio/org-a/repo-x/job.yaml" "/jobs"
    = "out/org-b/repo-x/job.yaml".
Proof.
  split; [by vm_compute|].
  rewrite (getOutPath_org_repo_file (withOutput exampleOptions "out/")
             "/jobs/istio/org-a/repo-x/job.yaml" "/jobs"
             ["istio"] "org-a" "repo-x" "job.yaml"); by vm_compute.
Defined.

(** The examples of the specification, computed. *)
Example getOutPath_example :
  getOutPath (withOutput exampleOptions "out/") "/jobs/org-a/repo-x/job.yaml" "/jobs"
  = "out/org-b/repo-x/job.yaml".
Proof. by vm_compute. Qed.

Example getOutPath_example_prefix :
  getOutPath (withOutput exampleOptions "out/") "/jobs/org-a/repo-x/org-a.job.yaml" "/jobs"
  = "out/org-b/repo-x/org-b.job.yaml".
Proof. by vm_compute. Qed.

(** C2 as stated fails when the destination is a YAML file: a file of
    an org without an entry in the mapping has an output path, and a
    file of a mapped org has the destination itself, not a path below
    it. *)
Lemma getOutPath_yaml_destination :
  orgMap (withOutput exampleOptions "out.yaml") !! "org-c" = None
  ∧ getOutPath (withOutput exampleOptions "out.yaml") "/jobs/org-c/repo-x/job.yaml" "/jobs"
    = "out.yaml"
  ∧ getOutPath (withOutput exampleOptions "out.yaml") "/jobs/org-a/repo-x/job.yaml" "/jobs"
    = "out.yaml"
  ∧ filepath.Join ["out.yaml"; "org-b"; "repo-x"; "job.yaml"] ≠ "out.yaml".
Proof. repeat split; by vm_compute. Qed.

(** C6. For an org without an entry in the mapping: [convertOrgRepoStr]
    returns the empty string for every string whose org part is that
    org, whatever the repo; and unless the destination is a YAML file,
    [getOutPath] returns the empty string for a file with two segments
    below the input directory, org and file, and for a file with three
    or more whose third segment from the end is the org. *)
Theorem unmapped_org_no_output `{UtilPkg} (o : options) (org : string) :
  orgMap o !! org = None →
  (∀ s repo, SplitOrgRepo s = (org, repo) → convertOrgRepoStr o s = "")
  ∧ (HasExtension (output o) yamlExt = false →
     ∀ p in_,
       (∀ file, segmentsBelow p in_ = [org; file] → getOutPath o p in_ = "")
       ∧ (∀ pre repo file, segmentsBelow p in_ = pre ++ [org; repo; file] →
            getOutPath o p in_ = "")).
Proof.
  intros Horg. split.
  - intros s repo Hs. unfold convertOrgRepoStr, validateOrgRepo. rewrite Hs, Horg.
    rewrite bool_decide_eq_false_2; [done|]. by intros [v Hv].
  - intros Hext p in_. split.
    + intros file Hseg. by rewrite (getOutPath_two o p in_ org file), Horg.
    + intros pre repo file Hseg.
      by rewrite (getOutPath_three o p in_ pre org repo file), Horg.
Qed.

Lemma unmapped_org_no_output_witness :
  orgMap exampleOptions !! "org-c" = None
  ∧ convertOrgRepoStr exampleOptions "org-c/repo-x" = ""
  ∧ getOutPath exampleOptions "/jobs/org-c/org-c.yaml" "/jobs" = ""
  ∧ getOutPath exampleOptions "/jobs/org-c/repo-x/job.yaml" "/jobs" = "".
Proof.
  assert (orgMap exampleOptions !! "org-c" = None) as Horg by (by vm_compute).
  destruct (unmapped_org_no_output exampleOptions "org-c" Horg) as [Hconv Hpath].
  split; [exact Horg|]. split; [by apply (Hconv _ "repo-x")|].
  assert (HasExtension (output exampleOptions) yamlExt = false) as Hext by (by vm_compute).
  split.
  - by apply (proj1 (Hpath Hext _ _) "org-c.yaml").
  - by apply (proj2 (Hpath Hext _ _) [] "repo-x" "job.yaml").
Defined.

(** For an org with an entry the two functions do produce an output. *)
Example mapped_org_output :
  convertOrgRepoStr exampleOptions "org-a/repo-x" = "org-b/repo-x"
  ∧ getOutPath exampleOptions "/jobs/org-a/org-a.yaml" "/jobs" = "org-b/org-b.yaml".
Proof. split; by vm_compute. Qed.

(** * Further properties *)

(** ** The filters, further *)

Section filtersMore.
Context `{RegexpPkg} `{UtilPkg}.

Lemma size_gset_pos (X : gset string) : (0 <? size X)%nat = negb (bool_decide (X = ∅)).
Proof.
  case_bool_decide as HX.
  - rewrite HX. by rewrite size_empty.
  - simpl. apply Nat.ltb_lt. assert (size X ≠ 0); [|lia].
    intros Hs. apply size_empty_iff in Hs. apply HX. by apply leibniz_equiv.
Qed.

Lemma validateOrgRepo_false (o : options) (org repo : string) :
  validateOrgRepo o org repo = false ↔
  (orgMap o !! org = None ∨ repo ∈ repoBlacklist o
   ∨ (repoWhitelist o ≠ ∅ ∧ (repo ∉ repoWhitelist o))).
Proof.
  rewrite <- not_true_iff_false, validateOrgRepo_true.
  destruct (orgMap o !! org) as [m|] eqn:Horg.
  - destruct (decide (repo ∈ repoBlacklist o)) as [Hden|Hden].
    { split; [by right; left|]. by intros _ (_ & Hn & _). }
    destruct (decide (repoWhitelist o = ∅)) as [Hw|Hw].
    { split.
      - intros Hn. destruct Hn. split; [by eexists|]. split; [done|by left].
      - intros [?|[?|[? ?]]]; done. }
    destruct (decide (repo ∈ repoWhitelist o)) as [Hin|Hin].
    { split.
      - intros Hn. destruct Hn. split; [by eexists|]. split; [done|by right].
      - intros [?|[?|[? ?]]]; done. }
    split; [by right; right|]. intros _ (_ & _ & [?|?]); done.
  - split; [by left|]. intros _ ([v Hv] & _). done.
Qed.

Lemma allRefsFrom_lookup (array : list Refs.t) (predicate : Refs.t → nat → bool)
    (idx : nat) :
  allRefsFrom idx array predicate = true ↔
  ∀ i item, array !! i = Some item → predicate item (idx + i) = true.
Proof.
  revert idx. induction array as [|x rest IH]; intros idx; simpl.
  - split; [|done]. intros _ i item Hi. by rewrite lookup_nil in Hi.
  - destruct (predicate x idx) eqn:Hx; simpl.
    + rewrite IH. split.
      * intros Hall [|i] item Hi; simpl in Hi.
        { injection Hi as <-. by rewrite Nat.add_0_r. }
        rewrite <- Nat.add_succ_comm. by apply Hall.
      * intros Hall i item Hi. rewrite Nat.add_succ_comm. by apply (Hall (S i)).
    + split; [done|]. intros Hall.
      specialize (Hall 0 x eq_refl). rewrite Nat.add_0_r in Hall. congruence.
Qed.

End filtersMore.

(** X1. The name filters of [validateJob] are decided before a pattern
    is compiled: a job whose name is denied, or is missing from a
    non-empty allow set, is rejected whatever its patterns are, even
    ones that do not compile.  For patterns that compile the job is
    accepted exactly when its name is not denied, the allow set is empty
    or has the name, the branch list is empty or one of its branches is
    matched by a pattern, and the job type is in the job-type set. *)
Theorem validateJob_accepts `{RegexpPkg} (o : options) (name : string)
    (patterns : list string) (jType : string) :
  (name ∈ jobBlacklist o ∨ (jobWhitelist o ≠ ∅ ∧ (name ∉ jobWhitelist o)) →
   validateJob o name patterns jType = Some false)
  ∧ (Forall compiles patterns →
     ∃ b, validateJob o name patterns jType = Some b
          ∧ (b = true ↔
             ((name ∉ jobBlacklist o)
              ∧ (jobWhitelist o = ∅ ∨ name ∈ jobWhitelist o)
              ∧ (branches o = [] ∨ ∃ branch, branch ∈ branches o ∧ matchedBy branch patterns)
              ∧ jType ∈ jobType o))).
Proof.
  unfold validateJob. rewrite size_gset_pos. split.
  - intros [Hden|[Hne Hnot]].
    + by rewrite bool_decide_eq_true_2.
    + case_bool_decide; [done|].
      rewrite (bool_decide_eq_false_2 (jobWhitelist o = ∅)) by done.
      by rewrite (bool_decide_eq_false_2 (name ∈ jobWhitelist o)).
  - intros Hc.
    assert (∃ m, isMatchBranch o patterns = Some m
                 ∧ (m = true ↔ (branches o = []
                    ∨ ∃ branch, branch ∈ branches o ∧ matchedBy branch patterns)))
      as (m & -> & Hm).
    { unfold isMatchBranch. destruct (branches o) as [|b0 rest] eqn:Hb.
      - exists true. split; [done|]. split; [by left|done].
      - simpl (length _ =? 0)%nat. cbv iota.
        destruct (matchBranches_spec (b0 :: rest) patterns Hc) as (m & -> & Hm).
        exists m. split; [done|]. rewrite Hm. split; [by right|].
        by intros [?|?]. }
    simpl.
    case_bool_decide as Hden; [exists false; split; [done|]; split; [done|tauto]|].
    case_bool_decide as Hempty; simpl.
    + destruct m; simpl.
      * case_bool_decide as Hty; simpl.
        { exists true. split; [done|]. split; [|done]. intros _.
          split; [done|]. split; [by left|]. split; [by apply Hm|done]. }
        exists false. split; [done|]. split; [done|]. tauto.
      * exists false. split; [done|]. split; [done|].
        intros (_ & _ & Hbr & _). apply Hm in Hbr. done.
    + case_bool_decide as Hin; simpl.
      * destruct m; simpl.
        { case_bool_decide as Hty; simpl.
          - exists true. split; [done|]. split; [|done]. intros _.
            split; [done|]. split; [by right|]. split; [by apply Hm|done].
          - exists false. split; [done|]. split; [done|]. tauto. }
        exists false. split; [done|]. split; [done|].
        intros (_ & _ & Hbr & _). apply Hm in Hbr. done.
      * exists false. split; [done|]. split; [done|].
        intros (_ & [?|?] & _); done.
Qed.

Lemma validateJob_accepts_witness :
  Forall compiles ["^master$"]
  ∧ ∃ b, validateJob (withBranches defaultOptions ["master"]) "unit-tests"
           ["^master$"] "presubmit" = Some b
         ∧ (b = true ↔
            (("unit-tests" ∉ jobBlacklist (withBranches defaultOptions ["master"]))
             ∧ (jobWhitelist (withBranches defaultOptions ["master"]) = ∅
                ∨ "unit-tests" ∈ jobWhitelist (withBranches defaultOptions ["master"]))
             ∧ (branches (withBranches defaultOptions ["master"]) = []
                ∨ ∃ branch, branch ∈ branches (withBranches defaultOptions ["master"])
                            ∧ matchedBy branch ["^master$"])
             ∧ "presubmit" ∈ jobType (withBranches defaultOptions ["master"]))).
Proof.
  assert (Forall compiles ["^master$"]) as Hc.
  { repeat constructor; vm_compute; eauto. }
  split; [exact Hc|].
  exact (proj2 (validateJob_accepts (withBranches defaultOptions ["master"])
                  "unit-tests" ["^master$"] "presubmit") Hc).
Defined.

(** X2. [convertOrgRepoStr] returns the empty string exactly when the
    org has no entry in the mapping, or the repo is denied, or there is
    an allow set without the repo; otherwise it returns the mapped org,
    a slash and the repo, which is never empty: the test
    [orgrepo == ""] of [Main] skips the rejected keys and only them. *)
Theorem convertOrgRepoStr_empty_iff `{UtilPkg} (o : options) (s org repo : string) :
  SplitOrgRepo s = (org, repo) →
  (convertOrgRepoStr o s = "" ↔
   (orgMap o !! org = None ∨ repo ∈ repoBlacklist o
    ∨ (repoWhitelist o ≠ ∅ ∧ (repo ∉ repoWhitelist o))))
  ∧ (validateOrgRepo o org repo = true →
     ∃ mapped, orgMap o !! org = Some mapped
               ∧ convertOrgRepoStr o s = mapped +:+ "/" +:+ repo).
Proof.
  intros Hs. unfold convertOrgRepoStr. rewrite Hs.
  destruct (validateOrgRepo o org repo) eqn:Hv; simpl.
  - apply validateOrgRepo_true in Hv as Hv'. destruct Hv' as ([mapped Hm] & Hden & Hallow).
    unfold orgMapAt. rewrite Hm. simpl. split.
    + split.
      * intros Hempty. apply (f_equal String.length) in Hempty.
        rewrite length_append in Hempty. simpl in Hempty. lia.
      * intros [?|[?|[Hne Hnot]]]; [done|done|]. by destruct Hallow.
    + intros _. by exists mapped.
  - split; [|done]. split; [|done]. intros _. by apply validateOrgRepo_false.
Qed.

Lemma convertOrgRepoStr_empty_iff_witness :
  SplitOrgRepo "org-a/repo-x" = ("org-a", "repo-x")
  ∧ validateOrgRepo exampleOptions "org-a" "repo-x" = true
  ∧ ∃ mapped, orgMap exampleOptions !! "org-a" = Some mapped
              ∧ convertOrgRepoStr exampleOptions "org-a/repo-x" = mapped +:+ "/" +:+ "repo-x".
Proof.
  split; [by vm_compute|].
  assert (validateOrgRepo exampleOptions "org-a" "repo-x" = true) as Hv by (by vm_compute).
  split; [exact Hv|].
  exact (proj2 (convertOrgRepoStr_empty_iff exampleOptions "org-a/repo-x"
                  "org-a" "repo-x" eq_refl) Hv).
Defined.

(** X3. [allRefs] is true exactly when the predicate holds of every ref
    of the array at the index of the ref; it is true of the empty
    array. *)
Theorem allRefs_forall (array : list Refs.t) (predicate : Refs.t → nat → bool) :
  (allRefs array predicate = true ↔
   ∀ i item, array !! i = Some item → predicate item i = true)
  ∧ allRefs [] predicate = true.
Proof.
  split; [|done]. unfold allRefs. apply (allRefsFrom_lookup array predicate 0).
Qed.

(** ** Lists keyed by name, further *)

Section keyedMore.
Context {A : Type} (name : A → string) (upd : A → A → A).
Hypothesis upd_name : ∀ p x, name x = name p → name (upd p x) = name x.

Lemma putAll_app (ps1 ps2 l : list A) :
  putAll name upd (ps1 ++ ps2) l = putAll name upd ps2 (putAll name upd ps1 l).
Proof. unfold putAll. apply fold_left_app. Qed.

Lemma putAll_fmap {K : Type} (f : K → A) (ks : list K) (l : list A) :
  fold_left (λ acc k, put name upd (f k) acc) ks l = putAll name upd (f <$> ks) l.
Proof. revert l. induction ks as [|k ks IH]; intros l; simpl; [done|]. apply IH. Qed.

(** A merge removes no entry and moves none: the names the list had
    are the first names of the merged list, in their order. *)
Lemma names_putAll_prefix (ps l : list A) :
  (name <$> l) `prefix_of` (name <$> putAll name upd ps l).
Proof.
  revert l. induction ps as [|p ps IH]; intros l; [done|].
  simpl. etrans; [|apply IH]. rewrite names_put by done.
  case_decide; [done|]. by apply prefix_app_r.
Qed.

End keyedMore.

(** ** The field updaters, further *)

Lemma setLabels_eta (job : JobBase.t) : JobBase.setLabels job (JobBase.Labels job) = job.
Proof. by destruct job. Qed.

Lemma setSpec_eta (job : JobBase.t) (spec : PodSpec.t) :
  JobBase.Spec job = Some spec → JobBase.setSpec job (Some spec) = job.
Proof. destruct job. simpl. by intros ->. Qed.

Lemma setContainers_eta (spec : PodSpec.t) :
  PodSpec.setContainers spec (PodSpec.Containers spec) = spec.
Proof. by destruct spec. Qed.

Lemma setEnv_eta (c : Container.t) : Container.setEnv c (Container.Env c) = c.
Proof. by destruct c. Qed.

Lemma map_size_eqb_0 (m : gmap string string) :
  (size m =? 0)%nat = bool_decide (m = ∅).
Proof.
  case_bool_decide as Hm.
  - rewrite Hm. by rewrite map_size_empty.
  - apply Nat.eqb_neq. by apply map_size_non_empty_iff.
Qed.

(** X4. [updateUtilityConfig] appends the configured secret after the
    secrets the job has (so a second run appends it again), sets the
    bucket and keeps the other fields of the storage configuration, and
    leaves the rest of the utility config alone; the decoration config
    stays nil only if it was nil and neither is configured. *)
Theorem updateUtilityConfig_overlay (o : options) (u : UtilityConfig.t) :
  secretsOf (updateUtilityConfig o u)
  = secretsOf u ++ (if String.eqb (sshKeySecret o) "" then [] else [sshKeySecret o])
  ∧ gcsOf (updateUtilityConfig o u)
    = (if String.eqb (bucket o) "" then gcsOf u
       else Some {| GCSConfiguration.Bucket := bucket o;
                    GCSConfiguration.PathPrefix :=
                      default "" (GCSConfiguration.PathPrefix <$> gcsOf u);
                    GCSConfiguration.PathStrategy :=
                      default "" (GCSConfiguration.PathStrategy <$> gcsOf u) |})
  ∧ UtilityConfig.setDecorationConfig (updateUtilityConfig o u)
      (UtilityConfig.DecorationConfig u) = u
  ∧ (UtilityConfig.DecorationConfig (updateUtilityConfig o u) = None ↔
     (UtilityConfig.DecorationConfig u = None
      ∧ bucket o = "" ∧ sshKeySecret o = "")).
Proof.
  unfold updateUtilityConfig, updateSSHKeySecrets, updateGCSConfiguration, secretsOf, gcsOf.
  destruct u as [dec alias uri refs [[gcs cred secrets]|]]; simpl;
    destruct (String.eqb_spec (bucket o) ""), (String.eqb_spec (sshKeySecret o) "");
    simpl; try destruct gcs; try destruct secrets; simpl;
    rewrite ?app_nil_r; repeat split; try done; intros (? & ? & ?); done.
Qed.

(** X5. [updateLabels] lays the configured labels over the labels of
    the job: a configured key has the configured value, another key
    keeps its value; the label map stays nil only if it was nil and no
    label is configured; a second run changes nothing; no other field
    of the job changes. *)
Theorem updateLabels_overlay (o : options) (job : JobBase.t) :
  (∀ k, labelsOf (updateLabels o job) !! k
        = match labels o !! k with
          | Some v => Some v
          | None => labelsOf job !! k
          end)
  ∧ (JobBase.Labels (updateLabels o job) = None ↔
     (labels o = ∅ ∧ JobBase.Labels job = None))
  ∧ updateLabels o (updateLabels o job) = updateLabels o job
  ∧ JobBase.setLabels (updateLabels o job) (JobBase.Labels job) = job.
Proof.
  unfold updateLabels, labelsOf. rewrite map_size_eqb_0.
  case_bool_decide as Hl.
  - rewrite Hl. split; [intros k; by rewrite lookup_empty|].
    split; [tauto|]. split; [done|apply setLabels_eta].
  - rewrite !overlay_union. simpl. split.
    { intros k. rewrite lookup_union.
      destruct (labels o !! k), (default ∅ (JobBase.Labels job) !! k); done. }
    split; [split; [done|by intros [? _]]|]. split.
    + by rewrite (assoc_L (∪)), (idemp_L (∪)).
    + by destruct job.
Qed.

Section envs.
Context `{UtilPkg}.

Lemma updateEnv_put (o : options) (envK : string) (c : Container.t) :
  updateEnv o envK c
  = Container.setEnv c (put EnvVar.Name overwriteValue (envEntry o envK) (Container.Env c)).
Proof. done. Qed.

Lemma fold_updateEnv (o : options) (ks : list string) (cs : list Container.t) :
  fold_left (λ cs envK, map (updateEnv o envK) cs) ks cs
  = map (λ c, Container.setEnv c
                (putAll EnvVar.Name overwriteValue (envEntry o <$> ks) (Container.Env c)))
        cs.
Proof.
  revert cs. induction ks as [|k ks IH]; intros cs; simpl.
  - induction cs as [|[] cs IHcs]; simpl; [done|]. by rewrite <- IHcs.
  - rewrite IH, map_map. done.
Qed.

(** What [updateEnvs] makes of one container. *)
Lemma updateEnvs_containers (o : options) (job : JobBase.t) (spec : PodSpec.t) :
  JobBase.Spec job = Some spec →
  updateEnvs o job
  = Some (JobBase.setSpec job
            (Some (PodSpec.setContainers spec
                     (map (λ c, Container.setEnv c
                                  (putAll EnvVar.Name overwriteValue
                                     (if bool_decide (env o = ∅) then []
                                      else envEntry o <$> SortedKeys (env o))
                                     (Container.Env c)))
                          (PodSpec.Containers spec))))).
Proof.
  intros Hspec. unfold updateEnvs. rewrite map_size_eqb_0.
  case_bool_decide as He.
  - f_equal. symmetry. erewrite map_ext; [|apply setEnv_eta].
    by rewrite map_id, setContainers_eta, setSpec_eta.
  - by rewrite Hspec, fold_updateEnv.
Qed.

End envs.

(** X6. For a job with a pod spec [updateEnvs] keeps the containers at
    their places and, in each, keeps every variable the container had,
    in order, before the ones it appends; the first variable named by a
    configured key that [SortedKeys] returns has the configured value;
    a second run changes nothing. *)
Theorem updateEnvs_overlay `{UtilPkg} (o : options) (job : JobBase.t) (spec : PodSpec.t) :
  JobBase.Spec job = Some spec →
  ∃ job1 spec1,
    updateEnvs o job = Some job1
    ∧ JobBase.Spec job1 = Some spec1
    ∧ updateEnvs o job1 = Some job1
    ∧ length (PodSpec.Containers spec1) = length (PodSpec.Containers spec)
    ∧ ∀ i c c1,
        PodSpec.Containers spec !! i = Some c →
        PodSpec.Containers spec1 !! i = Some c1 →
        Container.setEnv c1 (Container.Env c) = c
        ∧ (EnvVar.Name <$> Container.Env c) `prefix_of` (EnvVar.Name <$> Container.Env c1)
        ∧ ∀ envK, env o ≠ ∅ → envK ∈ SortedKeys (env o) →
            ∃ x, head (named EnvVar.Name envK (Container.Env c1)) = Some x
                 ∧ EnvVar.Value x = default "" (env o !! envK).
Proof.
  intros Hspec. rewrite (updateEnvs_containers o job spec Hspec).
  eexists _, _. split; [reflexivity|]. split; [reflexivity|]. split.
  { erewrite updateEnvs_containers by reflexivity. simpl. do 3 f_equal.
    destruct spec as [vols cs sel sa]. simpl. f_equal.
    rewrite map_map. apply map_ext. intros c. simpl.
    rewrite putAll_idem; [by destruct c|done|done|apply overwriteValue_self]. }
  simpl. split; [apply length_map|].
  intros i c c1 Hc Hc1.
  change (map ?f ?l) with (f <$> l) in Hc1.
  rewrite list_lookup_fmap, Hc in Hc1. injection Hc1 as <-. simpl.
  split; [by destruct c|]. split; [by apply names_putAll_prefix|].
  intros envK Hne Hin. rewrite bool_decide_eq_false_2 by done.
  destruct (head_named_putAll EnvVar.Name overwriteValue
              (λ p x _, eq_refl) EnvVar.Value (λ p x, eq_refl) envK
              (envEntry o <$> SortedKeys (env o)) (Container.Env c)) as (x & p & Hx & Hp & Hv).
  { rewrite <- list_fmap_compose. apply list_elem_of_fmap. by exists envK. }
  exists x. split; [done|]. rewrite Hv.
  apply last_Some_elem_of, list_elem_of_filter in Hp as [Hname Hp].
  apply list_elem_of_fmap in Hp as (k & -> & _). simpl in Hname. by subst k.
Qed.

Lemma updateEnvs_overlay_witness :
  JobBase.Spec (exampleEnvJob [exampleEnv "FOO" "old"])
  = Some (exampleSpec [exampleContainer [exampleEnv "FOO" "old"]] None)
  ∧ ∃ job1,
      updateEnvs (withEnv defaultOptions {[ "FOO" := "bar"; "BAZ" := "qux" ]})
        (exampleEnvJob [exampleEnv "FOO" "old"]) = Some job1
      ∧ updateEnvs (withEnv defaultOptions {[ "FOO" := "bar"; "BAZ" := "qux" ]}) job1 = Some job1.
Proof.
  split; [done|].
  destruct (updateEnvs_overlay
              (withEnv defaultOptions {[ "FOO" := "bar"; "BAZ" := "qux" ]})
              (exampleEnvJob [exampleEnv "FOO" "old"]) _ eq_refl)
    as (job1 & spec1 & H1 & _ & H2 & _).
  exists job1. split; [exact H1|exact H2].
Defined.

Section jobBase.
Context `{UtilPkg}.

Lemma updateJobName_cases (o : options) (job : JobBase.t) :
  ((63 < String.length (nameSuffix o))%nat ∧ updateJobName o job = None)
  ∨ ((String.length (nameSuffix o) ≤ 63)%nat
     ∧ ∃ name, updateJobName o job = Some (JobBase.setName job name)).
Proof.
  unfold updateJobName. fold (nameSuffix o). unfold maxLabelLen.
  destruct (le_lt_dec (String.length (nameSuffix o)) 63) as [Hle|Hgt].
  - right. split; [done|].
    destruct (_ <? _)%Z; [|by eexists].
    destruct (Z.ltb_spec (63 - Z.of_nat (String.length (nameSuffix o))) 0); [lia|].
    by eexists.
  - left. split; [done|].
    destruct (Z.ltb_spec (63 - Z.of_nat (String.length (nameSuffix o)))
                (Z.of_nat (String.length (JobBase.Name job)))); [|lia].
    destruct (Z.ltb_spec (63 - Z.of_nat (String.length (nameSuffix o))) 0); [done|lia].
Qed.

Lemma updateNodeSelector_cases (o : options) (job : JobBase.t) :
  (selector o ≠ ∅ ∧ JobBase.Spec job = None ∧ updateNodeSelector o job = None)
  ∨ ∃ spec, updateNodeSelector o job = Some (JobBase.setSpec job spec)
            ∧ (spec = None ↔ JobBase.Spec job = None)
            ∧ (selector o = ∅ → spec = JobBase.Spec job).
Proof.
  unfold updateNodeSelector. rewrite map_size_eqb_0. case_bool_decide as Hs.
  - right. exists (JobBase.Spec job). by destruct job.
  - destruct (JobBase.Spec job) as [spec|] eqn:Hspec; simpl.
    + right. eexists. split; [reflexivity|]. split; [done|]. by intros ?.
    + by left.
Qed.

Lemma updateEnvs_cases (o : options) (job : JobBase.t) :
  (env o ≠ ∅ ∧ SortedKeys (env o) ≠ [] ∧ JobBase.Spec job = None
   ∧ updateEnvs o job = None)
  ∨ ∃ spec, updateEnvs o job = Some (JobBase.setSpec job spec)
            ∧ (spec = None ↔ JobBase.Spec job = None).
Proof.
  destruct (JobBase.Spec job) as [spec|] eqn:Hspec.
  - right. rewrite (updateEnvs_containers o job spec Hspec). eexists. by split.
  - unfold updateEnvs. rewrite map_size_eqb_0, Hspec. case_bool_decide as He.
    + right. exists None. by destruct job; simpl in *; subst.
    + destruct (SortedKeys (env o)) eqn:Hk.
      * right. exists None. by destruct job; simpl in *; subst.
      * by left.
Qed.

End jobBase.

(** The fields of the job [updateJobBase] returns, and when it panics. *)
Lemma updateJobBase_spec `{UtilPkg} (o : options) (job : JobBase.t)
    (orgrepo : string) :
  (updateJobBase o job orgrepo = None ↔ jobBasePanics o job)
  ∧ ∀ job', updateJobBase o job orgrepo = Some job' →
      JobBase.Annotations job' = None
      ∧ JobBase.Agent job' = JobBase.Agent job
      ∧ UtilityConfig.ExtraRefs (JobBase.UtilityConfig job')
        = UtilityConfig.ExtraRefs (JobBase.UtilityConfig job)
      ∧ UtilityConfig.DecorationConfig (JobBase.UtilityConfig job')
        = UtilityConfig.DecorationConfig (JobBase.UtilityConfig job)
      ∧ JobBase.Cluster job'
        = (if String.eqb (cluster o) "" || String.eqb (cluster o) defaultCluster
           then JobBase.Cluster job else cluster o)
      ∧ UtilityConfig.CloneURI (JobBase.UtilityConfig job')
        = (if sshClone o && negb (String.eqb orgrepo "")
           then "git@github.com:" +:+ orgrepo +:+ ".git"
           else UtilityConfig.CloneURI (JobBase.UtilityConfig job))
      ∧ JobBase.Name <$> updateJobName o job = Some (JobBase.Name job')
      ∧ labelsOf job' = labels o ∪ labelsOf job
      ∧ (JobBase.Spec job' = None ↔ JobBase.Spec job = None)
      ∧ JobBase.ReporterConfig job'
        = (if String.eqb (channel o) "" then JobBase.ReporterConfig job
           else Some {| ReporterConfig.Slack :=
                          Some {| SlackReporterConfig.Channel := channel o;
                                  SlackReporterConfig.ReportTemplate := "" |} |}).
Proof.
  unfold updateJobBase, jobBasePanics.
  set (job0 := JobBase.setAnnotations job None).
  set (job1 := if sshClone o && negb (String.eqb orgrepo "") then _ else job0).
  set (job2 := if negb (String.eqb (cluster o) "") && _ then _ else job1).
  assert (JobBase.Spec job2 = JobBase.Spec job ∧ JobBase.Name job2 = JobBase.Name job
          ∧ JobBase.Labels job2 = JobBase.Labels job
          ∧ JobBase.ReporterConfig job2 = JobBase.ReporterConfig job
          ∧ JobBase.Annotations job2 = None ∧ JobBase.Agent job2 = JobBase.Agent job
          ∧ UtilityConfig.ExtraRefs (JobBase.UtilityConfig job2)
            = UtilityConfig.ExtraRefs (JobBase.UtilityConfig job)
          ∧ UtilityConfig.DecorationConfig (JobBase.UtilityConfig job2)
            = UtilityConfig.DecorationConfig (JobBase.UtilityConfig job)
          ∧ JobBase.Cluster job2
            = (if String.eqb (cluster o) "" || String.eqb (cluster o) defaultCluster
               then JobBase.Cluster job else cluster o)
          ∧ UtilityConfig.CloneURI (JobBase.UtilityConfig job2)
            = (if sshClone o && negb (String.eqb orgrepo "")
               then "git@github.com:" +:+ orgrepo +:+ ".git"
               else UtilityConfig.CloneURI (JobBase.UtilityConfig job)))
    as (Hspec2 & Hname2 & Hlabels2 & Hrep2 & Hann2 & Hagent2 & Hrefs2 & Hdec2 & Hcl2
        & Huri2).
  { subst job2 job1 job0.
    destruct (sshClone o && negb (String.eqb orgrepo "")),
      (String.eqb (cluster o) ""), (String.eqb (cluster o) defaultCluster);
      simpl; repeat split; done. }
  assert (updateJobName o job2 = (λ j, JobBase.setName job2 (JobBase.Name j))
                                   <$> updateJobName o job) as Hnm.
  { unfold updateJobName. rewrite Hname2.
    destruct (_ <? _)%Z; [destruct (_ <? 0)%Z|]; done. }
  clearbody job2. clear job0 job1.
  destruct (updateJobName_cases o job) as [[Hgt Hn]|[Hle [name Hn]]];
    rewrite Hnm, Hn; simpl.
  { split; [split; [by left|done]|]. intros job' Hj. done. }
  set (job3 := updateLabels o (updateReporterConfig o (JobBase.setName job2 name))).
  assert (JobBase.Spec job3 = JobBase.Spec job ∧ JobBase.Name job3 = name
          ∧ labelsOf job3 = labels o ∪ labelsOf job
          ∧ JobBase.Annotations job3 = None ∧ JobBase.Agent job3 = JobBase.Agent job
          ∧ JobBase.UtilityConfig job3 = JobBase.UtilityConfig job2
          ∧ JobBase.Cluster job3 = JobBase.Cluster job2
          ∧ JobBase.ReporterConfig job3
            = (if String.eqb (channel o) "" then JobBase.ReporterConfig job
               else Some {| ReporterConfig.Slack :=
                              Some {| SlackReporterConfig.Channel := channel o;
                                      SlackReporterConfig.ReportTemplate := "" |} |}))
    as (Hspec3 & Hname3 & Hlabels3 & Hann3 & Hagent3 & Huc3 & Hcl3 & Hrep3).
  { subst job3. unfold updateLabels, updateReporterConfig, labelsOf.
    rewrite map_size_eqb_0.
    destruct (String.eqb (channel o) ""); case_bool_decide as Hl; simpl;
      rewrite ?overlay_union, ?Hlabels2, ?Hl, ?(left_id_L ∅ (∪)); repeat split; done. }
  clearbody job3.
  destruct (updateNodeSelector_cases o job3) as [(Hsel & Hnone & Hns)|(spec4 & Hns & Hs4 & _)];
    rewrite Hns; simpl.
  { split; [|done]. split; [|done]. intros _. right. split; [congruence|by left]. }
  destruct (updateEnvs_cases o (JobBase.setSpec job3 spec4))
    as [(Henv & Hkeys & Hnone & Hue)|(spec5 & Hue & Hs5)]; rewrite Hue.
  { split; [|done]. split; [|done]. intros _. right. simpl in Hnone.
    split; [|by right]. apply Hs4 in Hnone. congruence. }
  split.
  - split; [done|]. intros [Hgt|(Hnone & [Hsel|[Henv Hkeys]])]; [lia| |].
    + destruct (updateNodeSelector_cases o job3) as [(_ & _ & Hns')|(s & Hns' & _ & _)].
      * congruence.
      * exfalso. revert Hns. unfold updateNodeSelector. rewrite map_size_eqb_0.
        rewrite bool_decide_eq_false_2 by done. by rewrite Hspec3, Hnone.
    + exfalso. revert Hue. unfold updateEnvs. rewrite map_size_eqb_0.
      rewrite bool_decide_eq_false_2 by done. simpl.
      assert (spec4 = None) as -> by (apply Hs4; congruence).
      by destruct (SortedKeys (env o)).
  - intros job' Hj. injection Hj as <-. simpl.
    rewrite Hann3, Hagent3, Huc3, Hcl3, Hname3, Hrep3. unfold labelsOf in *. simpl.
    repeat split; try done.
    + intros Hn5. apply Hs5 in Hn5. simpl in Hn5. apply Hs4 in Hn5. congruence.
    + intros Hn0. apply Hs5. simpl. apply Hs4. congruence.
Qed.

(** X7. [updateJobBase] panics exactly when the suffix of the name has
    more than 63 bytes, or the job has no pod spec and a selector is
    configured or a configured variable is to be set.  When it returns,
    the annotations are nil; the agent, the extra refs and the
    decoration config are those of the job; the cluster is the
    configured one unless that is empty or [default]; the clone URI is
    the SSH URI of [orgrepo] in SSH-clone mode with a non-empty
    [orgrepo], and the one of the job otherwise; the name is the one
    [updateJobName] makes; the labels are the configured ones laid over
    those of the job; with a channel configured the reporter config is
    a Slack reporter of that channel and nothing else, whatever the job
    had, and without one it is that of the job. *)
Theorem updateJobBase_fields `{UtilPkg} (o : options) (job : JobBase.t)
    (orgrepo : string) :
  (updateJobBase o job orgrepo = None ↔ jobBasePanics o job)
  ∧ ∀ job', updateJobBase o job orgrepo = Some job' →
      JobBase.Annotations job' = None
      ∧ JobBase.Agent job' = JobBase.Agent job
      ∧ UtilityConfig.ExtraRefs (JobBase.UtilityConfig job')
        = UtilityConfig.ExtraRefs (JobBase.UtilityConfig job)
      ∧ UtilityConfig.DecorationConfig (JobBase.UtilityConfig job')
        = UtilityConfig.DecorationConfig (JobBase.UtilityConfig job)
      ∧ JobBase.Cluster job'
        = (if String.eqb (cluster o) "" || String.eqb (cluster o) defaultCluster
           then JobBase.Cluster job else cluster o)
      ∧ UtilityConfig.CloneURI (JobBase.UtilityConfig job')
        = (if sshClone o && negb (String.eqb orgrepo "")
           then "git@github.com:" +:+ orgrepo +:+ ".git"
           else UtilityConfig.CloneURI (JobBase.UtilityConfig job))
      ∧ JobBase.Name <$> updateJobName o job = Some (JobBase.Name job')
      ∧ labelsOf job' = labels o ∪ labelsOf job
      ∧ (JobBase.Spec job' = None ↔ JobBase.Spec job = None)
      ∧ JobBase.ReporterConfig job'
        = (if String.eqb (channel o) "" then JobBase.ReporterConfig job
           else Some {| ReporterConfig.Slack :=
                          Some {| SlackReporterConfig.Channel := channel o;
                                  SlackReporterConfig.ReportTemplate := "" |} |}).
Proof.
  destruct (updateJobBase_spec o job orgrepo) as [Hnone Hsome].
  split; [exact Hnone|]. intros job' Hjob'. exact (Hsome job' Hjob').
Qed.

Lemma updateJobBase_fields_witness :
  updateJobBase (withSshClone exampleOptions true)
    (exampleJob "unit-tests" (Some (exampleSpec [exampleContainer []] None)) [])
    "org-b/repo-x"
  = Some (JobBase.setUtilityConfig
            (exampleJob "unit-tests_private"
               (Some (exampleSpec [exampleContainer []] None)) [])
            {| UtilityConfig.Decorate := true; UtilityConfig.PathAlias := "";
               UtilityConfig.CloneURI := "git@github.com:org-b/repo-x.git";
               UtilityConfig.ExtraRefs := []; UtilityConfig.DecorationConfig := None |})
  ∧ JobBase.Name <$> updateJobName (withSshClone exampleOptions true)
                       (exampleJob "unit-tests"
                          (Some (exampleSpec [exampleContainer []] None)) [])
    = Some "unit-tests_private".
Proof.
  assert (updateJobBase (withSshClone exampleOptions true)
            (exampleJob "unit-tests" (Some (exampleSpec [exampleContainer []] None)) [])
            "org-b/repo-x"
          = Some (JobBase.setUtilityConfig
                    (exampleJob "unit-tests_private"
                       (Some (exampleSpec [exampleContainer []] None)) [])
                    {| UtilityConfig.Decorate := true; UtilityConfig.PathAlias := "";
                       UtilityConfig.CloneURI := "git@github.com:org-b/repo-x.git";
                       UtilityConfig.ExtraRefs := [];
                       UtilityConfig.DecorationConfig := None |})) as Hjob
    by (by vm_compute).
  split; [exact Hjob|].
  exact (proj1 (proj2 (proj2 (proj2 (proj2 (proj2 (proj2
           (proj2 (updateJobBase_fields _ _ _) _ Hjob)))))))).
Defined.

(** ** The presets, further *)

Section keyedOther.
Context {A : Type} (name : A → string) (upd : A → A → A).
Hypothesis upd_name : ∀ p x, name x = name p → name (upd p x) = name x.


End keyedOther.


Lemma mergedContainer_nil (c : Container.t) : mergedContainer (joinPresets []) c = c.
Proof. by destruct c. Qed.

Lemma mergePresetSpec_nil (spec : PodSpec.t) : mergePresetSpec (joinPresets []) spec = spec.
Proof.
  rewrite mergePresetSpec_fields. destruct spec as [vols cs sel sa]. simpl. f_equal.
  erewrite map_ext; [apply map_id|]. apply mergedContainer_nil.
Qed.

Lemma mergedContainer_join (p : Preset.t) (ps : list Preset.t) (c : Container.t) :
  mergedContainer (joinPresets ps) (mergedContainer p c)
  = mergedContainer (joinPresets (p :: ps)) c.
Proof.
  unfold mergedContainer. simpl. by rewrite !putAll_app.
Qed.

Lemma mergePresetSpec_join (p : Preset.t) (ps : list Preset.t) (spec : PodSpec.t) :
  mergePresetSpec (joinPresets ps) (mergePresetSpec p spec)
  = mergePresetSpec (joinPresets (p :: ps)) spec.
Proof.
  rewrite !mergePresetSpec_fields. simpl. rewrite putAll_app. f_equal.
  rewrite map_map. apply map_ext. intros c. apply mergedContainer_join.
Qed.

(** Merging the presets of a list one after the other is merging their
    entries, put end to end, at once. *)
Lemma foldlM_mergePreset (jobLabels : gmap string string) (ps : list Preset.t)
    (job : JobBase.t) (spec : PodSpec.t) :
  JobBase.Spec job = Some spec →
  foldlM (mergePreset jobLabels) job ps
  = Some (JobBase.setSpec job
            (Some (mergePresetSpec (joinPresets (matchingPresets jobLabels ps)) spec))).
Proof.
  revert job spec. induction ps as [|p ps IH]; intros job spec Hspec.
  - simpl. unfold matchingPresets. rewrite filter_nil, mergePresetSpec_nil.
    by rewrite setSpec_eta.
  - simpl. destruct (presetMatches jobLabels p) eqn:Hm.
    + rewrite (mergePreset_matching _ _ spec) by (by try apply presetMatches_subseteq).
      simpl. rewrite (IH _ (mergePresetSpec p spec)) by done.
      unfold matchingPresets. rewrite filter_cons_True by done.
      rewrite <- mergePresetSpec_join. by destruct job.
    + rewrite mergePreset_not_matching
        by (intros Hsub; apply presetMatches_subseteq in Hsub; congruence).
      simpl. unfold matchingPresets. rewrite filter_cons_False by congruence.
      by apply IH.
Qed.



(** What [resolvePresets] returns. *)
Lemma resolvePresets_spec (o : options) (jobLabels : gmap string string)
    (job : JobBase.t) (ps : list Preset.t) :
  ∃ job1,
    resolvePresets o jobLabels job ps = Some job1
    ∧ resolvePresets o jobLabels job1 ps = Some job1
    ∧ (resolve o = false ∨ JobBase.Spec job = None → job1 = job)
    ∧ JobBase.setSpec job1 (JobBase.Spec job) = job
    ∧ ∀ spec spec1 i c c1 n,
        resolve o = true →
        JobBase.Spec job = Some spec → JobBase.Spec job1 = Some spec1 →
        PodSpec.Containers spec !! i = Some c →
        PodSpec.Containers spec1 !! i = Some c1 →
        n ∈ EnvVar.Name <$> (matchingPresets jobLabels ps ≫= Preset.Env) →
        ∃ x p,
          head (named EnvVar.Name n (Container.Env c1)) = Some x
          ∧ last (named EnvVar.Name n (matchingPresets jobLabels ps ≫= Preset.Env)) = Some p
          ∧ EnvVar.Value x = EnvVar.Value p.
Proof.
  unfold resolvePresets. destruct (resolve o) eqn:Hres; simpl.
  2:{ exists job. split; [done|]. split; [done|]. split; [done|].
      split; [by destruct job|]. by intros spec spec1 i c c1 n Hf. }
  destruct (JobBase.Spec job) as [spec|] eqn:Hspec.
  2:{ exists job. rewrite Hspec. split; [done|]. split; [done|]. split; [done|].
      split; [by destruct job; simpl in *; subst|].
      by intros spec spec1 i c c1 n _ Hf. }
  change (foldlM (λ j preset, mergePreset jobLabels j preset))
    with (foldlM (mergePreset jobLabels)).
  rewrite (foldlM_mergePreset jobLabels ps job spec Hspec).
  eexists. split; [reflexivity|]. simpl. split.
  { change (foldlM (λ j preset, mergePreset jobLabels j preset))
      with (foldlM (mergePreset jobLabels)).
    erewrite foldlM_mergePreset by reflexivity. by rewrite mergePresetSpec_idem. }
  split; [by intros [?|?]|]. split; [by destruct job; simpl in *; subst|].
  intros spec0 spec1 i c c1 n _ Hs0 Hs1 Hc Hc1 Hn.
  injection Hs0 as <-. injection Hs1 as <-.
  rewrite mergePresetSpec_fields in Hc1. simpl in Hc1.
  change (map ?f ?l) with (f <$> l) in Hc1.
  rewrite list_lookup_fmap, Hc in Hc1. injection Hc1 as <-. simpl.
  by apply (head_named_putAll EnvVar.Name overwriteValue).
Qed.

(** X9. [resolvePresets] never panics: it returns the job as it is when
    resolution is off or the job has no pod spec, and otherwise merges
    the presets in the order of the list.  Resolving a second time
    changes nothing.  In each container the first variable of a name
    set by a matching preset holds the value of the last variable of
    that name among the matching presets, in the order of the list: a
    later preset overrides an earlier one. *)
Theorem resolvePresets_idempotent (o : options) (jobLabels : gmap string string)
    (job : JobBase.t) (ps : list Preset.t) :
  ∃ job1,
    resolvePresets o jobLabels job ps = Some job1
    ∧ resolvePresets o jobLabels job1 ps = Some job1
    ∧ (resolve o = false ∨ JobBase.Spec job = None → job1 = job)
    ∧ JobBase.setSpec job1 (JobBase.Spec job) = job
    ∧ ∀ spec spec1 i c c1 n,
        resolve o = true →
        JobBase.Spec job = Some spec → JobBase.Spec job1 = Some spec1 →
        PodSpec.Containers spec !! i = Some c →
        PodSpec.Containers spec1 !! i = Some c1 →
        n ∈ EnvVar.Name <$> (matchingPresets jobLabels ps ≫= Preset.Env) →
        ∃ x p,
          head (named EnvVar.Name n (Container.Env c1)) = Some x
          ∧ last (named EnvVar.Name n (matchingPresets jobLabels ps ≫= Preset.Env)) = Some p
          ∧ EnvVar.Value x = EnvVar.Value p.
Proof.
  destruct (resolvePresets_spec o jobLabels job ps) as (job1 & Hjob1).
  exists job1. exact Hjob1.
Qed.

(** ** The path router, further *)

(** X10. For a file directly in the input directory (one segment below
    it), or the input file itself (no segment), and a destination that
    is not a YAML file: there is no output path when the file name
    starts with the modifier, and otherwise the output path is the
    destination joined with the modifier, a dot and the file name.
    With an empty modifier every file name starts with it, so no such
    file gets an output path. *)
Theorem getOutPath_flat `{UtilPkg} (o : options) (p in_ : string) :
  HasExtension (output o) yamlExt = false →
  (∀ file, segmentsBelow p in_ = [file] →
     getOutPath o p in_
     = if strings.HasPrefix file (modifier o) then ""
       else filepath.Join [output o; modifier o +:+ "." +:+ file])
  ∧ (segmentsBelow p in_ = [] →
     getOutPath o p in_
     = if strings.HasPrefix (filepath.Base in_) (modifier o) then ""
       else filepath.Join [output o; modifier o +:+ "." +:+ filepath.Base in_])
  ∧ (modifier o = "" → (length (segmentsBelow p in_) ≤ 1)%nat → getOutPath o p in_ = "").
Proof.
  intros Hext. unfold segmentsBelow, getOutPath. rewrite Hext. split; [|split].
  - intros file ->. cbn [length Nat.leb Nat.eqb Nat.sub]. unfold segmentAt. cbn [nth].
    by destruct (strings.HasPrefix file (modifier o)).
  - intros ->. cbn [length Nat.leb Nat.eqb Nat.sub].
    by destruct (strings.HasPrefix (filepath.Base in_) (modifier o)).
  - intros -> Hlen.
    destruct (strings.FieldsFunc _ _) as [|file [|? ?]]; simpl in Hlen; [| |lia];
      cbn [length Nat.leb Nat.eqb Nat.sub]; unfold segmentAt; cbn [nth].
    + unfold strings.HasPrefix. by destruct (filepath.Base in_).
    + unfold strings.HasPrefix. by destruct file.
Qed.

Lemma getOutPath_flat_witness :
  HasExtension (output (withOutput exampleOptions "out/")) yamlExt = false
  ∧ segmentsBelow "/jobs/private.job.yaml" "/jobs" = ["private.job.yaml"]
  ∧ getOutPath (withOutput exampleOptions "out/") "/jobs/private.job.yaml" "/jobs" = ""
  ∧ segmentsBelow "/jobs/job.yaml" "/jobs" = ["job.yaml"]
  ∧ getOutPath (withOutput exampleOptions "out/") "/jobs/job.yaml" "/jobs"
    = "out/private.job.yaml".
Proof.
  assert (HasExtension (output (withOutput exampleOptions "out/")) yamlExt = false)
    as Hext by (by vm_compute).
  split; [exact Hext|]. split; [by vm_compute|]. split; [|split; [by vm_compute|]].
  - rewrite (proj1 (getOutPath_flat _ "/jobs/private.job.yaml" "/jobs" Hext)
               "private.job.yaml"); by vm_compute.
  - rewrite (proj1 (getOutPath_flat _ "/jobs/job.yaml" "/jobs" Hext) "job.yaml");
      by vm_compute.
Defined.

(** X11. For a file with exactly two segments below the input
    directory, org and file: a destination that is a YAML file is the
    output path; otherwise, if the org has an entry in the mapping, the
    output path joins the destination, the top-level part of the mapped
    org and the file name with its org prefix renamed (there is no
    directory for a repo), and there is no output path if the org has
    no entry. *)
Theorem getOutPath_org_file `{UtilPkg} (o : options) (p in_ : string)
    (org file : string) :
  segmentsBelow p in_ = [org; file] →
  getOutPath o p in_
  = if HasExtension (output o) yamlExt then output o
    else match orgMap o !! org with
         | Some newOrg =>
             filepath.Join [output o; GetTopLevelOrg newOrg;
                            RenameFile (orgPrefixPattern org) file (RemoveHost newOrg)]
         | None => ""
         end.
Proof.
  intros Hseg. destruct (HasExtension (output o) yamlExt) eqn:Hext.
  - by apply getOutPath_yaml_output.
  - by apply getOutPath_two.
Qed.

Lemma getOutPath_org_file_witness :
  segmentsBelow "/jobs/org-a/org-a.periodics.yaml" "/jobs" = ["org-a"; "org-a.periodics.yaml"]
  ∧ getOutPath (withOutput exampleOptions "out/") "/jobs/org-a/org-a.periodics.yaml" "/jobs"
    = "out/org-b/org-b.periodics.yaml".
Proof.
  split; [by vm_compute|].
  rewrite (getOutPath_org_file (withOutput exampleOptions "out/")
             "/jobs/org-a/org-a.periodics.yaml" "/jobs" "org-a" "org-a.periodics.yaml");
    by vm_compute.
Defined.

(** ** The merge of [writeOutFile] *)



(** ** The loops of [Main] *)

(** A loop whose body adds to what the state holds: after the loop the
    state holds what it held and what the bodies added. *)
Lemma foldlM_grow {A B X : Type} (f : B → A → option B) (holds : B → X → Prop)
    (adds : A → X → Prop) :
  (∀ b a b', f b a = Some b' → ∀ x, holds b' x ↔ (holds b x ∨ adds a x)) →
  ∀ l b b', foldlM f b l = Some b' →
    ∀ x, holds b' x ↔ (holds b x ∨ ∃ a, a ∈ l ∧ adds a x).
Proof.
  intros Hf l. induction l as [|a l IH]; intros b b' Hfold x; simpl in Hfold.
  - injection Hfold as <-. split; [by left|]. intros [?|(a & Ha & _)]; [done|].
    by apply elem_of_nil in Ha.
  - destruct (f b a) as [b1|] eqn:Hfa; simpl in Hfold; [|done].
    rewrite (IH b1 b' Hfold x), (Hf b a b1 Hfa x). split.
    + intros [[?|?]|(a' & Ha' & ?)]; [by left| |].
      * right. exists a. split; [left|done].
      * right. exists a'. split; [by right|done].
    + intros [?|(a' & Ha' & ?)]; [by left; left|].
      apply elem_of_cons in Ha' as [->|Ha']; [by left; right|].
      right. by exists a'.
Qed.

(** A loop whose body panics on some elements, whatever the state:
    the loop panics exactly when it has such an element. *)
Lemma foldlM_None {A B : Type} (f : B → A → option B) (bad : A → Prop) :
  (∀ b a, f b a = None ↔ bad a) →
  ∀ l b, foldlM f b l = None ↔ ∃ a, a ∈ l ∧ bad a.
Proof.
  intros Hf l. induction l as [|a l IH]; intros b; simpl.
  - split; [done|]. intros (a & Ha & _). by apply elem_of_nil in Ha.
  - destruct (f b a) as [b1|] eqn:Hfa; simpl.
    + rewrite IH. split.
      * intros (a' & Ha' & Hbad). exists a'. split; [by right|done].
      * intros (a' & Ha' & Hbad). apply elem_of_cons in Ha' as [->|Ha'].
        { apply Hf with (b := b) in Hbad. congruence. }
        by exists a'.
    + split; [|done]. intros _. exists a. split; [left|]. by apply (Hf b).
Qed.

Section jobLoopProps.
Context `{RegexpPkg} `{UtilPkg}.
Context {J : Type} (baseOf : J → JobBase.t) (setBase : J → JobBase.t → J)
  (branchesOf : J → list string) (jType : string).

Lemma jobBody_grow (o : options) (ps : list Preset.t) (orgrepo : string)
    (converted converted' : gmap string (list J)) (job : J) :
  jobBody baseOf setBase branchesOf jType o ps orgrepo converted job = Some converted' →
  ∀ kj : string * J,
    kj.2 ∈ jobsAt converted' kj.1 ↔
    (kj.2 ∈ jobsAt converted kj.1
     ∨ (kj.1 = orgrepo
        ∧ convertedFrom baseOf setBase branchesOf jType o ps orgrepo job kj.2)).
Proof.
  unfold jobBody, convertedFrom, jobsAt. intros Hbody [k j']. simpl.
  destruct (validateJob o _ _ _) as [[|]|]; simpl in Hbody; [| |done].
  - destruct (convertJobBase o ps (baseOf job) orgrepo) as [base|]; simpl in Hbody; [|done].
    injection Hbody as <-. destruct (decide (orgrepo = k)) as [->|Hne].
    + rewrite lookup_insert_eq. simpl. rewrite elem_of_app, list_elem_of_singleton.
      split.
      * intros [?| ->]; [by left|]. right. split; [done|]. split; [done|]. by exists base.
      * intros [?|(_ & _ & base' & Hb & ->)]; [by left|]. right. congruence.
    + rewrite lookup_insert_ne by done. split; [by left|].
      intros [?|(? & _)]; [done|congruence].
  - injection Hbody as <-. split; [by left|]. intros [?|(_ & ? & _)]; done.
Qed.

Lemma jobBody_None (o : options) (ps : list Preset.t) (orgrepo : string)
    (converted : gmap string (list J)) (job : J) :
  jobBody baseOf setBase branchesOf jType o ps orgrepo converted job = None
  ↔ conversionPanics baseOf branchesOf jType o ps orgrepo job.
Proof.
  unfold jobBody, conversionPanics.
  destruct (validateJob o _ _ _) as [[|]|]; simpl.
  - destruct (convertJobBase o ps (baseOf job) orgrepo); simpl.
    + split; [done|]. intros [?|[_ ?]]; done.
    + split; [|done]. intros _. by right.
  - split; [done|]. intros [?|[? _]]; done.
  - split; [|done]. intros _. by left.
Qed.

Lemma repoBody_grow (o : options) (ps : list Preset.t)
    (converted converted' : gmap string (list J)) (entry : string * list J) :
  repoBody baseOf setBase branchesOf jType o ps converted entry = Some converted' →
  ∀ kj : string * J,
    kj.2 ∈ jobsAt converted' kj.1 ↔
    (kj.2 ∈ jobsAt converted kj.1
     ∨ (convertOrgRepoStr o entry.1 = kj.1 ∧ kj.1 ≠ ""
        ∧ ∃ job, job ∈ entry.2
                 ∧ convertedFrom baseOf setBase branchesOf jType o ps kj.1 job kj.2)).
Proof.
  unfold repoBody. intros Hbody kj.
  destruct (String.eqb_spec (convertOrgRepoStr o entry.1) "") as [Hempty|Hne].
  - injection Hbody as <-. split; [by left|]. intros [?|(? & ? & _)]; [done|congruence].
  - rewrite (foldlM_grow
               (jobBody baseOf setBase branchesOf jType o ps (convertOrgRepoStr o entry.1))
               (λ m (kj : string * J), kj.2 ∈ jobsAt m kj.1)
               (λ job (kj : string * J),
                  kj.1 = convertOrgRepoStr o entry.1
                  ∧ convertedFrom baseOf setBase branchesOf jType o ps
                      (convertOrgRepoStr o entry.1) job kj.2)
               (λ b a b', jobBody_grow o ps (convertOrgRepoStr o entry.1) b b' a)
               entry.2 converted converted' Hbody kj).
    split.
    + intros [?|(job & Hjob & Hk & Hconv)]; [by left|]. right. rewrite Hk.
      split; [done|]. split; [done|]. by exists job.
    + intros [?|(Hk & _ & job & Hjob & Hconv)]; [by left|]. right.
      exists job. rewrite Hk. by split.
Qed.

Lemma repoBody_None (o : options) (ps : list Preset.t)
    (converted : gmap string (list J)) (entry : string * list J) :
  repoBody baseOf setBase branchesOf jType o ps converted entry = None
  ↔ (convertOrgRepoStr o entry.1 ≠ ""
     ∧ ∃ job, job ∈ entry.2
              ∧ conversionPanics baseOf branchesOf jType o ps
                  (convertOrgRepoStr o entry.1) job).
Proof.
  unfold repoBody.
  destruct (String.eqb_spec (convertOrgRepoStr o entry.1) "") as [Hempty|Hne].
  - split; [done|]. by intros [? _].
  - rewrite (foldlM_None _ _ (λ b a, jobBody_None o ps _ b a)). split; [by split|].
    by intros [_ ?].
Qed.

(** The jobs of the map the loop builds, and when the loop panics. *)
Lemma convertRepos_spec (o : options) (ps : list Preset.t)
    (entries : list (string * list J)) :
  (convertRepos baseOf setBase branchesOf jType o ps entries = None ↔
   ∃ entry job,
     entry ∈ entries ∧ job ∈ entry.2 ∧ convertOrgRepoStr o entry.1 ≠ ""
     ∧ conversionPanics baseOf branchesOf jType o ps (convertOrgRepoStr o entry.1) job)
  ∧ ∀ converted,
      convertRepos baseOf setBase branchesOf jType o ps entries = Some converted →
      ∀ k job',
        job' ∈ jobsAt converted k ↔
        ∃ entry job,
          entry ∈ entries ∧ job ∈ entry.2 ∧ convertOrgRepoStr o entry.1 = k ∧ k ≠ ""
          ∧ convertedFrom baseOf setBase branchesOf jType o ps k job job'.
Proof.
  unfold convertRepos. split.
  - rewrite (foldlM_None _ _ (λ b a, repoBody_None o ps b a)). split.
    + intros (entry & He & Hne & job & Hj & Hp). by exists entry, job.
    + intros (entry & job & He & Hj & Hne & Hp). exists entry. split; [done|].
      split; [done|]. by exists job.
  - intros converted Hconv k job'.
    rewrite (foldlM_grow
               (repoBody baseOf setBase branchesOf jType o ps)
               (λ m (kj : string * J), kj.2 ∈ jobsAt m kj.1)
               (λ (entry : string * list J) (kj : string * J),
                  convertOrgRepoStr o entry.1 = kj.1 ∧ kj.1 ≠ ""
                  ∧ ∃ job, job ∈ entry.2
                           ∧ convertedFrom baseOf setBase branchesOf jType o ps kj.1 job kj.2)
               (λ b a b', repoBody_grow o ps b b' a) entries ∅ converted Hconv (k, job')).
    simpl. unfold jobsAt at 1. rewrite lookup_empty. simpl. split.
    + intros [Hnil|(entry & He & Hk & Hne & job & Hj & Hc)].
      { by apply elem_of_nil in Hnil. }
      by exists entry, job.
    + intros (entry & job & He & Hj & Hk & Hne & Hc). right.
      exists entry. split; [done|]. split; [done|]. split; [done|]. by exists job.
Qed.

End jobLoopProps.

(** X13. The loop of [Main] over the presubmits of a file, whatever the
    order in which the range visits the map.  It panics exactly when
    [validateJob] or the conversion panics on a job of a key that
    [convertOrgRepoStr] converts.  When it returns, the jobs under a
    key of the map it built are the conversions of the jobs that pass
    [validateJob], taken from the keys of the file that
    [convertOrgRepoStr] converts to that key; the keys that convert to
    the empty string give nothing. *)
Theorem convertPresubmits_jobs `{RegexpPkg} `{UtilPkg} (o : options)
    (ps : list Preset.t) (entries : list (string * list Presubmit.t)) :
  (convertPresubmits o ps entries = None ↔
   ∃ entry job,
     entry ∈ entries ∧ job ∈ entry.2 ∧ convertOrgRepoStr o entry.1 ≠ ""
     ∧ conversionPanics Presubmit.JobBase Presubmit.Branches "presubmit" o ps
         (convertOrgRepoStr o entry.1) job)
  ∧ ∀ converted,
      convertPresubmits o ps entries = Some converted →
      ∀ k job',
        job' ∈ jobsAt converted k ↔
        ∃ entry job,
          entry ∈ entries ∧ job ∈ entry.2 ∧ convertOrgRepoStr o entry.1 = k ∧ k ≠ ""
          ∧ convertedFrom Presubmit.JobBase Presubmit.setJobBase Presubmit.Branches
              "presubmit" o ps k job job'.
Proof.
  destruct (convertRepos_spec Presubmit.JobBase Presubmit.setJobBase Presubmit.Branches
              "presubmit" o ps entries) as [Hnone Hsome].
  split; [exact Hnone|]. intros converted Hconv. exact (Hsome converted Hconv).
Qed.


Section periodicLoop.
Context `{RegexpPkg} `{UtilPkg}.

Lemma hasAcceptedRef_true (o : options) (job : Periodic.t) :
  hasAcceptedRef o job = true →
  extraRefsOf job ≠ []
  ∧ allRefs (extraRefsOf job)
      (λ val idx, negb (validateOrgRepo o (Refs.Org val) (Refs.Repo val))) = false.
Proof.
  intros Hacc. split.
  - intros Hnil. unfold hasAcceptedRef in Hacc. by rewrite Hnil in Hacc.
  - destruct (allRefs _ _) eqn:Hall; [|done].
    apply allRefs_rejected, hasAcceptedRef_false in Hall. congruence.
Qed.

Lemma periodicBody_not_eligible (o : options) (ps : list Preset.t)
    (periodic : list Periodic.t) (job : Periodic.t) :
  periodicEligible o job = false → periodicBody o ps periodic job = Some periodic.
Proof.
  unfold periodicEligible. intros Hel. apply andb_false_iff in Hel as [Hv|Hacc].
  - apply bool_decide_eq_false in Hv. unfold periodicBody.
    destruct (validateJob_no_pattern o (JobBase.Name (Periodic.JobBase job)) "periodic")
      as (valid & Hvalid & _).
    rewrite Hvalid in *. simpl. by destruct valid.
  - apply periodicBody_skip. right. by apply hasAcceptedRef_false.
Qed.

Lemma periodicBody_eligible (o : options) (ps : list Preset.t)
    (periodic : list Periodic.t) (job : Periodic.t) :
  periodicEligible o job = true →
  periodicBody o ps periodic job
  = (λ base, periodic ++ [Periodic.setJobBase job base])
      <$> convertJobBase o ps (Periodic.JobBase job) "".
Proof.
  unfold periodicEligible. intros Hel. apply andb_true_iff in Hel as [Hv Hacc].
  apply bool_decide_eq_true in Hv. apply hasAcceptedRef_true in Hacc as [Hne Hall].
  unfold periodicBody, convertJobBase. fold (extraRefsOf job). rewrite Hv, Hall. simpl.
  destruct (extraRefsOf job) as [|ref rest]; [done|]. simpl.
  destruct (updateJobBase _ _ _) as [base|]; simpl; [|done].
  by destruct (resolvePresets _ _ _ _).
Qed.

Lemma foldlM_periodicBody (o : options) (ps : list Preset.t) (jobs : list Periodic.t)
    (periodic : list Periodic.t) :
  foldlM (periodicBody o ps) periodic jobs
  = (λ converted, periodic ++ converted)
      <$> mapM (λ job, Periodic.setJobBase job
                         <$> convertJobBase o ps (Periodic.JobBase job) "")
               (filter (λ job, periodicEligible o job = true) jobs).
Proof.
  revert periodic. induction jobs as [|job jobs IH]; intros periodic.
  - simpl. by rewrite app_nil_r.
  - simpl. destruct (periodicEligible o job) eqn:Hel.
    + rewrite filter_cons_True by done. rewrite periodicBody_eligible by done.
      simpl. destruct (convertJobBase o ps (Periodic.JobBase job) "") as [base|];
        simpl; [|done].
      rewrite IH. destruct (mapM _ _); simpl; [|done]. by rewrite <- app_assoc.
    + rewrite filter_cons_False by congruence.
      rewrite periodicBody_not_eligible by done. simpl. apply IH.
Qed.

End periodicLoop.

(** X15. The loop of [Main] over the periodic jobs of a file is a
    filter followed by a conversion: the jobs that pass [validateJob]
    with no pattern and have an extra ref that [validateOrgRepo]
    accepts are converted, with an empty org/repo string, in the order
    of the file; the loop panics exactly when one of these conversions
    does. *)
Theorem convertPeriodics_filter_map `{RegexpPkg} `{UtilPkg} (o : options)
    (ps : list Preset.t) (jobs : list Periodic.t) :
  convertPeriodics o ps jobs
  = mapM (λ job, Periodic.setJobBase job
                   <$> convertJobBase o ps (Periodic.JobBase job) "")
         (filter (λ job, periodicEligible o job = true) jobs).
Proof.
  unfold convertPeriodics. rewrite foldlM_periodicBody.
  by destruct (mapM _ _).
Qed.

(** ** The conversion of a job *)

Lemma updateJobName_name_only (o : options) (job1 job2 : JobBase.t) :
  JobBase.Name job1 = JobBase.Name job2 →
  JobBase.Name <$> updateJobName o job1 = JobBase.Name <$> updateJobName o job2.
Proof.
  intros Hname. unfold updateJobName. rewrite Hname.
  destruct (_ <? _)%Z; [destruct (_ <? 0)%Z|]; done.
Qed.

Lemma updateUtilityConfig_keeps (o : options) (u : UtilityConfig.t) :
  UtilityConfig.ExtraRefs (updateUtilityConfig o u) = UtilityConfig.ExtraRefs u
  ∧ UtilityConfig.CloneURI (updateUtilityConfig o u) = UtilityConfig.CloneURI u
  ∧ secretsOf (updateUtilityConfig o u)
    = secretsOf u ++ (if String.eqb (sshKeySecret o) "" then [] else [sshKeySecret o]).
Proof.
  unfold updateUtilityConfig, updateSSHKeySecrets, updateGCSConfiguration, secretsOf.
  destruct u as [dec alias uri refs [[gcs cred secrets]|]]; simpl;
    destruct (String.eqb (bucket o) ""), (String.eqb (sshKeySecret o) "");
    simpl; try destruct gcs; try destruct secrets; simpl;
    rewrite ?app_nil_r; repeat split; done.
Qed.

Lemma resolvePresets_keeps (o : options) (jobLabels : gmap string string)
    (job job1 : JobBase.t) (ps : list Preset.t) :
  resolvePresets o jobLabels job ps = Some job1 →
  JobBase.setSpec job1 (JobBase.Spec job) = job
  ∧ (JobBase.Spec job1 = None ↔ JobBase.Spec job = None).
Proof.
  unfold resolvePresets. destruct (resolve o); simpl.
  2:{ intros [= <-]. split; [by destruct job|done]. }
  destruct (JobBase.Spec job) as [spec|] eqn:Hspec.
  2:{ intros [= <-]. rewrite Hspec. split; [|done]. by destruct job; simpl in *; subst. }
  change (foldlM (λ j preset, mergePreset jobLabels j preset))
    with (foldlM (mergePreset jobLabels)).
  rewrite (foldlM_mergePreset jobLabels ps job spec Hspec). intros [= <-]. simpl.
  split; [by destruct job; simpl in *; subst|done].
Qed.

(** X16. The conversion of a job that passed the filters panics exactly
    when [updateJobBase] does.  When it returns, each extra ref is
    remapped as [updateExtraRefs] does it; the annotations are nil; the
    name is the one [updateJobName] makes; the labels are the
    configured ones laid over those of the job; the configured secret
    is appended to the secrets of the job; the clone URI is the SSH URI
    of [orgrepo] in SSH-clone mode with a non-empty [orgrepo] and the
    one of the job otherwise; the job has a pod spec if and only if it
    had one. *)
Theorem convertJobBase_fields `{UtilPkg} (o : options) (ps : list Preset.t)
    (base : JobBase.t) (orgrepo : string) :
  (convertJobBase o ps base orgrepo = None ↔ jobBasePanics o base)
  ∧ ∀ base', convertJobBase o ps base orgrepo = Some base' →
      UtilityConfig.ExtraRefs (JobBase.UtilityConfig base')
      = remapRef o <$> UtilityConfig.ExtraRefs (JobBase.UtilityConfig base)
      ∧ JobBase.Annotations base' = None
      ∧ JobBase.Name <$> updateJobName o base = Some (JobBase.Name base')
      ∧ labelsOf base' = labels o ∪ labelsOf base
      ∧ secretsOf (JobBase.UtilityConfig base')
        = secretsOf (JobBase.UtilityConfig base)
          ++ (if String.eqb (sshKeySecret o) "" then [] else [sshKeySecret o])
      ∧ UtilityConfig.CloneURI (JobBase.UtilityConfig base')
        = (if sshClone o && negb (String.eqb orgrepo "")
           then "git@github.com:" +:+ orgrepo +:+ ".git"
           else UtilityConfig.CloneURI (JobBase.UtilityConfig base))
      ∧ (JobBase.Spec base' = None ↔ JobBase.Spec base = None).
Proof.
  unfold convertJobBase. rewrite updateExtraRefs_map.
  set (base0 := JobBase.setUtilityConfig base _).
  assert (JobBase.Spec base0 = JobBase.Spec base
          ∧ JobBase.Name base0 = JobBase.Name base
          ∧ labelsOf base0 = labelsOf base
          ∧ secretsOf (JobBase.UtilityConfig base0) = secretsOf (JobBase.UtilityConfig base)
          ∧ UtilityConfig.CloneURI (JobBase.UtilityConfig base0)
            = UtilityConfig.CloneURI (JobBase.UtilityConfig base)
          ∧ UtilityConfig.ExtraRefs (JobBase.UtilityConfig base0)
            = remapRef o <$> UtilityConfig.ExtraRefs (JobBase.UtilityConfig base))
    as (Hspec0 & Hname0 & Hlabels0 & Hsecrets0 & Huri0 & Hrefs0) by done.
  clearbody base0.
  destruct (updateJobBase_spec o base0 orgrepo) as [Hnone Hsome].
  assert (jobBasePanics o base0 ↔ jobBasePanics o base) as Hpanics.
  { unfold jobBasePanics. by rewrite Hspec0. }
  destruct (updateJobBase o base0 orgrepo) as [base1|] eqn:Hbase1; simpl.
  2:{ split; [|done]. split; [|done]. intros _. by apply Hpanics, Hnone. }
  destruct (Hsome base1 eq_refl)
    as (Hann1 & _ & Hrefs1 & _ & _ & Huri1 & Hname1 & Hlabels1 & Hspec1 & _).
  set (base2 := JobBase.setUtilityConfig base1 _).
  destruct (updateUtilityConfig_keeps o (JobBase.UtilityConfig base1))
    as (Hrefs2 & Huri2 & Hsecrets2).
  destruct (resolvePresets o (default ∅ (JobBase.Labels base1)) base2 ps)
    as [base3|] eqn:Hbase3.
  2:{ destruct (resolvePresets_spec o (default ∅ (JobBase.Labels base1)) base2 ps)
        as (job1 & Hjob1 & _). congruence. }
  apply resolvePresets_keeps in Hbase3 as [Hkeep3 Hspec3].
  split.
  { split; [done|]. intros Hp. apply Hpanics, Hnone in Hp. done. }
  intros base' [= <-].
  assert (JobBase.UtilityConfig base3 = JobBase.UtilityConfig base2
          ∧ JobBase.Annotations base3 = JobBase.Annotations base2
          ∧ JobBase.Name base3 = JobBase.Name base2
          ∧ JobBase.Labels base3 = JobBase.Labels base2) as (Huc3 & Hann3 & Hname3 & Hlabels3).
  { rewrite <- Hkeep3. by destruct base3. }
  unfold labelsOf in *. rewrite Huc3, Hann3, Hname3, Hlabels3. subst base2. simpl.
  rewrite Hrefs2, Huri2, Hsecrets2, Hrefs1, Hrefs0, Hann1, Huri1, Huri0, Hlabels1, Hlabels0.
  rewrite <- (updateJobName_name_only o base0 base Hname0), Hname1.
  assert (secretsOf (JobBase.UtilityConfig base1) = secretsOf (JobBase.UtilityConfig base0))
    as Hsecrets1.
  { unfold secretsOf.
    destruct (Hsome base1 eq_refl) as (_ & _ & _ & Hdec & _). by rewrite Hdec. }
  rewrite Hsecrets1, Hsecrets0.
  repeat split; try done.
  - intros Hn. apply Hspec3 in Hn. simpl in Hn. apply Hspec1 in Hn. congruence.
  - intros Hn. apply Hspec3. simpl. apply Hspec1. congruence.
Qed.

(** ** The validation of the flags *)

Lemma IsAbs_cons (path : string) :
  abspath.IsAbs path = true → ∃ rest, path = String "/" rest.
Proof.
  unfold abspath.IsAbs, strings.HasPrefix. destruct path as [|c rest]; [done|].
  change (String.prefix "/" (String c rest))
    with (if ascii_dec "/" c then String.prefix "" rest else false).
  destruct (ascii_dec "/" c) as [<-|]; [by eexists|done].
Qed.

Lemma IsAbs_Clean (path : string) :
  abspath.IsAbs path = true → abspath.IsAbs (filepath.Clean path) = true.
Proof.
  intros Habs. destruct (IsAbs_cons path Habs) as [rest ->].
  unfold filepath.Clean. change (String.eqb (String "/" rest) "") with false. cbv iota.
  unfold abspath.IsAbs in Habs. rewrite Habs.
  generalize (strings.Join
                (rev (filepath.cleanElems true []
                        (strings.SplitByte (String "/" rest) filepath.slash))) "/").
  intros body. by destruct body; vm_compute.
Qed.

Lemma IsAbs_Join (dir path : string) :
  abspath.IsAbs dir = true → abspath.IsAbs (filepath.Join [dir; path]) = true.
Proof.
  intros Habs. destruct (IsAbs_cons dir Habs) as [rest ->].
  unfold filepath.Join. change (String.eqb (String "/" rest) "") with false. cbv iota.
  apply IsAbs_Clean.
  change (strings.Join [String "/" rest; path] "/")
    with (String "/" (rest +:+ "/" +:+ path)).
  generalize (rest +:+ "/" +:+ path). intros body. by destruct body; vm_compute.
Qed.

Lemma Abs_IsAbs (dir path a : string) :
  abspath.IsAbs dir = true → abspath.Abs (Some dir) path = Some a →
  abspath.IsAbs a = true.
Proof.
  unfold abspath.Abs. intros Hdir. destruct (abspath.IsAbs path) eqn:Hp.
  - intros [= <-]. by apply IsAbs_Clean.
  - intros [= <-]. by apply IsAbs_Join.
Qed.

Lemma absOf_Abs (wd : option string) (path a : string) :
  absOf wd path = (a, false) ↔ abspath.Abs wd path = Some a.
Proof.
  unfold absOf. destruct (abspath.Abs wd path); split; intros Heq; congruence.
Qed.

Section flags.
Context `{UtilPkg}.

Lemma validatePresets_inl (wd : option string) (paths : list string) (e : ExitError.t) :
  validatePresets wd paths = inl e → ExitError.Code e = 1%Z.
Proof.
  induction paths as [|p rest IH]; simpl; [done|].
  destruct (absOf wd p) as [a err]. destruct (negb _ || err).
  - by intros [= <-].
  - destruct (validatePresets wd rest); [|done]. intros [= <-]. by apply IH.
Qed.

Lemma validatePresets_inr (wd : option string) (paths l : list string) :
  validatePresets wd paths = inr l →
  Forall2 (λ p a, abspath.Abs wd p = Some a ∧ HasExtension a yamlExt = true) paths l.
Proof.
  revert l. induction paths as [|p rest IH]; intros l; simpl.
  - intros [= <-]. constructor.
  - destruct (absOf wd p) as [a err] eqn:Habs.
    destruct (HasExtension a yamlExt) eqn:Hext; simpl; [|done].
    destruct err; [done|].
    destruct (validatePresets wd rest) as [|l']; [done|]. intros [= <-].
    constructor; [|by apply IH]. split; [by apply absOf_Abs|done].
Qed.

Lemma Forall2_Abs_IsAbs (dir : string) (paths l : list string) :
  abspath.IsAbs dir = true →
  Forall2 (λ p a, abspath.Abs (Some dir) p = Some a ∧ HasExtension a yamlExt = true)
          paths l →
  Forall (λ a, abspath.IsAbs a = true) l.
Proof.
  intros Hdir Hall. induction Hall as [|p a ps l' [Ha _] _ IH]; [constructor|].
  constructor; [|done]. by apply (Abs_IsAbs dir p).
Qed.

End flags.

(** X17. [validateFlags] fails with exit code 1 and the message that
    the mapping is required when the mapping is empty, whatever the
    other flags are, and every failure has exit code 1.  When it
    succeeds the mapping is not empty, the input, the output and each
    preset path are replaced by what [filepath.Abs] makes of them, each
    preset path then has a YAML extension, and no other flag changes.
    With an absolute working directory [filepath.Abs] does not fail and
    all these paths are absolute. *)
Theorem validateFlags_result `{UtilPkg} (wd : option string) (o : options) :
  (orgMap o = ∅ →
   validateFlags wd o
   = inl {| ExitError.Message := "-m, --mapping option is required.";
            ExitError.Code := 1 |})
  ∧ (∀ e, validateFlags wd o = inl e → ExitError.Code e = 1%Z)
  ∧ (∀ o', validateFlags wd o = inr o' →
       orgMap o ≠ ∅
       ∧ abspath.Abs wd (input o) = Some (input o')
       ∧ abspath.Abs wd (output o) = Some (output o')
       ∧ Forall2 (λ p a, abspath.Abs wd p = Some a ∧ HasExtension a yamlExt = true)
                 (presets o) (presets o')
       ∧ o' = {| bucket := bucket o; cluster := cluster o; channel := channel o;
                 sshKeySecret := sshKeySecret o; modifier := modifier o;
                 input := input o'; output := output o'; branches := branches o;
                 presets := presets o'; selector := selector o; labels := labels o;
                 env := env o; orgMap := orgMap o; jobWhitelist := jobWhitelist o;
                 jobBlacklist := jobBlacklist o; repoWhitelist := repoWhitelist o;
                 repoBlacklist := repoBlacklist o; jobType := jobType o;
                 clean := clean o; dryRun := dryRun o; extraRefs := extraRefs o;
                 resolve := resolve o; sshClone := sshClone o;
                 overrideSelector := overrideSelector o |})
  ∧ (∀ dir, wd = Some dir → abspath.IsAbs dir = true →
       (orgMap o ≠ ∅ → presets o = [] → ∃ o', validateFlags wd o = inr o')
       ∧ ∀ o', validateFlags wd o = inr o' →
           abspath.IsAbs (input o') = true ∧ abspath.IsAbs (output o') = true
           ∧ Forall (λ a, abspath.IsAbs a = true) (presets o')).
Proof.
  assert (∀ o', validateFlags wd o = inr o' →
            orgMap o ≠ ∅
            ∧ abspath.Abs wd (input o) = Some (input o')
            ∧ abspath.Abs wd (output o) = Some (output o')
            ∧ Forall2 (λ p a, abspath.Abs wd p = Some a ∧ HasExtension a yamlExt = true)
                      (presets o) (presets o')
            ∧ o' = {| bucket := bucket o; cluster := cluster o; channel := channel o;
                      sshKeySecret := sshKeySecret o; modifier := modifier o;
                      input := input o'; output := output o'; branches := branches o;
                      presets := presets o'; selector := selector o; labels := labels o;
                      env := env o; orgMap := orgMap o; jobWhitelist := jobWhitelist o;
                      jobBlacklist := jobBlacklist o; repoWhitelist := repoWhitelist o;
                      repoBlacklist := repoBlacklist o; jobType := jobType o;
                      clean := clean o; dryRun := dryRun o; extraRefs := extraRefs o;
                      resolve := resolve o; sshClone := sshClone o;
                      overrideSelector := overrideSelector o |}) as Hok.
  { intros o'. unfold validateFlags. rewrite map_size_eqb_0.
    case_bool_decide as Hm; [done|].
    destruct (absOf wd (input o)) as [i [|]] eqn:Hi; [done|].
    destruct (absOf wd (output o)) as [u [|]] eqn:Hu; [done|].
    destruct (validatePresets wd (presets o)) as [|l] eqn:Hp; [done|].
    intros [= <-]. simpl. split; [done|].
    split; [by apply absOf_Abs|]. split; [by apply absOf_Abs|].
    split; [by apply validatePresets_inr|done]. }
  split; [|split; [|split; [exact Hok|]]].
  - intros Hm. unfold validateFlags. by rewrite Hm, map_size_empty.
  - intros e. unfold validateFlags. destruct (size (orgMap o) =? 0)%nat; [by intros [= <-]|].
    destruct (absOf wd (input o)) as [i [|]]; [by intros [= <-]|].
    destruct (absOf wd (output o)) as [u [|]]; [by intros [= <-]|].
    destruct (validatePresets wd (presets o)) as [e'|l] eqn:Hp; [|done].
    intros [= <-]. by apply (validatePresets_inl wd (presets o)).
  - intros dir -> Hdir. split.
    + intros Hm Hp. unfold validateFlags. rewrite map_size_eqb_0.
      rewrite bool_decide_eq_false_2 by done. rewrite Hp. unfold absOf, abspath.Abs.
      destruct (abspath.IsAbs (input o)), (abspath.IsAbs (output o)); simpl; by eexists.
    + intros o' Ho'. destruct (Hok o' Ho') as (_ & Hi & Hu & Hp & _).
      split; [by apply (Abs_IsAbs dir (input o))|].
      split; [by apply (Abs_IsAbs dir (output o))|].
      by apply (Forall2_Abs_IsAbs dir (presets o)).
Qed.

Lemma validateFlags_result_witness :
  orgMap defaultOptions = ∅
  ∧ validateFlags (Some "/home/prow") defaultOptions
    = inl {| ExitError.Message := "-m, --mapping option is required.";
             ExitError.Code := 1 |}.
Proof.
  split; [done|].
  exact (proj1 (validateFlags_result (Some "/home/prow") defaultOptions) eq_refl).
Defined.

(** The relative paths of the example made absolute. *)
Example validateFlags_example :
  (λ o', (input o', output o')) <$>
    match validateFlags (Some "/home/prow") (withOutput exampleOptions "../out/") with
    | inr o' => Some o'
    | inl _ => None
    end
  = Some ("/home/prow", "/home/out").
Proof. by vm_compute. Qed.

(** ** Examples of the further properties *)

Lemma allRefs_forall_witness :
  (∀ i item, exampleRefs !! i = Some item →
     negb (String.eqb (Refs.Repo item) "") = true)
  ∧ allRefs exampleRefs (λ item _, negb (String.eqb (Refs.Repo item) "")) = true.
Proof.
  assert (∀ i item, exampleRefs !! i = Some item →
            negb (String.eqb (Refs.Repo item) "") = true) as Hall.
  { intros [|[|i]] item Hi; simpl in Hi; [by injection Hi as <-..|done]. }
  split; [exact Hall|].
  exact (proj2 (proj1 (allRefs_forall exampleRefs
                         (λ item _, negb (String.eqb (Refs.Repo item) "")))) Hall).
Defined.

(** Two presets with the same gate and the same variable: the later
    one wins, and resolving again changes nothing. *)
Lemma resolvePresets_idempotent_witness :
  ∃ job1,
    resolvePresets exampleEndToEnd {[ "preset-foo" := "true" ]}
      (exampleEnvJob [exampleEnv "FOO" "old"]) [examplePreset; examplePreset2] = Some job1
    ∧ resolvePresets exampleEndToEnd {[ "preset-foo" := "true" ]} job1
        [examplePreset; examplePreset2] = Some job1.
Proof.
  destruct (resolvePresets_idempotent exampleEndToEnd {[ "preset-foo" := "true" ]}
              (exampleEnvJob [exampleEnv "FOO" "old"]) [examplePreset; examplePreset2])
    as (job1 & H1 & H2 & _).
  exists job1. split; [exact H1|exact H2].
Defined.

Example resolvePresets_later_wins :
  resolvePresets exampleEndToEnd {[ "preset-foo" := "true" ]}
    (exampleEnvJob [exampleEnv "FOO" "old"]) [examplePreset; examplePreset2]
  = Some (exampleMergedJob [exampleEnv "FOO" "baz"]).
Proof. by vm_compute. Qed.


(** The end-to-end example: a presubmit of [org-a/repo-x] for the branch
    [main], with the label of a preset that sets [FOO]; the mapping
    [org-a → org-b], the branch filter [main], presets resolved. *)
Example convertPresubmits_end_to_end :
  convertPresubmits exampleEndToEnd [examplePreset]
    [("org-a/repo-x",
      [exampleLabeledPresubmit "unit-tests" (exampleSpec [exampleContainer []] None)])]
  = Some {[ "org-b/repo-x" :=
              [exampleLabeledPresubmit "unit-tests_private"
                 (exampleMergedSpec [exampleEnv "FOO" "bar"])] ]}.
Proof. by vm_compute. Qed.

Lemma convertPresubmits_jobs_witness :
  ∃ entry job,
    entry ∈ [("org-a/repo-x",
              [exampleLabeledPresubmit "unit-tests"
                 (exampleSpec [exampleContainer []] None)])]
    ∧ job ∈ entry.2 ∧ convertOrgRepoStr exampleEndToEnd entry.1 = "org-b/repo-x"
    ∧ "org-b/repo-x" ≠ ""
    ∧ convertedFrom Presubmit.JobBase Presubmit.setJobBase Presubmit.Branches "presubmit"
        exampleEndToEnd [examplePreset] "org-b/repo-x" job
        (exampleLabeledPresubmit "unit-tests_private"
           (exampleMergedSpec [exampleEnv "FOO" "bar"])).
Proof.
  apply (proj1 (proj2 (convertPresubmits_jobs exampleEndToEnd [examplePreset] _)
                      _ convertPresubmits_end_to_end "org-b/repo-x" _)).
  unfold jobsAt. rewrite lookup_singleton_eq. simpl. left.
Defined.


Lemma convertJobBase_fields_witness :
  convertJobBase exampleEndToEnd [examplePreset]
    (exampleJob "unit-tests" (Some (exampleSpec [exampleContainer []] None)) exampleRefs)
    "org-b/repo-x"
  = Some (exampleJob "unit-tests_private" (Some (exampleSpec [exampleContainer []] None))
            [exampleRef "org-b" "repo-x"; exampleRef "org-c" "repo-y"])
  ∧ [exampleRef "org-b" "repo-x"; exampleRef "org-c" "repo-y"]
    = remapRef exampleEndToEnd <$> exampleRefs.
Proof.
  assert (convertJobBase exampleEndToEnd [examplePreset]
            (exampleJob "unit-tests" (Some (exampleSpec [exampleContainer []] None))
               exampleRefs) "org-b/repo-x"
          = Some (exampleJob "unit-tests_private"
                    (Some (exampleSpec [exampleContainer []] None))
                    [exampleRef "org-b" "repo-x"; exampleRef "org-c" "repo-y"])) as Hc
    by (by vm_compute).
  split; [exact Hc|].
  exact (proj1 (proj2 (convertJobBase_fields exampleEndToEnd [examplePreset] _ _) _ Hc)).
Defined.

(** The periodic jobs of the example: the second has no accepted extra
    ref and is left out. *)
Example convertPeriodics_example :
  fmap (M := option)
    (fmap (M := list) (λ job, JobBase.Name (Periodic.JobBase job)))
    (convertPeriodics exampleOptions []
       [examplePeriodic "nightly" [exampleRef "org-a" "repo-x"];
        examplePeriodic "weekly" [exampleRef "org-c" "repo-y"];
        examplePeriodic "monthly" exampleRefs])
  = Some ["nightly_private"; "monthly_private"].
Proof. by vm_compute. Qed.
